(** * webtorrent-remote: the server side (broker) of the remote-control protocol

    A shallow embedding of the two server sources of the repository,
    [src/server.js] (module [ServerJs]) and [src/unnamed/part_000]
    (module [Part000]), and the properties of the specification that
    are decided by them.

    Conventions of the embedding:
    - the server object is the record [Server]; every function of the
      source takes the server and returns the server it leaves behind;
    - JavaScript objects that are shared ([Torrent] objects are reachable
      from the engine's [torrents] array, from [server._torrents] and
      from pending callbacks) live in an object store [heap] and are
      named by their index, a [TorrentRef];
    - [server._clients], an object used as a dictionary and walked with
      [for .. in], is a list of entries in insertion order, keyed by
      [cl_clientKey] (keys that collide with members of Object.prototype,
      and the numeric-key ordering of [for .. in], are outside the model);
    - [new Date().getTime()] is an explicit argument [now];
    - [server._send(m)] appends [m] to [sent]; [console.log] and
      [console.error] append to [console]; calls that cross into the
      WebTorrent engine are recorded in [calls];
    - a JavaScript exception is the result [Thrown]: the server that is
      returned with it is the state at the moment of the throw. *)

From Stdlib Require Import ZArith Lia Ascii String.
From stdpp Require Import base list strings.

#[local] Open Scope string_scope.
#[local] Open Scope list_scope.
#[local] Open Scope Z_scope.

(** ** Values and messages *)

(** The JavaScript values the broker only passes along. Numbers that the
    broker computes with (timestamps, timeouts) are integers. *)
Inductive JsVal :=
  | Undefined
  | Num (z : Z)
  | Str (s : string).

#[global] Instance JsVal_eq_dec : EqDecision JsVal.
Proof. solve_decision. Defined.

(** Torrent objects are named by their index in the object store. *)
Abbreviation TorrentRef := nat.

(** An entry [{clientKey, torrentKey}] of [torrent.clients]. *)
Record Subscription := {
  c_clientKey : string;
  c_torrentKey : option string
}.

#[global] Instance Subscription_eq_dec : EqDecision Subscription.
Proof. solve_decision. Defined.

Record File := { f_name : JsVal; f_length : JsVal }.

#[global] Instance File_eq_dec : EqDecision File.
Proof. solve_decision. Defined.

(** What the engine reports about a torrent; the broker only reads it. *)
Record EngineView := {
  ev_key : JsVal;
  ev_name : JsVal;
  ev_length : JsVal;
  ev_files : option (list File);
  ev_progress : JsVal;
  ev_downloaded : JsVal;
  ev_uploaded : JsVal;
  ev_downloadSpeed : JsVal;
  ev_uploadSpeed : JsVal;
  ev_ratio : JsVal;
  ev_numPeers : JsVal;
  ev_timeRemaining : JsVal
}.

Definition blankView : EngineView :=
  {| ev_key := Undefined; ev_name := Undefined; ev_length := Undefined;
     ev_files := None; ev_progress := Undefined; ev_downloaded := Undefined;
     ev_uploaded := Undefined; ev_downloadSpeed := Undefined;
     ev_uploadSpeed := Undefined; ev_ratio := Undefined;
     ev_numPeers := Undefined; ev_timeRemaining := Undefined |}.

(** The closures queued in [torrent.pendingServerCallbacks] by
    [src/unnamed/part_000], defunctionalised: [respond] of
    [handleAddTorrent] and the anonymous callback of [handleCreateServer]. *)
Inductive Callback :=
  | Respond (torrent : TorrentRef) (clientKey : string) (torrentKey : option string)
  | ServerReady (torrent : TorrentRef) (clientKey : string) (torrentKey : option string).

(** A torrent object: the engine's fields and the fields the broker
    attaches to it ([clients], [serverURL], and the waiter list, which is
    [pendingServerCallbacks] in part_000 and [pendingHttpClients] in
    server.js). An absent field is [None]. *)
Record Torrent := {
  infoHash : string;
  destroyed : bool;
  view : EngineView;
  clients : list Subscription;
  serverURL : option string;
  pendingServerCallbacks : option (list Callback);
  pendingHttpClients : option (list Subscription)
}.

Definition with_destroyed (b : bool) (t : Torrent) : Torrent :=
  {| infoHash := infoHash t; destroyed := b; view := view t;
     clients := clients t; serverURL := serverURL t;
     pendingServerCallbacks := pendingServerCallbacks t;
     pendingHttpClients := pendingHttpClients t |}.

Definition with_view (v : EngineView) (t : Torrent) : Torrent :=
  {| infoHash := infoHash t; destroyed := destroyed t; view := v;
     clients := clients t; serverURL := serverURL t;
     pendingServerCallbacks := pendingServerCallbacks t;
     pendingHttpClients := pendingHttpClients t |}.

Definition with_clients (cs : list Subscription) (t : Torrent) : Torrent :=
  {| infoHash := infoHash t; destroyed := destroyed t; view := view t;
     clients := cs; serverURL := serverURL t;
     pendingServerCallbacks := pendingServerCallbacks t;
     pendingHttpClients := pendingHttpClients t |}.

Definition with_serverURL (u : option string) (t : Torrent) : Torrent :=
  {| infoHash := infoHash t; destroyed := destroyed t; view := view t;
     clients := clients t; serverURL := u;
     pendingServerCallbacks := pendingServerCallbacks t;
     pendingHttpClients := pendingHttpClients t |}.

Definition with_pendingServerCallbacks (p : option (list Callback)) (t : Torrent) : Torrent :=
  {| infoHash := infoHash t; destroyed := destroyed t; view := view t;
     clients := clients t; serverURL := serverURL t;
     pendingServerCallbacks := p;
     pendingHttpClients := pendingHttpClients t |}.

Definition with_pendingHttpClients (p : option (list Subscription)) (t : Torrent) : Torrent :=
  {| infoHash := infoHash t; destroyed := destroyed t; view := view t;
     clients := clients t; serverURL := serverURL t;
     pendingServerCallbacks := pendingServerCallbacks t;
     pendingHttpClients := p |}.

(** [torrent.clients.push({clientKey, torrentKey})] *)
Definition push_client (c : Subscription) (t : Torrent) : Torrent :=
  with_clients (clients t ++ [c]) t.

(** Inbound messages: [{clientKey, type, torrentKey, torrentID, options}]. *)
Record MessageOptions := {
  opt_server : bool;        (* truthiness of options.server *)
  opt_delay : option Z      (* options.delay *)
}.

Record Message := {
  type : string;
  clientKey : string;
  torrentKey : option string;
  torrentID : option string;
  options : option MessageOptions
}.

(** Outbound messages. *)
Record InfoFields := {
  i_key : option JsVal;     (* only server.js sends [key] *)
  i_name : JsVal;
  i_infohash : string;
  i_length : JsVal;
  i_serverURL : option string;
  i_files : list File
}.

Record ProgressFields := {
  p_progress : JsVal;
  p_downloaded : JsVal;
  p_uploaded : JsVal;
  p_length : JsVal;
  p_downloadSpeed : JsVal;
  p_uploadSpeed : JsVal;
  p_ratio : JsVal;
  p_numPeers : JsVal;
  p_timeRemaining : JsVal
}.

(** The [torrent] property of an outbound message. *)
Inductive Payload :=
  | NoTorrent                                   (* no such property *)
  | TorrentNull                                 (* torrent: null *)
  | TorrentInfo (i : InfoFields)
  | TorrentProgress (p : ProgressFields)
  | TorrentInfoProgress (i : InfoFields) (p : ProgressFields).

Record ErrorFields := { e_message : JsVal; e_stack : JsVal }.

Record Outbound := {
  o_type : string;
  o_torrent : Payload;
  o_error : option ErrorFields;
  o_serverURL : option string;
  o_clientKey : option string;
  o_torrentKey : option string
}.

(** [{type, torrent}] and [{type, error}], before they are addressed. *)
Definition torrentMessage (ty : string) (p : Payload) : Outbound :=
  {| o_type := ty; o_torrent := p; o_error := None; o_serverURL := None;
     o_clientKey := None; o_torrentKey := None |}.

Definition errorMessage (ty : string) (e : ErrorFields) : Outbound :=
  {| o_type := ty; o_torrent := NoTorrent; o_error := Some e; o_serverURL := None;
     o_clientKey := None; o_torrentKey := None |}.

(** [Object.assign({}, message, client)] for [client = {clientKey, torrentKey}] *)
Definition assignClient (message : Outbound) (client : Subscription) : Outbound :=
  {| o_type := o_type message; o_torrent := o_torrent message;
     o_error := o_error message; o_serverURL := o_serverURL message;
     o_clientKey := Some (c_clientKey client);
     o_torrentKey := c_torrentKey client |}.

(** [Object.assign({}, message, {clientKey})] *)
Definition assignClientKey (message : Outbound) (ck : string) : Outbound :=
  {| o_type := o_type message; o_torrent := o_torrent message;
     o_error := o_error message; o_serverURL := o_serverURL message;
     o_clientKey := Some ck;
     o_torrentKey := o_torrentKey message |}.

(** [{clientKey, torrentKey, serverURL, type: 'server-ready'}] *)
Definition serverReady (ck : string) (tk : option string) (url : option string) : Outbound :=
  {| o_type := "server-ready"; o_torrent := NoTorrent; o_error := None;
     o_serverURL := url; o_clientKey := Some ck; o_torrentKey := tk |}.

(** ** The server object *)

Record Client := { cl_clientKey : string; heartbeat : Z }.

Record ServerOptions := {
  trace : bool;
  heartbeatTimeout : option Z     (* [None]: undefined or null *)
}.

(** The WebTorrent instance, as far as the broker looks into it. *)
Record WebTorrent := { torrents : list TorrentRef }.

Inductive EngineCall :=
  | CallNew                               (* new WebTorrent(options) *)
  | CallAdd (torrentID : option string) (r : TorrentRef)   (* wt.add(..) *)
  | CallTorrentDestroy (r : TorrentRef)   (* torrent.destroy() *)
  | CallCreateServer (r : TorrentRef)     (* torrent.createServer(..) *)
  | CallListen (r : TorrentRef)           (* torrent.server.listen(..) *)
  | CallDestroy.                          (* wt.destroy() *)

#[global] Instance EngineCall_eq_dec : EqDecision EngineCall.
Proof. solve_decision. Defined.

Inductive Diagnostic :=
  | LogAddingClient (ck : string)
  | LogJoiningSwarm (infohash : string)
  | LogDestroyingClient (ck : string)
  | LogClientDied (ck : string)
  | LogTorrentDestroyed (r : TorrentRef)
  | LogInstanceDestroyed
  | ErrUnknownType (m : Message)
  | ErrUnknownClient (ck : string).

Record Server := {
  _options : ServerOptions;
  _webtorrent : option WebTorrent;
  _clients : list Client;
  _torrents : list TorrentRef;
  heap : list Torrent;
  sent : list Outbound;
  console : list Diagnostic;
  calls : list EngineCall;
  timers : list string          (* clientKeys of pending setTimeout(kill, delay) *)
}.

Definition with_webtorrent (w : option WebTorrent) (s : Server) : Server :=
  {| _options := _options s; _webtorrent := w; _clients := _clients s;
     _torrents := _torrents s; heap := heap s; sent := sent s;
     console := console s; calls := calls s; timers := timers s |}.

Definition with__clients (c : list Client) (s : Server) : Server :=
  {| _options := _options s; _webtorrent := _webtorrent s; _clients := c;
     _torrents := _torrents s; heap := heap s; sent := sent s;
     console := console s; calls := calls s; timers := timers s |}.

Definition with_torrents (l : list TorrentRef) (s : Server) : Server :=
  {| _options := _options s; _webtorrent := _webtorrent s; _clients := _clients s;
     _torrents := l; heap := heap s; sent := sent s;
     console := console s; calls := calls s; timers := timers s |}.

Definition with_heap (h : list Torrent) (s : Server) : Server :=
  {| _options := _options s; _webtorrent := _webtorrent s; _clients := _clients s;
     _torrents := _torrents s; heap := h; sent := sent s;
     console := console s; calls := calls s; timers := timers s |}.

Definition with_timers (l : list string) (s : Server) : Server :=
  {| _options := _options s; _webtorrent := _webtorrent s; _clients := _clients s;
     _torrents := _torrents s; heap := heap s; sent := sent s;
     console := console s; calls := calls s; timers := l |}.

(** [server._send(message)] *)
Definition _send (message : Outbound) (s : Server) : Server :=
  {| _options := _options s; _webtorrent := _webtorrent s; _clients := _clients s;
     _torrents := _torrents s; heap := heap s; sent := sent s ++ [message];
     console := console s; calls := calls s; timers := timers s |}.

(** [console.log(..)], [console.error(..)] *)
Definition log (d : Diagnostic) (s : Server) : Server :=
  {| _options := _options s; _webtorrent := _webtorrent s; _clients := _clients s;
     _torrents := _torrents s; heap := heap s; sent := sent s;
     console := console s ++ [d]; calls := calls s; timers := timers s |}.

(** [if (server._options.trace) console.log(..)] *)
Definition traceLog (d : Diagnostic) (s : Server) : Server :=
  if trace (_options s) then log d s else s.

Definition called (c : EngineCall) (s : Server) : Server :=
  {| _options := _options s; _webtorrent := _webtorrent s; _clients := _clients s;
     _torrents := _torrents s; heap := heap s; sent := sent s;
     console := console s; calls := calls s ++ [c]; timers := timers s |}.

(** The constructor: [new WebTorrentRemoteServer(send, options)]. *)
Definition newServer (opts : ServerOptions) : Server :=
  {| _options := opts; _webtorrent := None; _clients := []; _torrents := [];
     heap := []; sent := []; console := []; calls := []; timers := [] |}.

(** [server._clients[clientKey]] *)
Definition getClient (ck : string) (s : Server) : option Client :=
  List.find (λ c, bool_decide (cl_clientKey c = ck)) (_clients s).

(** [delete server._clients[clientKey]] *)
Definition deleteClient (ck : string) (s : Server) : Server :=
  with__clients (filter (λ c, cl_clientKey c ≠ ck) (_clients s)) s.

(** Update of a torrent object in place. *)
Definition updTorrent (r : TorrentRef) (f : Torrent → Torrent) (s : Server) : Server :=
  with_heap (alter f r (heap s)) s.

(** The engine's array [wt.torrents], empty when there is no instance. *)
Definition wtTorrents (s : Server) : list TorrentRef :=
  match _webtorrent s with
  | Some wt => torrents wt
  | None => []
  end.

(** ** The collaborators outside the repository *)

(** [require('parse-torrent')]: the parser of torrent identifiers. It is
    not part of the repository and is taken as a parameter: [None] when
    the call throws, otherwise the [infoHash] of the parsed identifier
    (an identifier that parses is taken to have one). The argument is
    [message.torrentID], [None] when the message has no such property. *)
Class Parser := parseTorrent : option string → option string.

(** What a call leaves behind besides the server: it returned, or it threw. *)
Inductive Result :=
  | Returned
  | Thrown (e : string).

#[global] Instance Result_eq_dec : EqDecision Result.
Proof. solve_decision. Defined.

(** Modelled from the spec: the transfer engine (the [webtorrent] package)
    is missing from the sources; section 6, "Engine Adapter boundary":
    [join(resourceId, options) -> handle], [handle.destroy()], instance-level
    [destroy()]. The join is synchronous for the broker: it returns a fresh
    handle whose fingerprint is the one the identifier parses to, and the
    engine lists the handle among its [torrents]. *)
Definition engineAdd (torrentID : option string) (infohash : string) (s : Server)
  : TorrentRef * Server :=
  let r := length (heap s) in
  let torrent :=
    {| infoHash := infohash; destroyed := false; view := blankView;
       clients := []; serverURL := None;
       pendingServerCallbacks := None; pendingHttpClients := None |} in
  let wt := (λ w, {| torrents := torrents w ++ [r] |}) <$> _webtorrent s in
  (r, called (CallAdd torrentID r) (with_webtorrent wt (with_heap (heap s ++ [torrent]) s))).

(** Modelled from the spec: [handle.destroy()] of the missing engine marks
    the handle destroyed and takes it off the engine's [torrents]; on a
    handle that is destroyed already it does nothing. *)
Definition torrentDestroy (r : TorrentRef) (s : Server) : Server :=
  match heap s !! r with
  | Some t =>
      if destroyed t then s
      else
        let wt := (λ w, {| torrents := filter (λ r', r' ≠ r) (torrents w) |})
                    <$> _webtorrent s in
        called (CallTorrentDestroy r)
          (with_webtorrent wt (updTorrent r (with_destroyed true) s))
  | None => s
  end.

(** Modelled from the spec: instance-level [destroy()] of the missing
    engine destroys every handle the instance still lists. *)
Definition engineDestroy (s : Server) : Server :=
  match _webtorrent s with
  | Some wt =>
      called CallDestroy
        (with_webtorrent (Some {| torrents := [] |})
           (with_heap (foldl (λ h r, alter (with_destroyed true) r h) (heap s) (torrents wt)) s))
  | None => s
  end.

(** ** Functions that read the same in both sources *)

(** [webtorrent ()]: the engine instance, lazily created.
    ([addWebTorrentEvents] only registers listeners; the events are
    [EngineEvent] below.) *)
Definition webtorrent (s : Server) : Server :=
  match _webtorrent s with
  | Some _ => s
  | None => called CallNew (with_webtorrent (Some {| torrents := [] |}) s)
  end.

(** The [torrent] object of [getProgressMessage]. *)
Definition progressFields (torrent : Torrent) : ProgressFields :=
  {| p_progress := ev_progress (view torrent);
     p_downloaded := ev_downloaded (view torrent);
     p_uploaded := ev_uploaded (view torrent);
     p_length := ev_length (view torrent);
     p_downloadSpeed := ev_downloadSpeed (view torrent);
     p_uploadSpeed := ev_uploadSpeed (view torrent);
     p_ratio := ev_ratio (view torrent);
     p_numPeers := ev_numPeers (view torrent);
     p_timeRemaining := ev_timeRemaining (view torrent) |}.

Definition getProgressMessage (torrent : Torrent) (ty : string) : Outbound :=
  torrentMessage ty (TorrentProgress (progressFields torrent)).

Definition sendToTorrentClients (torrent : TorrentRef) (message : Outbound) (s : Server)
  : Server :=
  match heap s !! torrent with
  | Some t => foldl (λ s' client, _send (assignClient message client) s') s (clients t)
  | None => s
  end.

Definition sendToAllClients (message : Outbound) (s : Server) : Server :=
  foldl (λ s' c, _send (assignClientKey message (cl_clientKey c)) s') s (_clients s).

Definition sendError (torrent : option TorrentRef) (e : ErrorFields) (ty : string)
  (s : Server) : Server :=
  let message := errorMessage ty e in
  match torrent with
  | Some r => sendToTorrentClients r message s
  | None => sendToAllClients message s
  end.

Definition sendProgress (torrent : TorrentRef) (ty : string) (s : Server) : Server :=
  match heap s !! torrent with
  | Some t => sendToTorrentClients torrent (getProgressMessage t ty) s
  | None => s
  end.

Definition hasTorrentKey (torrent : Torrent) (tk : option string) : bool :=
  existsb (λ c, bool_decide (c_torrentKey c = tk)) (clients torrent).

(** [torrents.find((t) => hasTorrentKey(t, torrentKey))] over references *)
Definition findByKey (tk : option string) (s : Server) (l : list TorrentRef)
  : option TorrentRef :=
  List.find (λ r, match heap s !! r with
                  | Some t => hasTorrentKey t tk
                  | None => false
                  end) l.

(** [torrents.find((t) => t.infoHash === infohash)] over references *)
Definition findByInfoHash (infohash : string) (s : Server) (l : list TorrentRef)
  : option TorrentRef :=
  List.find (λ r, match heap s !! r with
                  | Some t => bool_decide (infoHash t = infohash)
                  | None => false
                  end) l.

Definition handleHeartbeat (now : Z) (message : Message) (s : Server) : Server :=
  match getClient (clientKey message) s with
  | None => log (ErrUnknownClient (clientKey message)) s
  | Some _ =>
      with__clients
        (map (λ c, if bool_decide (cl_clientKey c = clientKey message)
                   then {| cl_clientKey := cl_clientKey c; heartbeat := now |}
                   else c) (_clients s)) s
  end.

(** The events the engine raises on a torrent, and on the instance. *)
Inductive TorrentEvent :=
  | OnInfohash | OnMetadata | OnDownload | OnUpload | OnDone
  | OnWarning (e : ErrorFields) | OnError (e : ErrorFields).

Inductive EngineEvent :=
  | OnEngineWarning (e : ErrorFields) | OnEngineError (e : ErrorFields).

(** [addWebTorrentEvents]: the two listeners on the instance. *)
Definition onEngineEvent (ev : EngineEvent) (s : Server) : Server :=
  match ev with
  | OnEngineWarning e => sendError None e "warning" s
  | OnEngineError e => sendError None e "error" s
  end.

(** ['missing torrentKey: ' + torrentKey] and the like *)
Definition showKey (tk : option string) : string :=
  match tk with
  | Some k => k
  | None => "undefined"
  end.

(** [!t.destroyed] for the torrent behind a reference. *)
Definition isLive (s : Server) (r : TorrentRef) : bool :=
  match heap s !! r with
  | Some t => negb (destroyed t)
  | None => false
  end.

(** A timer that fired is no longer pending. *)
Fixpoint removeTimer (ck : string) (l : list string) : list string :=
  match l with
  | [] => []
  | x :: l' => if bool_decide (x = ck) then l' else x :: removeTimer ck l'
  end.

(** ** [src/unnamed/part_000] *)

Module Part000.
Section WithParser.
Context {parser : Parser}.

(** The [torrent] object of [getInfoMessage]; [torrent.files || []]. *)
Definition infoFields (torrent : Torrent) : InfoFields :=
  {| i_key := None;
     i_name := ev_name (view torrent);
     i_infohash := infoHash torrent;
     i_length := ev_length (view torrent);
     i_serverURL := serverURL torrent;
     i_files := default [] (ev_files (view torrent)) |}.

Definition getInfoMessage (torrent : Torrent) (ty : string) : Outbound :=
  torrentMessage ty (TorrentInfo (infoFields torrent)).

Definition sendInfo (torrent : TorrentRef) (ty : string) (s : Server) : Server :=
  match heap s !! torrent with
  | Some t => sendToTorrentClients torrent (getInfoMessage t ty) s
  | None => s
  end.

(** [addTorrentEvents]: the seven listeners on a torrent. *)
Definition onTorrentEvent (torrent : TorrentRef) (ev : TorrentEvent) (s : Server) : Server :=
  match ev with
  | OnInfohash => sendInfo torrent "infohash" s
  | OnMetadata => sendInfo torrent "metadata" s
  | OnDownload => sendProgress torrent "download" s
  | OnUpload => sendProgress torrent "upload" s
  | OnDone => sendProgress torrent "done" s
  | OnWarning e => sendError (Some torrent) e "warning" s
  | OnError e => sendError (Some torrent) e "error" s
  end.

(** Emits the 'torrent-subscribed' event. [Object.assign(infoMessage.torrent,
    progressMessage.torrent)] holds the fields of both. *)
Definition sendSubscribed (torrent : option TorrentRef) (ck : string) (tk : option string)
  (s : Server) : Server :=
  let payload :=
    match torrent ≫= (λ r, heap s !! r) with
    | Some t => TorrentInfoProgress (infoFields t) (progressFields t)
    | None => TorrentNull
    end in
  _send {| o_type := "torrent-subscribed"; o_torrent := payload; o_error := None;
           o_serverURL := None; o_clientKey := Some ck; o_torrentKey := tk |} s.

Definition handleSubscribe (message : Message) (s : Server) : Result * Server :=
  let ck := clientKey message in
  let tk := torrentKey message in
  match parseTorrent (torrentID message) with
  | None => (Thrown "Invalid torrent identifier", s)
  | Some infohash =>
      (* wt && wt.torrents.find(..) *)
      let torrent := findByInfoHash infohash s (wtTorrents s) in
      let s1 := match torrent with
                | Some r => updTorrent r (push_client {| c_clientKey := ck; c_torrentKey := tk |}) s
                | None => s
                end in
      (Returned, sendSubscribed torrent ck tk s1)
  end.

(** Calling a queued closure. *)
Definition callCallback (cb : Callback) (s : Server) : Server :=
  match cb with
  | Respond r ck tk => sendSubscribed (Some r) ck tk s
  | ServerReady r ck tk =>
      _send (serverReady ck tk ((heap s !! r) ≫= serverURL)) s
  end.

Definition createServer (torrent : TorrentRef) (callback : Callback) (s : Server) : Server :=
  match heap s !! torrent with
  | Some t =>
      match serverURL t with
      | Some _ => callCallback callback s
      | None =>
          match pendingServerCallbacks t with
          | Some cbs =>
              updTorrent torrent (with_pendingServerCallbacks (Some (cbs ++ [callback]))) s
          | None =>
              called (CallListen torrent)
                (called (CallCreateServer torrent)
                   (updTorrent torrent (with_pendingServerCallbacks (Some [callback])) s))
          end
      end
  | None => s
  end.

(** The function handed to [torrent.server.listen]; [port] is
    [torrent.server.address().port] in decimal. It is pending exactly
    while [pendingServerCallbacks] is set. *)
Definition onListening (torrent : TorrentRef) (port : string) (s : Server) : Server :=
  match heap s !! torrent ≫= pendingServerCallbacks with
  | Some cbs =>
      let s1 := updTorrent torrent (with_serverURL (Some ("http://localhost:" +:+ port))) s in
      let s2 := foldl (λ s' cb, callCallback cb s') s1 cbs in
      updTorrent torrent (with_pendingServerCallbacks None) s2
  | None => s
  end.

Definition handleAddTorrent (message : Message) (s : Server) : Result * Server :=
  let s1 := webtorrent s in
  match parseTorrent (torrentID message) with
  | None => (Thrown "Invalid torrent identifier", s1)
  | Some infohash =>
      let '(torrent, s2) :=
        match findByInfoHash infohash s1 (wtTorrents s1) with
        | Some r => (r, s1)
        | None =>
            let '(r, s') := engineAdd (torrentID message) infohash
                              (traceLog (LogJoiningSwarm infohash) s1) in
            (r, with_torrents (_torrents s' ++ [r]) (updTorrent r (with_clients []) s'))
        end in
      let ck := clientKey message in
      let tk := torrentKey message in
      let s3 := updTorrent torrent (push_client {| c_clientKey := ck; c_torrentKey := tk |}) s2 in
      match options message with
      | None => (Thrown "TypeError: Cannot read property 'server' of undefined", s3)
      | Some o =>
          if opt_server o then (Returned, createServer torrent (Respond torrent ck tk) s3)
          else (Returned, callCallback (Respond torrent ck tk) s3)
      end
  end.

Definition getTorrentByKey (tk : option string) (s : Server) : option TorrentRef * Server :=
  let s1 := webtorrent s in
  match findByKey tk s1 (wtTorrents s1) with
  | Some r => (Some r, s1)
  | None =>
      let message := "missing torrentKey: " +:+ showKey tk in
      (None, sendError None {| e_message := Str message; e_stack := Undefined |} "warning" s1)
  end.

Definition handleCreateServer (message : Message) (s : Server) : Server :=
  let ck := clientKey message in
  let tk := torrentKey message in
  match getTorrentByKey tk s with
  | (None, s1) => s1
  | (Some torrent, s1) => createServer torrent (ServerReady torrent ck tk) s1
  end.

(** One turn of the [forEach] of [killClients] over [server._torrents]. *)
Definition killTorrentClients (clientKeys : list string) (s : Server) (torrent : TorrentRef)
  : Server :=
  let s1 := updTorrent torrent
              (λ t, with_clients (filter (λ c, c_clientKey c ∉ clientKeys) (clients t)) t) s in
  match heap s1 !! torrent with
  | Some t =>
      if bool_decide (clients t = []) then
        traceLog (LogTorrentDestroyed torrent) (torrentDestroy torrent s1)
      else s1
  | None => s1
  end.

Definition killClients (clientKeys : list string) (s : Server) : Server :=
  match clientKeys with
  | [] => s
  | _ =>
      (* Remove clients *)
      let s1 := foldl (λ s' ck, deleteClient ck s') s clientKeys in
      (* Remove clients from torrents; a torrent with no clients left is killed *)
      let s2 := foldl (killTorrentClients clientKeys) s1 (_torrents s1) in
      (* Remove torrents; if the last torrent is gone, kill the instance *)
      let s3 := with_torrents (filter (λ r, isLive s2 r) (_torrents s2)) s2 in
      match _torrents s3, _webtorrent s3 with
      | [], Some _ =>
          traceLog LogInstanceDestroyed (with_webtorrent None (engineDestroy s3))
      | _, _ => s3
      end
  end.

Definition removeDeadClients (now heartbeatTimeout : Z) (s : Server) : Server :=
  let dead := filter (λ c, ¬ (now - heartbeat c ≤ heartbeatTimeout)) (_clients s) in
  let s1 := foldl (λ s' c, traceLog (LogClientDied (cl_clientKey c)) s') s dead in
  killClients (map cl_clientKey dead) s1.

Definition sendUpdates (now : Z) (s : Server) : Server :=
  let heartbeatTimeout :=
    match heartbeatTimeout (_options s) with
    | None => 30000
    | Some t => t
    end in
  let s1 := if 0 <? heartbeatTimeout then removeDeadClients now heartbeatTimeout s else s in
  foldl (λ s' torrent, sendProgress torrent "update" s') s1 (_torrents s1).

(** Removes a client from all torrents, at once or after [options.delay]. *)
Definition handleDestroy (message : Message) (s : Server) : Server :=
  let ck := clientKey message in
  let s1 := traceLog (LogDestroyingClient ck) s in
  match options message ≫= opt_delay with
  | Some d => if bool_decide (d = 0) then killClients [ck] s1
              else with_timers (timers s1 ++ [ck]) s1
  | None => killClients [ck] s1
  end.

(** The first statement of [receive]: the entry of the sender is created
    when its key is not known yet. *)
Definition touchClient (now : Z) (message : Message) (s : Server) : Server :=
  let ck := clientKey message in
  match getClient ck s with
  | Some _ => s
  | None =>
      let s1 := traceLog (LogAddingClient ck) s in
      with__clients (_clients s1 ++ [{| cl_clientKey := ck; heartbeat := now |}]) s1
  end.

Definition receive (now : Z) (message : Message) (s : Server) : Result * Server :=
  let s1 := touchClient now message s in
  let ty := type message in
  if bool_decide (ty = "subscribe") then handleSubscribe message s1
  else if bool_decide (ty = "add-torrent") then handleAddTorrent message s1
  else if bool_decide (ty = "create-server") then (Returned, handleCreateServer message s1)
  else if bool_decide (ty = "heartbeat") then (Returned, handleHeartbeat now message s1)
  else if bool_decide (ty = "destroy") then (Returned, handleDestroy message s1)
  else (Returned, log (ErrUnknownType message) s1).

(** The [kill] closure of [handleDestroy], fired by its timer. *)
Definition onTimeout (ck : string) (s : Server) : Server :=
  if bool_decide (ck ∈ timers s) then
    killClients [ck] (with_timers (removeTimer ck (timers s)) s)
  else s.

End WithParser.
End Part000.

(** ** [src/server.js] *)

Module ServerJs.
Section WithParser.
Context {parser : Parser}.

(** The [torrent] object of [getInfoMessage]; [torrent.files || []]. *)
Definition infoFields (torrent : Torrent) : InfoFields :=
  {| i_key := Some (ev_key (view torrent));
     i_name := ev_name (view torrent);
     i_infohash := infoHash torrent;
     i_length := ev_length (view torrent);
     i_serverURL := serverURL torrent;
     i_files := default [] (ev_files (view torrent)) |}.

Definition getInfoMessage (torrent : Torrent) (ty : string) : Outbound :=
  torrentMessage ty (TorrentInfo (infoFields torrent)).

Definition sendInfo (torrent : TorrentRef) (ty : string) (s : Server) : Server :=
  match heap s !! torrent with
  | Some t => sendToTorrentClients torrent (getInfoMessage t ty) s
  | None => s
  end.

(** [addTorrentEvents]: the seven listeners on a torrent. *)
Definition onTorrentEvent (torrent : TorrentRef) (ev : TorrentEvent) (s : Server) : Server :=
  match ev with
  | OnInfohash => sendInfo torrent "infohash" s
  | OnMetadata => sendInfo torrent "metadata" s
  | OnDownload => sendProgress torrent "download" s
  | OnUpload => sendProgress torrent "upload" s
  | OnDone => sendProgress torrent "done" s
  | OnWarning e => sendError (Some torrent) e "warning" s
  | OnError e => sendError (Some torrent) e "error" s
  end.

(** Subscribe this client to future updates for this swarm. *)
Definition addClient (torrent : TorrentRef) (ck : string) (tk : option string) (s : Server)
  : Server :=
  updTorrent torrent (push_client {| c_clientKey := ck; c_torrentKey := tk |}) s.

(** [Object.assign(message, {clientKey, torrentKey})] *)
Definition withKeys (message : Outbound) (ck : string) (tk : option string) : Outbound :=
  assignClient message {| c_clientKey := ck; c_torrentKey := tk |}.

Definition handleSubscribe (message : Message) (s : Server) : Result * Server :=
  let ck := clientKey message in
  let tk := torrentKey message in
  let response := withKeys (torrentMessage "torrent-subscribed" TorrentNull) ck tk in
  match parseTorrent (torrentID message) with
  | None => (Thrown "Invalid torrent identifier", s)
  | Some infohash =>
      (* wt && wt.torrents.find(..) *)
      match findByInfoHash infohash s (wtTorrents s) with
      | Some r =>
          let payload :=
            match heap s !! r with
            | Some t => TorrentInfo (infoFields t)
            | None => TorrentNull
            end in
          let response' :=
            {| o_type := o_type response; o_torrent := payload;
               o_error := o_error response; o_serverURL := o_serverURL response;
               o_clientKey := o_clientKey response;
               o_torrentKey := o_torrentKey response |} in
          (Returned, _send response' (addClient r ck tk s))
      | None => (Returned, _send response s)
      end
  end.

Definition handleAddTorrent (message : Message) (s : Server) : Result * Server :=
  let s1 := webtorrent s in
  let ck := clientKey message in
  let tk := torrentKey message in
  match parseTorrent (torrentID message) with
  | None => (Thrown "Invalid torrent identifier", s1)
  | Some infohash =>
      let '(torrent, s2) :=
        match findByInfoHash infohash s1 (wtTorrents s1) with
        | Some r =>
            (* the `infohash` and `metadata` events and a progress update right away *)
            match heap s1 !! r with
            | Some t =>
                let progressType :=
                  if bool_decide (ev_downloaded (view t) = ev_length (view t))
                  then "done" else "update" in
                (r, _send (withKeys (getProgressMessage t progressType) ck tk)
                      (_send (withKeys (getInfoMessage t "metadata") ck tk)
                         (_send (withKeys (getInfoMessage t "infohash") ck tk) s1)))
            | None => (r, s1)
            end
        | None =>
            let '(r, s') := engineAdd (torrentID message) infohash s1 in
            (r, with_torrents (_torrents s' ++ [r]) (updTorrent r (with_clients []) s'))
        end in
      (Returned, addClient torrent ck tk s2)
  end.

Definition getTorrentByKey (tk : option string) (s : Server)
  : (string + TorrentRef) * Server :=
  let s1 := webtorrent s in
  match findByKey tk s1 (wtTorrents s1) with
  | Some r => (inr r, s1)
  | None => (inl ("Missing torrentKey: " +:+ showKey tk), s1)
  end.

Definition handleCreateServer (message : Message) (s : Server) : Result * Server :=
  let ck := clientKey message in
  let tk := torrentKey message in
  match getTorrentByKey tk s with
  | (inl e, s1) => (Thrown e, s1)
  | (inr torrent, s1) =>
      match heap s1 !! torrent with
      | Some t =>
          match serverURL t with
          | Some url => (Returned, _send (serverReady ck tk (Some url)) s1)
          | None =>
              let waiter := {| c_clientKey := ck; c_torrentKey := tk |} in
              match pendingHttpClients t with
              | Some waiters =>
                  (Returned,
                   updTorrent torrent (with_pendingHttpClients (Some (waiters ++ [waiter]))) s1)
              | None =>
                  (Returned,
                   called (CallListen torrent)
                     (called (CallCreateServer torrent)
                        (updTorrent torrent (with_pendingHttpClients (Some [waiter])) s1)))
              end
          end
      | None => (Returned, s1)
      end
  end.

(** The function handed to [torrent.server.listen]; [port] is
    [torrent.server.address().port] in decimal. It is pending exactly
    while [pendingHttpClients] is set. *)
Definition onListening (torrent : TorrentRef) (port : string) (s : Server) : Server :=
  match heap s !! torrent ≫= pendingHttpClients with
  | Some waiters =>
      let url := "http://localhost:" +:+ port in
      let s1 := updTorrent torrent (with_serverURL (Some url)) s in
      let s2 := foldl (λ s' w, _send (serverReady (c_clientKey w) (c_torrentKey w) (Some url)) s')
                  s1 waiters in
      updTorrent torrent (with_pendingHttpClients None) s2
  | None => s
  end.

(** One turn of the [forEach] of [removeDeadClients] over [server._torrents]. *)
Definition killTorrentClients (deadClientKeys : list string) (s : Server)
  (torrent : TorrentRef) : Server :=
  let s1 := updTorrent torrent
              (λ t, with_clients (filter (λ c, c_clientKey c ∉ deadClientKeys) (clients t)) t)
              s in
  match heap s1 !! torrent with
  | Some t =>
      if bool_decide (clients t = []) then
        log (LogTorrentDestroyed torrent) (torrentDestroy torrent s1)
      else s1
  | None => s1
  end.

Definition removeDeadClients (now heartbeatTimeout : Z) (s : Server) : Server :=
  let isDead := λ client, now - heartbeat client > heartbeatTimeout in
  let dead := filter isDead (_clients s) in
  let deadClientKeys := map cl_clientKey dead in
  let s1 := foldl (λ s' c, deleteClient (cl_clientKey c) (log (LogClientDied (cl_clientKey c)) s'))
              s dead in
  match deadClientKeys with
  | [] => s1
  | _ =>
      (* Remove listeners from torrents; a torrent with no listeners left is killed *)
      let s2 := foldl (killTorrentClients deadClientKeys) s1 (_torrents s1) in
      (* Remove torrents. If the last torrent is gone, kill the client *)
      let s3 := with_torrents (filter (λ r, isLive s2 r) (_torrents s2)) s2 in
      match _torrents s3, _webtorrent s3 with
      | [], Some _ => log LogInstanceDestroyed (with_webtorrent None (engineDestroy s3))
      | _, _ => s3
      end
  end.

Definition sendUpdates (now : Z) (s : Server) : Server :=
  let s1 :=
    match heartbeatTimeout (_options s) with
    | Some t => if bool_decide (t > 0) then removeDeadClients now t s else s
    | None => s                     (* undefined > 0 is false *)
    end in
  foldl (λ s' torrent, sendProgress torrent "update" s') s1 (_torrents s1).

(** The first statement of [receive]: the entry of the sender is created
    when its key is not known yet. *)
Definition touchClient (now : Z) (message : Message) (s : Server) : Server :=
  let ck := clientKey message in
  match getClient ck s with
  | Some _ => s
  | None => with__clients (_clients s ++ [{| cl_clientKey := ck; heartbeat := now |}]) s
  end.

Definition receive (now : Z) (message : Message) (s : Server) : Result * Server :=
  let s1 := touchClient now message s in
  let ty := type message in
  if bool_decide (ty = "subscribe") then handleSubscribe message s1
  else if bool_decide (ty = "add-torrent") then handleAddTorrent message s1
  else if bool_decide (ty = "create-server") then handleCreateServer message s1
  else if bool_decide (ty = "heartbeat") then (Returned, handleHeartbeat now message s1)
  else (Returned, log (ErrUnknownType message) s1).

End WithParser.
End ServerJs.

(** ** Runs of the broker *)

(** What can happen to a server: a message arrives, the update timer
    ticks, a pending [listen] completes, the timer of a delayed destroy
    fires, the engine raises an event, or the engine changes the numbers
    it reports for a torrent. The engine destroys a torrent only when the
    broker asks for it. *)
Inductive Event :=
  | EvReceive (now : Z) (message : Message)
  | EvTick (now : Z)
  | EvListening (torrent : TorrentRef) (port : string)
  | EvTimeout (ck : string)
  | EvTorrent (torrent : TorrentRef) (ev : TorrentEvent)
  | EvEngine (ev : EngineEvent)
  | EvView (torrent : TorrentRef) (v : EngineView).

Section Runs.
Context {parser : Parser}.

Definition stepPart000 (e : Event) (s : Server) : Server :=
  match e with
  | EvReceive now message => (Part000.receive now message s).2
  | EvTick now => Part000.sendUpdates now s
  | EvListening r port => Part000.onListening r port s
  | EvTimeout ck => Part000.onTimeout ck s
  | EvTorrent r ev => Part000.onTorrentEvent r ev s
  | EvEngine ev =>
      match _webtorrent s with
      | Some _ => onEngineEvent ev s
      | None => s
      end
  | EvView r v => updTorrent r (with_view v) s
  end.

Definition stepServerJs (e : Event) (s : Server) : Server :=
  match e with
  | EvReceive now message => (ServerJs.receive now message s).2
  | EvTick now => ServerJs.sendUpdates now s
  | EvListening r port => ServerJs.onListening r port s
  | EvTimeout ck => s
  | EvTorrent r ev => ServerJs.onTorrentEvent r ev s
  | EvEngine ev =>
      match _webtorrent s with
      | Some _ => onEngineEvent ev s
      | None => s
      end
  | EvView r v => updTorrent r (with_view v) s
  end.

(** The servers a run can reach from a freshly constructed one. *)
Inductive reachable (step : Event → Server → Server) : Server → Prop :=
  | reachable_new (opts : ServerOptions) : reachable step (newServer opts)
  | reachable_step (e : Event) (s : Server) :
      reachable step s → reachable step (step e s).

(** The server after a list of events, oldest first. *)
Definition run (step : Event → Server → Server) (es : list Event) (s : Server) : Server :=
  foldl (λ s' e, step e s') s es.

End Runs.

(** ** Auxiliary notions for the statements *)

(** The server after a batch of messages went out through [_send]. *)
Definition sendAll (ms : list Outbound) (s : Server) : Server :=
  {| _options := _options s; _webtorrent := _webtorrent s; _clients := _clients s;
     _torrents := _torrents s; heap := heap s; sent := sent s ++ ms;
     console := console s; calls := calls s; timers := timers s |}.

(** The subscriptions of the torrent object behind a reference. *)
Definition clientsOf (r : TorrentRef) (s : Server) : list Subscription :=
  match heap s !! r with
  | Some t => clients t
  | None => []
  end.

(** Everything of the server is the same, and no call went to the engine;
    only [sent] and [console] may have grown. *)
Definition sameState (s s' : Server) : Prop :=
  _options s' = _options s ∧ _webtorrent s' = _webtorrent s
  ∧ _clients s' = _clients s ∧ _torrents s' = _torrents s
  ∧ heap s' = heap s ∧ timers s' = timers s ∧ calls s' = calls s.

(** The subscriptions that are left when the clients [keys] are gone. *)
Definition pruned (keys : list string) (cs : list Subscription) : list Subscription :=
  filter (λ c, c_clientKey c ∉ keys) cs.

(** A torrent object after the teardown of the clients [keys] has visited
    it: its subscriptions are pruned, and it is destroyed when none is left. *)
Definition killT (keys : list string) (t : Torrent) : Torrent :=
  with_destroyed (destroyed t || bool_decide (pruned keys (clients t) = []))
    (with_clients (pruned keys (clients t)) t).

(** The torrent behind [r] is alive and loses its last subscription. *)
Definition dies (keys : list string) (s : Server) (r : TorrentRef) : bool :=
  match heap s !! r with
  | Some t => negb (destroyed t) && bool_decide (pruned keys (clients t) = [])
  | None => false
  end.

(** The engine's list without [r]. *)
Definition unlist (r : TorrentRef) (w : WebTorrent) : WebTorrent :=
  {| torrents := filter (λ r', r' ≠ r) (torrents w) |}.

(** The fingerprint of the torrent behind a reference. *)
Definition infoHashOf (s : Server) (r : TorrentRef) : option string :=
  infoHash <$> heap s !! r.

(** The client keys of the registry, in order. *)
Definition clientKeys (s : Server) : list string := map cl_clientKey (_clients s).

(** What one turn of the loop over [server._torrents] does. *)
Definition turnSpec (keys : list string) (step : Server → TorrentRef → Server) : Prop :=
  ∀ s r,
    _options (step s r) = _options s
    ∧ _clients (step s r) = _clients s
    ∧ _torrents (step s r) = _torrents s
    ∧ timers (step s r) = timers s
    ∧ sent (step s r) = sent s
    ∧ heap (step s r) = alter (killT keys) r (heap s)
    ∧ _webtorrent (step s r)
      = (if dies keys s r then unlist r <$> _webtorrent s else _webtorrent s)
    ∧ calls (step s r)
      = calls s ++ (if dies keys s r then [CallTorrentDestroy r] else []).

(** The part that [killClients] of part_000 and [removeDeadClients] of
    server.js have in common, after the clients are deleted: the loop
    over [server._torrents] with its turn [step], the filter of the
    registry, and the end of the instance, which is reported by [lg]. *)
Definition cascade (step : Server → TorrentRef → Server) (lg : Server → Server)
  (s1 : Server) : Server :=
  let s2 := foldl step s1 (_torrents s1) in
  let s3 := with_torrents (filter (λ r, isLive s2 r) (_torrents s2)) s2 in
  match _torrents s3, _webtorrent s3 with
  | [], Some _ => lg (with_webtorrent None (engineDestroy s3))
  | _, _ => s3
  end.

(** The torrent behind [r] is alive and keeps a subscription. *)
Definition survives (keys : list string) (s : Server) (r : TorrentRef) : bool :=
  match heap s !! r with
  | Some t => negb (destroyed t) && negb (bool_decide (pruned keys (clients t) = []))
  | None => false
  end.

(** [s'] is [s] after the teardown of the clients [keys]: options, timers
    and sent messages are as before; the entries of [keys] are gone from
    the client registry; the registry of torrents keeps the torrents that
    are alive and keep a subscription; every registered torrent has lost
    the subscriptions of [keys] and is destroyed when none is left; the
    engine reference is [null] when the registry ends empty, and is the
    old instance without the destroyed torrents otherwise; and the calls
    made to the engine are [torrent.destroy()] for exactly the registered
    torrents that were alive and lost their last subscription, and
    [wt.destroy()] exactly when the registry ends empty and there was an
    instance. *)
Definition teardown (keys : list string) (s s' : Server) : Prop :=
  _options s' = _options s ∧ timers s' = timers s ∧ sent s' = sent s
  ∧ _clients s' = filter (λ c, cl_clientKey c ∉ keys) (_clients s)
  ∧ _torrents s' = filter (λ r, survives keys s r) (_torrents s)
  ∧ (∀ r t, r ∈ _torrents s → heap s !! r = Some t →
       ∃ t', heap s' !! r = Some t'
             ∧ clients t' = pruned keys (clients t)
             ∧ infoHash t' = infoHash t
             ∧ destroyed t' = destroyed t || bool_decide (pruned keys (clients t) = []))
  ∧ (_torrents s' = [] → _webtorrent s' = None)
  ∧ (_torrents s' ≠ [] →
       _webtorrent s'
       = (λ w, {| torrents := filter (λ r, ¬ (r ∈ _torrents s ∧ dies keys s r)) (torrents w) |})
           <$> _webtorrent s)
  ∧ ∃ cs, calls s' = calls s ++ cs
          ∧ (∀ r, CallTorrentDestroy r ∈ cs ↔ r ∈ _torrents s ∧ dies keys s r)
          ∧ (CallDestroy ∈ cs ↔ _torrents s' = [] ∧ is_Some (_webtorrent s))
          ∧ (∀ c, c ∈ cs → c = CallDestroy ∨ ∃ r, c = CallTorrentDestroy r).

(** The part of the object store that the engine decides: fingerprint and
    [destroyed] flag of every torrent object. *)
Definition skeleton (s : Server) : list (string * bool) :=
  map (λ t, (infoHash t, destroyed t)) (heap s).

(** A function on torrent objects that leaves fingerprint and flag alone. *)
Definition keepsSkeleton (f : Torrent → Torrent) : Prop :=
  ∀ t, infoHash (f t) = infoHash t ∧ destroyed (f t) = destroyed t.

(** [s'] has the options, clients and timers of [s]. *)
Definition keepsClients (s s' : Server) : Prop :=
  _options s' = _options s ∧ _clients s' = _clients s ∧ timers s' = timers s.

(** The calls [wt.add(..)] made so far: the engine-level joins. *)
Definition isJoin (c : EngineCall) : Prop :=
  match c with
  | CallAdd _ _ => True
  | _ => False
  end.

#[global] Instance isJoin_dec c : Decision (isJoin c).
Proof. destruct c; simpl; apply _. Defined.

Definition joins (s : Server) : list EngineCall := filter isJoin (calls s).

(** [s'] differs from [s] at most in what torrents carry (subscriptions,
    waiters, server URL, reported numbers), in the logs, and in an engine
    instance with no torrent that was created; no join was made. *)
Definition quiet (s s' : Server) : Prop :=
  keepsClients s s'
  ∧ _torrents s' = _torrents s ∧ wtTorrents s' = wtTorrents s
  ∧ skeleton s' = skeleton s ∧ joins s' = joins s.

(** What [receive] leaves behind for a message whose type it does not know:
    it returns; nothing is sent and the engine is not called; engine
    reference, registry of torrents, torrent objects and timers are as
    before; the diagnostic is the last line on the console; and the
    client registry is as before for a known sender, and has the new entry
    of the sender appended otherwise. *)
Definition ignoredOutcome (now : Z) (m : Message) (s : Server) (res : Result * Server) : Prop :=
  let s' := res.2 in
  res.1 = Returned
  ∧ sent s' = sent s ∧ calls s' = calls s
  ∧ _options s' = _options s ∧ _webtorrent s' = _webtorrent s
  ∧ _torrents s' = _torrents s ∧ heap s' = heap s ∧ timers s' = timers s
  ∧ last (console s') = Some (ErrUnknownType m)
  ∧ (∀ c, getClient (clientKey m) s = Some c → _clients s' = _clients s)
  ∧ (getClient (clientKey m) s = None →
       _clients s' = _clients s ++ [{| cl_clientKey := clientKey m; heartbeat := now |}]).

(** The invariant of the runs: the registry [server._torrents] is the
    engine's list of torrents; no torrent is registered twice; every
    registered torrent is alive; and no two registered torrents have the
    same fingerprint. *)
Definition Inv (s : Server) : Prop :=
  wtTorrents s = _torrents s
  ∧ NoDup (_torrents s)
  ∧ (∀ r, r ∈ _torrents s → ∃ h, skeleton s !! r = Some (h, false))
  ∧ (∀ r1 r2, r1 ∈ _torrents s → r2 ∈ _torrents s →
       infoHashOf s r1 = infoHashOf s r2 → r1 = r2).

(** No torrent object has gained or lost a subscription. *)
Definition keepsSubs (s s' : Server) : Prop :=
  ∀ r, clientsOf r s' = clientsOf r s.

(** A function on torrent objects that leaves the subscriptions alone. *)
Definition keepsClientsOfTorrent (f : Torrent → Torrent) : Prop :=
  ∀ t, clients (f t) = clients t.

(** What [handleAddTorrent] does to a server, by the two branches. *)
Definition addOutcome (h : string) (m : Message) (s s' : Server) : Prop :=
  let sub := {| c_clientKey := clientKey m; c_torrentKey := torrentKey m |} in
  match findByInfoHash h s (wtTorrents s) with
  | Some r =>
      quiet s s'
      ∧ clientsOf r s' = clientsOf r s ++ [sub]
      ∧ (∀ r', r' ≠ r → clientsOf r' s' = clientsOf r' s)
  | None =>
      let r := length (heap s) in
      keepsClients s s'
      ∧ _torrents s' = _torrents s ++ [r]
      ∧ wtTorrents s' = wtTorrents s ++ [r]
      ∧ skeleton s' = skeleton s ++ [(h, false)]
      ∧ joins s' = joins s ++ [CallAdd (torrentID m) r]
      ∧ clientsOf r s' = [sub]
      ∧ (∀ r', r' ≠ r → clientsOf r' s' = clientsOf r' s)
  end.

(** At most one registered swarm per fingerprint. *)
Definition oneSwarmPerInfoHash (s : Server) : Prop :=
  NoDup (_torrents s)
  ∧ ∀ r1 r2, r1 ∈ _torrents s → r2 ∈ _torrents s →
      infoHashOf s r1 = infoHashOf s r2 → r1 = r2.

(** [s'] is [s] after an add-torrent message [m] whose identifier parses
    to the fingerprint [h] was handled: when a registered swarm [r] has the
    fingerprint, the registry is as before, no join was made, and [r] has
    the one new subscription of the sender at the end of its list; when no
    registered swarm has it, the engine was asked to join exactly once, the
    new swarm is registered last, has the fingerprint, and has the
    subscription of the sender as its only one. The subscriptions of all
    other swarms are as before. *)
Definition joinOrAttach (h : string) (m : Message) (s s' : Server) : Prop :=
  let sub := {| c_clientKey := clientKey m; c_torrentKey := torrentKey m |} in
  (∀ r, r ∈ _torrents s → infoHashOf s r = Some h →
     _torrents s' = _torrents s ∧ joins s' = joins s
     ∧ clientsOf r s' = clientsOf r s ++ [sub]
     ∧ ∀ r', r' ≠ r → clientsOf r' s' = clientsOf r' s)
  ∧ ((∀ r, r ∈ _torrents s → infoHashOf s r ≠ Some h) →
     ∃ r, (r ∉ _torrents s) ∧ _torrents s' = _torrents s ++ [r]
          ∧ joins s' = joins s ++ [CallAdd (torrentID m) r]
          ∧ infoHashOf s' r = Some h
          ∧ clientsOf r s' = [sub]
          ∧ ∀ r', r' ≠ r → clientsOf r' s' = clientsOf r' s).

(** Some subscription of the torrent behind [r] carries the key [tk]. *)
Definition carries (tk : option string) (s : Server) (r : TorrentRef) : Prop :=
  ∃ c, c ∈ clientsOf r s ∧ c_torrentKey c = tk.

(** Some subscription of some registered swarm carries the key [tk]. *)
Definition registeredKey (tk : option string) (s : Server) : Prop :=
  ∃ r, r ∈ _torrents s ∧ carries tk s r.

(** Some subscription of some registered swarm carries the key [tk] and
    belongs to a client that is not among [keys]. *)
Definition keyOutlives (keys : list string) (tk : option string) (s : Server) : Prop :=
  ∃ r c, r ∈ _torrents s ∧ c ∈ clientsOf r s
         ∧ c_torrentKey c = tk ∧ c_clientKey c ∉ keys.

(** The warning of [getTorrentByKey] in part_000, before it is addressed. *)
Definition missingKeyWarning (tk : option string) : Outbound :=
  errorMessage "warning"
    {| e_message := Str ("missing torrentKey: " +:+ showKey tk); e_stack := Undefined |}.

(** What part_000 leaves behind for a create-server message [m] whose
    torrentKey is not located, where [s1] is the server as [receive]
    passes it to the handler: the call returns; the warning went to every
    known client, in the order of the registry, and nothing else was sent;
    clients, registry of torrents, torrent objects and timers are as
    before the handler; and there is an engine instance, the old one or a
    new one with no torrent. *)
Definition warnedOutcome (m : Message) (s s1 : Server) (res : Result * Server) : Prop :=
  let s' := res.2 in
  res.1 = Returned
  ∧ sent s' = sent s
            ++ map (λ c, assignClientKey (missingKeyWarning (torrentKey m)) (cl_clientKey c))
                 (_clients s1)
  ∧ clientKey m ∈ clientKeys s1
  ∧ _clients s' = _clients s1 ∧ _torrents s' = _torrents s
  ∧ heap s' = heap s ∧ timers s' = timers s
  ∧ _webtorrent s' = Some (default {| torrents := [] |} (_webtorrent s)).

(** What server.js leaves behind in the same case: the lookup throws out
    of [receive]; nothing is sent; clients are as [receive] registered
    them, torrents and timers are as before; and there is an engine
    instance, the old one or a new one with no torrent. *)
Definition thrownOutcome (m : Message) (s s1 : Server) (res : Result * Server) : Prop :=
  let s' := res.2 in
  res.1 = Thrown ("Missing torrentKey: " +:+ showKey (torrentKey m))
  ∧ sent s' = sent s
  ∧ _clients s' = _clients s1 ∧ _torrents s' = _torrents s
  ∧ heap s' = heap s ∧ timers s' = timers s
  ∧ _webtorrent s' = Some (default {| torrents := [] |} (_webtorrent s)).

(** A create-server message that the lookup of the source resolves to
    the swarm [r]. *)
Definition asksFor (r : TorrentRef) (s : Server) (m : Message) : Prop :=
  type m = "create-server" ∧ findByKey (torrentKey m) s (wtTorrents s) = Some r.

(** The arrivals of a list of messages, each with its time. *)
Definition arrivals (reqs : list (Z * Message)) : list Event :=
  map (λ p, EvReceive p.1 p.2) reqs.

(** The 'server-ready' messages for the senders of [reqs], in order. *)
Definition notifications (url : string) (reqs : list (Z * Message)) : list Outbound :=
  map (λ p, serverReady (clientKey p.2) (torrentKey p.2) (Some url)) reqs.

(** What the source has queued for the senders of [reqs]: closures in
    part_000, key pairs in server.js. *)
Definition waitingCallbacks (r : TorrentRef) (reqs : list (Z * Message)) : list Callback :=
  map (λ p, ServerReady r (clientKey p.2) (torrentKey p.2)) reqs.

Definition waitingClients (reqs : list (Z * Message)) : list Subscription :=
  map (λ p, {| c_clientKey := clientKey p.2; c_torrentKey := torrentKey p.2 |}) reqs.

(** The single-flight property of a step function [step] with [receive]
    as its message handler, for the swarm [r] of the server [s], the
    requests [reqs] and the port the engine's server ends up on: while the
    listen is pending the requests cause one [createServer] and one
    [listen] and no message; its completion sends one 'server-ready' with
    the same URL to each requester, in order, records the URL and clears
    the waiter list ([pending] reads it); and a request that arrives later
    is answered at once with the recorded URL, without a call to the
    engine. *)
Definition singleFlight (step : Event → Server → Server)
  (receive : Z → Message → Server → Result * Server)
  (pending : Torrent → bool)
  (r : TorrentRef) (s : Server) (reqs : list (Z * Message)) (port : string) : Prop :=
  let url := "http://localhost:" +:+ port in
  let sN := run step (arrivals reqs) s in
  let sL := step (EvListening r port) sN in
  calls sN = calls s ++ [CallCreateServer r; CallListen r]
  ∧ sent sN = sent s
  ∧ calls sL = calls sN
  ∧ sent sL = sent s ++ notifications url reqs
  ∧ (∃ t, heap sL !! r = Some t ∧ serverURL t = Some url ∧ pending t = false)
  ∧ ∀ now m, asksFor r s m →
      sent (receive now m sL).2 = sent sL ++ [serverReady (clientKey m) (torrentKey m) (Some url)]
      ∧ calls (receive now m sL).2 = calls sL.

(** ** A parser for the examples *)

Definition isLowerHex (a : ascii) : bool :=
  let n := nat_of_ascii a in
  ((48 <=? n)%nat && (n <=? 57)%nat) || ((97 <=? n)%nat && (n <=? 102)%nat).

(** parse-torrent on the identifiers the examples use: an info hash written
    as 40 lower-case hexadecimal digits parses to itself. This instance
    throws on everything else, as parse-torrent does on an absent
    identifier ("Invalid torrent identifier"). *)
Definition hashParser : Parser :=
  λ torrentID,
    match torrentID with
    | Some id =>
        if bool_decide (String.length id = 40%nat)
           && forallb isLowerHex (list_ascii_of_string id)
        then Some id else None
    | None => None
    end.

Module Examples.

Definition hashX : string := "aaaaaaaaaaaaaaaaaaaaaaaaaaaaaaaaaaaaaaaa".
Definition hashY : string := "bbbbbbbbbbbbbbbbbbbbbbbbbbbbbbbbbbbbbbbb".

Definition defaults : ServerOptions := {| trace := false; heartbeatTimeout := None |}.

Definition msg (ty ck : string) (tk id : option string) (o : option MessageOptions) : Message :=
  {| type := ty; clientKey := ck; torrentKey := tk; torrentID := id; options := o |}.

Definition noOptions : option MessageOptions := Some {| opt_server := false; opt_delay := None |}.
Definition wantServer : option MessageOptions := Some {| opt_server := true; opt_delay := None |}.

Definition withTimeout (t : Z) : ServerOptions :=
  {| trace := false; heartbeatTimeout := Some t |}.

(** Clients "a" and "b" on a server with the given heartbeat timeout. *)
Definition knowsABwith (t : Z) : Server :=
  with__clients [{| cl_clientKey := "a"; heartbeat := 0 |};
                 {| cl_clientKey := "b"; heartbeat := 1000 |}] (newServer (withTimeout t)).

(** A server that knows client "a" since time 0. *)
Definition knowsA : Server :=
  with__clients [{| cl_clientKey := "a"; heartbeat := 0 |}] (newServer defaults).

(** A server that knows clients "a" and "b". *)
Definition knowsAB : Server :=
  with__clients [{| cl_clientKey := "a"; heartbeat := 0 |};
                 {| cl_clientKey := "b"; heartbeat := 1000 |}] (newServer defaults).

Definition addX (ck tk : string) : Message :=
  msg "add-torrent" ck (Some tk) (Some hashX) noOptions.

(** Client "a" has added the torrent X at time 0 (part_000, server.js). *)
Definition afterA_Part000 : Server :=
  @stepPart000 hashParser (EvReceive 0 (addX "a" "k1")) (newServer defaults).

Definition afterA_ServerJs : Server :=
  @stepServerJs hashParser (EvReceive 0 (addX "a" "k1")) (newServer defaults).

(** Both clients have added the torrent X. *)
Definition afterAB_Part000 : Server :=
  @stepPart000 hashParser (EvReceive 1000 (addX "b" "k2")) afterA_Part000.

Definition afterAB_ServerJs : Server :=
  @stepServerJs hashParser (EvReceive 1000 (addX "b" "k2")) afterA_ServerJs.

Definition beat (ck : string) : Message := msg "heartbeat" ck None None None.

Definition createServerMsg (ck tk : string) : Message :=
  msg "create-server" ck (Some tk) None None.

(** Three requests for the server of X: "a", "b", and "a" again. *)
Definition threeRequests : list (Z * Message) :=
  [(2001, createServerMsg "b" "k2"); (2002, createServerMsg "a" "k1")].

Definition firstRequest : Z * Message := (2000, createServerMsg "a" "k1").

(** The torrent X as it is after both clients added it. *)
Definition torrentX : Torrent :=
  {| infoHash := hashX; destroyed := false; view := blankView;
     clients := [{| c_clientKey := "a"; c_torrentKey := Some "k1" |};
                 {| c_clientKey := "b"; c_torrentKey := Some "k2" |}];
     serverURL := None; pendingServerCallbacks := None; pendingHttpClients := None |}.

End Examples.

(** ** Notions for the functions around the handlers *)

(** The name under which an event of a torrent is relayed. *)
Definition eventName (ev : TorrentEvent) : string :=
  match ev with
  | OnInfohash => "infohash"
  | OnMetadata => "metadata"
  | OnDownload => "download"
  | OnUpload => "upload"
  | OnDone => "done"
  | OnWarning _ => "warning"
  | OnError _ => "error"
  end.

(** [message] is what the listener of the event [ev] builds for the torrent
    object [t], before it is addressed: the event's name as type, and the
    info fields, the progress numbers or the error, by the kind of event. *)
Definition relays (info : Torrent → InfoFields) (t : Torrent) (ev : TorrentEvent)
  (message : Outbound) : Prop :=
  o_type message = eventName ev
  ∧ o_serverURL message = None
  ∧ match ev with
    | OnInfohash | OnMetadata =>
        o_torrent message = TorrentInfo (info t) ∧ o_error message = None
    | OnDownload | OnUpload | OnDone =>
        o_torrent message = TorrentProgress (progressFields t) ∧ o_error message = None
    | OnWarning e | OnError e =>
        o_torrent message = NoTorrent ∧ o_error message = Some e
    end.

(** The messages of an event of the engine instance, one per client. *)
Definition engineMessages (ev : EngineEvent) (cs : list Client) : list Outbound :=
  let '(ty, e) := match ev with
                  | OnEngineWarning e => ("warning", e)
                  | OnEngineError e => ("error", e)
                  end in
  map (λ c, {| o_type := ty; o_torrent := NoTorrent; o_error := Some e;
               o_serverURL := None; o_clientKey := Some (cl_clientKey c);
               o_torrentKey := None |}) cs.

(** The 'update' messages of a tick on the server [s]: for every torrent
    of the registry, in order, one progress message per subscription. *)
Definition updatesOf (s : Server) : list Outbound :=
  concat (map (λ r, match heap s !! r with
                    | Some t => map (assignClient (getProgressMessage t "update")) (clients t)
                    | None => []
                    end) (_torrents s)).

(** An observation of the server that the plumbing of the broker leaves
    alone: sending, logging, the waiter list and the server URL of a
    torrent, and the calls that start the HTTP server of a torrent. *)
Definition framed {X : Type} (obs : Server → X) : Prop :=
  (∀ m s, obs (_send m s) = obs s)
  ∧ (∀ d s, obs (log d s) = obs s)
  ∧ (∀ r f s, keepsClientsOfTorrent f → keepsSkeleton f → obs (updTorrent r f s) = obs s)
  ∧ (∀ r s, obs (called (CallCreateServer r) s) = obs s)
  ∧ (∀ r s, obs (called (CallListen r) s) = obs s).

(** The subscription lists of all torrent objects. *)
Definition subscriptions (s : Server) : list (list Subscription) :=
  map clients (heap s).

(** How often the broker has called [new WebTorrent(..)], and [wt.destroy()]. *)
Definition created (s : Server) : nat :=
  length (filter (λ c, c = CallNew) (calls s)).

Definition shutDown (s : Server) : nat :=
  length (filter (λ c, c = CallDestroy) (calls s)).

(** Whether there is an engine instance, and the two counts. *)
Definition engineLife (s : Server) : bool * nat * nat :=
  (bool_decide (is_Some (_webtorrent s)), created s, shutDown s).

(** The broker holds an engine instance exactly when it has created one
    more than it has destroyed. *)
Definition oneInstance (s : Server) : Prop :=
  created s = (shutDown s + (if bool_decide (is_Some (_webtorrent s)) then 1 else 0))%nat.

(** The client registry and the subscriptions fit together: no two entries
    of the registry have the same key; every registered torrent has a
    subscription; every subscription of a registered torrent belongs to a
    client of the registry; and a torrent object outside the registry has
    no subscription and is destroyed. *)
Definition Subscribed (s : Server) : Prop :=
  NoDup (clientKeys s)
  ∧ (∀ r, r ∈ _torrents s → clientsOf r s ≠ [])
  ∧ (∀ r c, r ∈ _torrents s → c ∈ clientsOf r s → c_clientKey c ∈ clientKeys s)
  ∧ (∀ r, r ∉ _torrents s →
       clientsOf r s = [] ∧ ∀ h d, skeleton s !! r = Some (h, d) → d = true).

(** What a teardown leaves alone: a torrent object outside the registry
    keeps its subscriptions, and stays destroyed when it was; no engine
    instance is created; and [wt.destroy()] is called once when the
    registry ends empty and there was an instance, and not at all
    otherwise. *)
Definition teardownRest (s s' : Server) : Prop :=
  (∀ r, r ∉ _torrents s →
     clientsOf r s' = clientsOf r s
     ∧ ∀ h d', skeleton s' !! r = Some (h, d') →
               ∃ d, skeleton s !! r = Some (h, d) ∧ (d = true → d' = true))
  ∧ created s' = created s
  ∧ shutDown s'
    = (shutDown s + (if bool_decide (_torrents s' = [] ∧ is_Some (_webtorrent s))
                     then 1 else 0))%nat.

(** What a torrent object carries besides its subscriptions and the
    [destroyed] flag: its fingerprint, the numbers of the engine, the URL
    of its server and the waiters of a pending listen. *)
Definition carried (t : Torrent)
  : string * EngineView * option string * option (list Callback) * option (list Subscription) :=
  (infoHash t, view t, serverURL t, pendingServerCallbacks t, pendingHttpClients t).

(** The 'server-ready' messages for a list of waiting key pairs. *)
Definition readyFor (url : string) (ws : list Subscription) : list Outbound :=
  map (λ w, serverReady (c_clientKey w) (c_torrentKey w) (Some url)) ws.

(** Every message that went out through [_send] names the client it is
    for. *)
Definition Addressed (s : Server) : Prop :=
  Forall (λ m, is_Some (o_clientKey m)) (sent s).

(** The 'torrent-subscribed' message for the sender of [m], with the
    payload [p]. *)
Definition subscribedAnswer (m : Message) (p : Payload) : Outbound :=
  {| o_type := "torrent-subscribed"; o_torrent := p; o_error := None;
     o_serverURL := None; o_clientKey := Some (clientKey m);
     o_torrentKey := torrentKey m |}.

(** The subscription that the sender of [m] asks for. *)
Definition subscriptionOf (m : Message) : Subscription :=
  {| c_clientKey := clientKey m; c_torrentKey := torrentKey m |}.

(** The end of [handleAddTorrent] of part_000, from [var respond] on:
    the answer is sent at once, or by [createServer] when the message asks
    for a server. *)
Definition respondOrServe (m : Message) (torrent : TorrentRef) (s3 : Server)
  : Result * Server :=
  match options m with
  | None => (Thrown "TypeError: Cannot read property 'server' of undefined", s3)
  | Some o =>
      if opt_server o
      then (Returned,
            Part000.createServer torrent (Respond torrent (clientKey m) (torrentKey m)) s3)
      else (Returned,
            Part000.callCallback (Respond torrent (clientKey m) (torrentKey m)) s3)
  end.

(** ** More servers for the examples *)

Module Scenes.

(** Client "a" added the torrent X at time 0 and was not heard of again:
    the tick at 40000 expired it, with the default timeout (part_000). *)
Definition sweptA : Server :=
  @stepPart000 hashParser (EvTick 40000) Examples.afterA_Part000.

(** Both clients have added X, and "a" has sent a heartbeat at 29000
    (part_000). *)
Definition beatenA : Server :=
  @stepPart000 hashParser (EvReceive 29000 (Examples.beat "a")) Examples.afterAB_Part000.

(** The update that goes to the subscription of "a". *)
Definition updateForA : Outbound :=
  assignClient (getProgressMessage Examples.torrentX "update")
    {| c_clientKey := "a"; c_torrentKey := Some "k1" |}.

(** Client "a" has added X on a server.js broker whose heartbeat timeout
    is 5000. *)
Definition timedA : Server :=
  @stepServerJs hashParser (EvReceive 0 (Examples.addX "a" "k1"))
    (newServer (Examples.withTimeout 5000)).

(** 'destroy' messages of client "b": at once, and after 5000 ms. *)
Definition destroyNow : Message :=
  Examples.msg "destroy" "b" None None (Some {| opt_server := false; opt_delay := Some 0 |}).

Definition destroyLater : Message :=
  Examples.msg "destroy" "b" None None (Some {| opt_server := false; opt_delay := Some 5000 |}).

(** 'add-torrent' messages of client "a" that fail: an identifier that
    does not parse, and no [options]. *)
Definition addUnparsed : Message :=
  Examples.msg "add-torrent" "a" (Some "k1") (Some "not a torrent") Examples.noOptions.

Definition addNoOptions : Message :=
  Examples.msg "add-torrent" "a" (Some "k1") (Some Examples.hashX) None.

(** Client "a" subscribes to X once more, with the key it has already. *)
Definition subscribeAgain : Message :=
  Examples.msg "subscribe" "a" (Some "k1") (Some Examples.hashX) None.

(** Client "a" adds X and asks for a server. *)
Definition addWithServer : Message :=
  Examples.msg "add-torrent" "a" (Some "k1") (Some Examples.hashX) Examples.wantServer.

(** The torrent X as it is after "a" alone has added it. *)
Definition torrentXofA : Torrent :=
  {| infoHash := Examples.hashX; destroyed := false; view := blankView;
     clients := [{| c_clientKey := "a"; c_torrentKey := Some "k1" |}];
     serverURL := None; pendingServerCallbacks := None; pendingHttpClients := None |}.

(** Both clients have added X, and "b" has asked for its server: the
    listen is pending (part_000). *)
Definition pendingB : Server :=
  @stepPart000 hashParser (EvReceive 2001 (Examples.createServerMsg "b" "k2"))
    Examples.afterAB_Part000.

(** The torrent X while that listen is pending. *)
Definition torrentXpending : Torrent :=
  with_pendingServerCallbacks (Some [ServerReady 0%nat "b" (Some "k2")]) Examples.torrentX.

End Scenes.

(** * Properties *)

#[local] Set Warnings "-clear-no-such-hyp".

(** ** Sending *)

Lemma sendAll_nil s : sendAll [] s = s.
Proof. destruct s; unfold sendAll; simpl. by rewrite app_nil_r. Qed.

Lemma sendAll_app ms1 ms2 s : sendAll ms2 (sendAll ms1 s) = sendAll (ms1 ++ ms2) s.
Proof. unfold sendAll; simpl. by rewrite app_assoc. Qed.

Lemma send_sendAll m s : _send m s = sendAll [m] s.
Proof. reflexivity. Qed.

Lemma foldl_send {A} (f : A → Outbound) (l : list A) (s : Server) :
  foldl (λ s' x, _send (f x) s') s l = sendAll (map f l) s.
Proof.
  revert s. induction l as [|x l IH]; intros s; simpl.
  - by rewrite sendAll_nil.
  - rewrite IH, send_sendAll, sendAll_app. reflexivity.
Qed.

Lemma sendToTorrentClients_sendAll r message s :
  sendToTorrentClients r message s = sendAll (map (assignClient message) (clientsOf r s)) s.
Proof.
  unfold sendToTorrentClients, clientsOf.
  destruct (heap s !! r) as [t|]; simpl.
  - apply foldl_send.
  - by rewrite sendAll_nil.
Qed.

Lemma sendToAllClients_sendAll message s :
  sendToAllClients message s
  = sendAll (map (λ c, assignClientKey message (cl_clientKey c)) (_clients s)) s.
Proof. unfold sendToAllClients. apply foldl_send. Qed.

(** C6. Swarm-scoped fan-out: [sendToTorrentClients] (the same function in
    both sources) calls [_send] once per subscription of the torrent, in
    order; the message of a subscription is the shared payload with that
    subscription's own [clientKey] and [torrentKey], and nothing else of
    the server changes. So a torrent with N subscriptions yields exactly N
    messages, and each subscription is the addressee of exactly one. *)
Theorem C6_fanout_one_message_per_subscription :
  ∀ (r : TorrentRef) (message : Outbound) (s : Server),
    let s' := sendToTorrentClients r message s in
    let out := map (assignClient message) (clientsOf r s) in
    s' = sendAll out s
    ∧ sent s' = sent s ++ out
    ∧ length out = length (clientsOf r s)
    ∧ (∀ (i : nat) (c : Subscription),
         clientsOf r s !! i = Some c →
         ∃ m, out !! i = Some m
              ∧ o_clientKey m = Some (c_clientKey c)
              ∧ o_torrentKey m = c_torrentKey c
              ∧ o_type m = o_type message
              ∧ o_torrent m = o_torrent message
              ∧ o_error m = o_error message
              ∧ o_serverURL m = o_serverURL message).
Proof.
  intros r message s s' out. subst s' out.
  rewrite sendToTorrentClients_sendAll.
  split; [reflexivity|]. split; [reflexivity|].
  split; [by rewrite length_map|].
  intros i c Hi. exists (assignClient message c).
  rewrite list_lookup_fmap, Hi. simpl. repeat split; reflexivity.
Qed.

(** ** Logs do not touch the state *)

Lemma sameState_refl s : sameState s s.
Proof. by repeat split. Qed.

Lemma sameState_trans s1 s2 s3 : sameState s1 s2 → sameState s2 s3 → sameState s1 s3.
Proof.
  unfold sameState. intros (?&?&?&?&?&?&?) (?&?&?&?&?&?&?).
  repeat split; congruence.
Qed.

Lemma sameState_sendAll ms s : sameState s (sendAll ms s).
Proof. by repeat split. Qed.

Lemma sameState_log d s : sameState s (log d s).
Proof. by repeat split. Qed.

Lemma sameState_traceLog d s : sameState s (traceLog d s).
Proof. unfold traceLog. destruct (trace _); by repeat split. Qed.

Lemma traceLog_sent d s : sent (traceLog d s) = sent s.
Proof. unfold traceLog. by destruct (trace _). Qed.

Lemma traceLog_calls d s : calls (traceLog d s) = calls s.
Proof. unfold traceLog. by destruct (trace _). Qed.

(** ** The teardown of a set of clients *)

Lemma with_destroyed_id t b : destroyed t = b → with_destroyed b t = t.
Proof. intros <-. by destruct t. Qed.

Lemma pruned_idemp keys cs : pruned keys (pruned keys cs) = pruned keys cs.
Proof. unfold pruned. apply list_filter_filter_l. tauto. Qed.

Lemma killT_idemp keys t : killT keys (killT keys t) = killT keys t.
Proof.
  unfold killT; simpl. rewrite pruned_idemp.
  destruct (destroyed t), (bool_decide _); reflexivity.
Qed.

Lemma killT_clients keys t : clients (killT keys t) = pruned keys (clients t).
Proof. reflexivity. Qed.

Lemma killT_infoHash keys t : infoHash (killT keys t) = infoHash t.
Proof. reflexivity. Qed.

Lemma killT_destroyed keys t :
  destroyed (killT keys t) = destroyed t || bool_decide (pruned keys (clients t) = []).
Proof. reflexivity. Qed.

Lemma turn_generic (lg : TorrentRef → Server → Server) keys :
  (∀ r s, sameState s (lg r s) ∧ sent (lg r s) = sent s) →
  turnSpec keys
    (λ s r,
       let s1 := updTorrent r (λ t, with_clients (pruned keys (clients t)) t) s in
       match heap s1 !! r with
       | Some t =>
           if bool_decide (clients t = []) then lg r (torrentDestroy r s1) else s1
       | None => s1
       end).
Proof.
  intros Hlg s r. simpl.
  rewrite list_lookup_alter_eq. unfold dies.
  destruct (heap s !! r) as [t|] eqn:Ht; simpl.
  2:{ rewrite app_nil_r. repeat split.
      apply list_alter_ext; [|done]. intros x Hx. congruence. }
  case_bool_decide as Hp; simpl in Hp.
  - destruct (Hlg r (torrentDestroy r (updTorrent r (λ t0, with_clients (pruned keys (clients t0)) t0) s)))
      as [(Ho & Hw & Hc & Hts & Hh & Htm & Hcl) Hs].
    rewrite Ho, Hw, Hc, Hts, Hh, Htm, Hcl, Hs. clear Ho Hw Hc Hts Hh Htm Hcl Hs.
    unfold torrentDestroy. simpl. rewrite list_lookup_alter_eq, Ht. simpl.
    destruct (destroyed t) eqn:Hd; simpl.
    + rewrite app_nil_r. repeat split.
      apply list_alter_ext; [|done]. intros x Hx. assert (x = t) as -> by congruence.
      unfold killT. rewrite Hd. simpl. by rewrite with_destroyed_id.
    + repeat split.
      rewrite list_alter_alter_eq. apply list_alter_ext; [|done].
      intros x Hx. assert (x = t) as -> by congruence.
      unfold killT; simpl. rewrite Hd, bool_decide_eq_true_2 by done. reflexivity.
  - rewrite andb_false_r, app_nil_r. repeat split.
    apply list_alter_ext; [|done]. intros x Hx. assert (x = t) as -> by congruence.
    unfold killT. rewrite (bool_decide_eq_false_2 _ Hp), orb_false_r.
    by rewrite with_destroyed_id.
Qed.

Lemma turn_Part000 keys : turnSpec keys (Part000.killTorrentClients keys).
Proof.
  apply (turn_generic (λ r, traceLog (LogTorrentDestroyed r))).
  intros r s. split; [apply sameState_traceLog | apply traceLog_sent].
Qed.

Lemma turn_ServerJs keys : turnSpec keys (ServerJs.killTorrentClients keys).
Proof.
  apply (turn_generic (λ r, log (LogTorrentDestroyed r))).
  intros r s. split; [apply sameState_log | reflexivity].
Qed.
Lemma filter_all {A} (P : A → Prop) `{∀ x, Decision (P x)} (l : list A) :
  (∀ x, P x) → filter P l = l.
Proof.
  intros HP. induction l as [|x l IH]; [done|].
  rewrite filter_cons_True by done. by rewrite IH.
Qed.

Lemma filter_ext_elem {A} (P Q : A → Prop) `{∀ x, Decision (P x)} `{∀ x, Decision (Q x)}
  (l : list A) :
  (∀ x, x ∈ l → P x ↔ Q x) → filter P l = filter Q l.
Proof.
  induction l as [|x l IH]; intros HPQ; [done|].
  rewrite !filter_cons.
  assert (x ∈ x :: l) as Hx by apply list_elem_of_here.
  rewrite IH by (intros y Hy; apply HPQ; by apply list_elem_of_further).
  destruct (decide (P x)), (decide (Q x)); [done| | |done]; exfalso; naive_solver.
Qed.

Lemma dies_killT keys t :
  negb (destroyed (killT keys t)) && bool_decide (pruned keys (clients (killT keys t)) = [])
  = false.
Proof.
  rewrite killT_destroyed, killT_clients, pruned_idemp.
  destruct (destroyed t), (bool_decide _); reflexivity.
Qed.

Section Teardown.
Variable keys : list string.
Variable step : Server → TorrentRef → Server.
Hypothesis Hstep : turnSpec keys step.

Lemma turns_frame l s :
  _options (foldl step s l) = _options s
  ∧ _clients (foldl step s l) = _clients s
  ∧ _torrents (foldl step s l) = _torrents s
  ∧ timers (foldl step s l) = timers s
  ∧ sent (foldl step s l) = sent s.
Proof.
  revert s. induction l as [|r l IH]; intros s; simpl; [done|].
  destruct (IH (step s r)) as (-> & -> & -> & -> & ->).
  destruct (Hstep s r) as (? & ? & ? & ? & ? & _). done.
Qed.

Lemma turns_lookup l s r :
  heap (foldl step s l) !! r
  = if bool_decide (r ∈ l) then killT keys <$> heap s !! r else heap s !! r.
Proof.
  induction l as [|x l IH] using rev_ind.
  - case_bool_decide as H; [|done]. exfalso. by eapply not_elem_of_nil.
  - rewrite foldl_app. simpl.
    destruct (Hstep (foldl step s l) x) as (_ & _ & _ & _ & _ & -> & _).
    destruct (decide (x = r)) as [->|Hne].
    + rewrite list_lookup_alter_eq, IH.
      rewrite (bool_decide_eq_true_2 (r ∈ l ++ [r])) by (apply elem_of_app; right; apply list_elem_of_singleton; done).
      case_bool_decide; [|done].
      destruct (heap s !! r); simpl; [|done]. by rewrite killT_idemp.
    + rewrite list_lookup_alter_ne by done. rewrite IH.
      rewrite (bool_decide_ext (r ∈ l ++ [x]) (r ∈ l)); [done|].
      rewrite elem_of_app, list_elem_of_singleton.
      split; [intros [?|?]; [done|congruence] | by left].
Qed.

Lemma turns_dies l s x :
  dies keys (foldl step s l) x = if bool_decide (x ∈ l) then false else dies keys s x.
Proof.
  unfold dies. rewrite turns_lookup.
  case_bool_decide; [|done].
  destruct (heap s !! x); simpl; [|done]. apply dies_killT.
Qed.

Lemma turns_webtorrent l s :
  _webtorrent (foldl step s l)
  = (λ w, {| torrents := filter (λ r, ¬ (r ∈ l ∧ dies keys s r)) (torrents w) |})
      <$> _webtorrent s.
Proof.
  induction l as [|x l IH] using rev_ind.
  - simpl. destruct (_webtorrent s) as [[ts]|]; simpl; [|done].
    do 2 f_equal. symmetry. apply filter_all.
    intros r [Hr _]. by eapply not_elem_of_nil.
  - rewrite foldl_app. simpl.
    destruct (Hstep (foldl step s l) x) as (_ & _ & _ & _ & _ & _ & -> & _).
    rewrite turns_dies, IH.
    destruct (_webtorrent s) as [[ts]|]; simpl; [|by repeat case_match].
    case_bool_decide as Hx.
    + do 2 f_equal. apply list_filter_iff. intros r.
      rewrite elem_of_app, list_elem_of_singleton. naive_solver.
    + destruct (dies keys s x) eqn:Hd; simpl; unfold unlist; simpl.
      * do 2 f_equal. rewrite list_filter_filter. apply list_filter_iff. intros r.
        rewrite elem_of_app, list_elem_of_singleton.
        split.
        -- intros [Hne Hn] [[Hin| ->] Hdr]; [naive_solver|done].
        -- intros Hn. split; [|naive_solver].
           intros ->. apply Hn. split; [by right|]. by rewrite Hd.
      * do 2 f_equal. apply list_filter_iff. intros r.
        rewrite elem_of_app, list_elem_of_singleton.
        split.
        -- intros Hn [[Hin| ->] Hdr]; [naive_solver|]. by rewrite Hd in Hdr.
        -- naive_solver.
Qed.

Lemma turns_calls l s :
  ∃ cs, calls (foldl step s l) = calls s ++ cs
        ∧ ∀ c, c ∈ cs ↔ ∃ r, c = CallTorrentDestroy r ∧ r ∈ l ∧ dies keys s r.
Proof.
  induction l as [|x l IH] using rev_ind.
  - exists []. simpl. split; [by rewrite app_nil_r|].
    intros c. split; [by intros H%elem_of_nil|].
    intros (r & _ & Hr & _). by apply elem_of_nil in Hr.
  - destruct IH as (cs & Hcs & Hin). rewrite foldl_app. simpl.
    destruct (Hstep (foldl step s l) x) as (_ & _ & _ & _ & _ & _ & _ & ->).
    rewrite turns_dies, Hcs, <- app_assoc.
    eexists. split; [reflexivity|].
    intros c. rewrite elem_of_app, Hin. clear Hcs Hin.
    case_bool_decide as Hx; [|destruct (dies keys s x) eqn:Hd].
    + split.
      * intros [(r & -> & Hr & Hdr)|H%elem_of_nil]; [|done].
        exists r. rewrite elem_of_app. eauto.
      * intros (r & -> & [Hr| ->%list_elem_of_singleton]%elem_of_app & Hdr); left; eauto.
    + split.
      * intros [(r & -> & Hr & Hdr)| ->%list_elem_of_singleton].
        -- exists r. rewrite elem_of_app. eauto.
        -- exists x. rewrite elem_of_app, list_elem_of_singleton, Hd. eauto.
      * intros (r & -> & [Hr| ->%list_elem_of_singleton]%elem_of_app & Hdr).
        -- left. eauto.
        -- right. by apply list_elem_of_singleton.
    + split.
      * intros [(r & -> & Hr & Hdr)|H%elem_of_nil]; [|done].
        exists r. rewrite elem_of_app. eauto.
      * intros (r & -> & [Hr| ->%list_elem_of_singleton]%elem_of_app & Hdr).
        -- left. eauto.
        -- by rewrite Hd in Hdr.
Qed.
End Teardown.
Lemma with__clients_id s : with__clients (_clients s) s = s.
Proof. by destruct s. Qed.

Lemma foldl_deleteClient keys s :
  foldl (λ s' ck, deleteClient ck s') s keys
  = with__clients (filter (λ c, cl_clientKey c ∉ keys) (_clients s)) s.
Proof.
  revert s. induction keys as [|k keys IH]; intros s; simpl.
  - rewrite filter_all; [by rewrite with__clients_id|]. intros c. apply not_elem_of_nil.
  - rewrite IH. unfold deleteClient, with__clients; simpl. f_equal.
    rewrite list_filter_filter. apply list_filter_iff. intros c.
    rewrite not_elem_of_cons. naive_solver.
Qed.

Lemma engineDestroy_lookup s r t :
  heap s !! r = Some t →
  ∃ t', heap (engineDestroy s) !! r = Some t'
        ∧ clients t' = clients t ∧ infoHash t' = infoHash t
        ∧ (destroyed t = true → destroyed t' = true).
Proof.
  unfold engineDestroy. destruct (_webtorrent s) as [[ts]|]; simpl; [|eauto].
  revert t. generalize (heap s). induction ts as [|x ts IH] using rev_ind; intros h t Ht; simpl.
  - eauto.
  - rewrite foldl_app. simpl.
    destruct (IH h t Ht) as (t' & Ht' & Hc & Hi & Hd).
    destruct (decide (x = r)) as [->|Hne].
    + rewrite list_lookup_alter_eq, Ht'. simpl. eexists. split; [done|]. simpl. eauto.
    + rewrite list_lookup_alter_ne by done. eauto.
Qed.

Section Cascade.
Variable keys : list string.
Variable step : Server → TorrentRef → Server.
Variable lg : Server → Server.
Hypothesis Hstep : turnSpec keys step.
Hypothesis Hlg : ∀ s, sameState s (lg s) ∧ sent (lg s) = sent s.

Lemma isLive_turns s r :
  r ∈ _torrents s →
  isLive (foldl step s (_torrents s)) r = survives keys s r.
Proof.
  intros Hr. unfold isLive, survives.
  rewrite (turns_lookup keys step Hstep), bool_decide_eq_true_2 by done.
  destruct (heap s !! r) as [t|]; simpl; [|done].
  by rewrite negb_orb.
Qed.

Lemma cascade_teardown s1 s :
  _options s1 = _options s → timers s1 = timers s → sent s1 = sent s →
  _torrents s1 = _torrents s → heap s1 = heap s → _webtorrent s1 = _webtorrent s →
  calls s1 = calls s →
  _clients s1 = filter (λ c, cl_clientKey c ∉ keys) (_clients s) →
  teardown keys s (cascade step lg s1).
Proof.
  intros Ho Htm Hs Hts Hh Hw Hcl Hc.
  assert (∀ r, dies keys s1 r = dies keys s r) as Hdies
    by (intros r; unfold dies; by rewrite Hh).
  assert (∀ r, survives keys s1 r = survives keys s r) as Hsurv
    by (intros r; unfold survives; by rewrite Hh).
  unfold cascade. cbv zeta.
  destruct (turns_frame keys step Hstep (_torrents s1) s1) as (Fo & Fc & Ft & Ftm & Fs).
  pose proof (turns_webtorrent keys step Hstep (_torrents s1) s1) as Fw.
  destruct (turns_calls keys step Hstep (_torrents s1) s1) as (cs & Fcs & Fin).
  assert (∀ r, CallTorrentDestroy r ∈ cs ↔ r ∈ _torrents s ∧ dies keys s r) as Hcalls.
  { intros r. rewrite Fin. split.
    - intros (r' & [= <-] & Hr & Hd). by rewrite <- Hts, <- Hdies.
    - intros [Hr Hd]. exists r. by rewrite Hts, Hdies. }
  assert (CallDestroy ∉ cs) as Hnd by (rewrite Fin; by intros (r & Hr & _)).
  assert (∀ c, c ∈ cs → ∃ r, c = CallTorrentDestroy r) as Honly
    by (intros c (r & -> & _)%Fin; eauto).
  clear Fin.
  set (s2 := foldl step s1 (_torrents s1)) in *.
  assert (is_Some (_webtorrent s2) ↔ is_Some (_webtorrent s)) as Hsome.
  { rewrite Fw, Hw. by rewrite fmap_is_Some. }
  assert (filter (λ r, isLive s2 r) (_torrents s2)
          = filter (λ r, survives keys s r) (_torrents s)) as Hfil.
  { rewrite Ft, <- Hts. apply filter_ext_elem. intros r Hr.
    subst s2. rewrite isLive_turns by done. by rewrite Hsurv. }
  assert (∀ r t, r ∈ _torrents s → heap s !! r = Some t →
            heap s2 !! r = Some (killT keys t)) as Hlook.
  { intros r t Hr Ht. subst s2.
    rewrite (turns_lookup keys step Hstep), bool_decide_eq_true_2 by (by rewrite Hts).
    by rewrite Hh, Ht. }
  simpl. rewrite Hfil.
  destruct (filter (λ r, survives keys s r) (_torrents s)) as [|r0 rs] eqn:Hsv.
  - (* no torrent is left *)
    assert (∀ r t, r ∈ _torrents s → heap s !! r = Some t →
              destroyed (killT keys t) = true) as Hall.
    { intros r t Hr Ht. rewrite killT_destroyed.
      destruct (destroyed t) eqn:Hd; [done|]. simpl.
      destruct (bool_decide (pruned keys (clients t) = [])) eqn:Hp; [done|].
      exfalso. eapply (filter_nil_not_elem_of _ _ r Hsv); [|done].
      unfold survives. by rewrite Ht, Hd, Hp. }
    destruct (_webtorrent s2) as [w|] eqn:Hw2.
    + destruct (Hlg (with_webtorrent None
                       (engineDestroy (with_torrents [] s2))))
        as [(Lo & Lw & Lc & Lt & Lh & Ltm & Lcl) Ls].
      unfold teardown. rewrite Lo, Lw, Lc, Lt, Lh, Ltm, Lcl, Ls.
      unfold engineDestroy. simpl. rewrite Hw2. simpl.
      rewrite Fo, Fc, Ftm, Fs, Ho, Htm, Hs, Hc.
      repeat split; try done.
      * intros r t Hr Ht.
        destruct (engineDestroy_lookup (with_torrents [] s2) r (killT keys t))
          as (t' & Ht' & Hc' & Hi' & Hd'); [by apply Hlook|].
        unfold engineDestroy in Ht'. simpl in Ht'. rewrite Hw2 in Ht'. simpl in Ht'.
        exists t'. split; [done|]. rewrite Hc', Hi'. repeat split.
        rewrite Hd' by eauto. symmetry. rewrite <- killT_destroyed. eauto.
      * exists (cs ++ [CallDestroy]). rewrite Fcs, Hcl, <- app_assoc.
        split; [done|]. split; [|split].
        -- intros r. rewrite <- Hcalls, elem_of_app, list_elem_of_singleton.
           split; [by intros [?|?]|by left].
        -- split; [|intros _; apply elem_of_app; right; by apply list_elem_of_singleton].
           intros _. split; [done|]. apply Hsome. eauto.
        -- intros c [Hc0| ->%list_elem_of_singleton]%elem_of_app; [right|by left].
           by apply Honly.
    + unfold teardown. simpl. rewrite Fo, Fc, Ftm, Fs, Ho, Htm, Hs, Hc, Hw2.
      repeat split; try done.
      * intros r t Hr Ht. exists (killT keys t). split; [by apply Hlook|done].
      * exists cs. rewrite Fcs, Hcl. split; [done|]. split; [done|]. split.
        -- split; [done|]. intros [_ Hi]. apply Hsome in Hi. by destruct Hi.
        -- intros c Hc0. right. by apply Honly.
  - unfold teardown. simpl. rewrite Fo, Fc, Ftm, Fs, Ho, Htm, Hs, Hc.
    repeat split; try done.
    + intros r t Hr Ht. exists (killT keys t). split; [by apply Hlook|done].
    + intros _. rewrite Fw, Hw, Hts.
      destruct (_webtorrent s) as [[ts]|]; simpl; [|done].
      do 2 f_equal. apply list_filter_iff. intros r. by rewrite Hdies.
    + exists cs. rewrite Fcs, Hcl. split; [done|]. split; [done|]. split.
      * split; [done|]. by intros [? _].
      * intros c Hc0. right. by apply Honly.
Qed.
End Cascade.
Lemma killClients_cascade k keys s :
  Part000.killClients (k :: keys) s
  = cascade (Part000.killTorrentClients (k :: keys)) (traceLog LogInstanceDestroyed)
      (foldl (λ s' ck, deleteClient ck s') s (k :: keys)).
Proof. reflexivity. Qed.

Lemma killClients_teardown keys s :
  keys ≠ [] → teardown keys s (Part000.killClients keys s).
Proof.
  destruct keys as [|k keys]; [done|]. intros _.
  rewrite killClients_cascade.
  apply cascade_teardown; try (by rewrite foldl_deleteClient).
  - apply turn_Part000.
  - intros s'. split; [apply sameState_traceLog | apply traceLog_sent].
Qed.

Lemma foldl_logDelete (dead : list Client) s :
  let s1 := foldl (λ s' c, deleteClient (cl_clientKey c) (log (LogClientDied (cl_clientKey c)) s'))
              s dead in
  _options s1 = _options s ∧ timers s1 = timers s ∧ sent s1 = sent s
  ∧ _torrents s1 = _torrents s ∧ heap s1 = heap s ∧ _webtorrent s1 = _webtorrent s
  ∧ calls s1 = calls s
  ∧ _clients s1 = filter (λ c, cl_clientKey c ∉ map cl_clientKey dead) (_clients s).
Proof.
  revert s. induction dead as [|d dead IH]; intros s; simpl.
  - repeat split. rewrite filter_all; [done|]. intros c. apply not_elem_of_nil.
  - destruct (IH (deleteClient (cl_clientKey d) (log (LogClientDied (cl_clientKey d)) s)))
      as (-> & -> & -> & -> & -> & -> & -> & ->).
    simpl. repeat split.
    rewrite list_filter_filter. apply list_filter_iff. intros c.
    rewrite not_elem_of_cons. naive_solver.
Qed.

Lemma removeDeadClients_teardown now T s :
  let keys := map cl_clientKey (filter (λ c, now - heartbeat c > T) (_clients s)) in
  keys ≠ [] → teardown keys s (ServerJs.removeDeadClients now T s).
Proof.
  intros keys Hne. unfold ServerJs.removeDeadClients. fold keys.
  destruct (foldl_logDelete (filter (λ c, now - heartbeat c > T) (_clients s)) s)
    as (Ho & Htm & Hs & Hts & Hh & Hw & Hcl & Hc).
  cbv zeta in Ho, Htm, Hs, Hts, Hh, Hw, Hcl, Hc. fold keys in Hc.
  destruct keys as [|k keys'] eqn:Hk; [done|].
  apply (cascade_teardown (k :: keys') (ServerJs.killTorrentClients (k :: keys'))
           (log LogInstanceDestroyed));
    first [apply turn_ServerJs | done | by intros s'; split; [apply sameState_log|]].
Qed.

Lemma removeDeadClients_none now T s :
  filter (λ c, now - heartbeat c > T) (_clients s) = [] →
  ServerJs.removeDeadClients now T s = s.
Proof. intros H. unfold ServerJs.removeDeadClients. rewrite H. reflexivity. Qed.

(** ** The sweep *)

Lemma foldl_sameState {A} (f : A → Server → Server) (l : list A) s :
  (∀ x s', sameState s' (f x s')) → sameState s (foldl (λ s' x, f x s') s l).
Proof.
  intros Hf. revert s. induction l as [|x l IH]; intros s; simpl.
  - apply sameState_refl.
  - eapply sameState_trans; [apply Hf | apply IH].
Qed.

Lemma sameState_sendProgress r ty s : sameState s (sendProgress r ty s).
Proof.
  unfold sendProgress. destruct (heap s !! r); [|apply sameState_refl].
  rewrite sendToTorrentClients_sendAll. apply sameState_sendAll.
Qed.

Lemma sameState_updates s :
  sameState s (foldl (λ s' torrent, sendProgress torrent "update" s') s (_torrents s)).
Proof. apply (foldl_sameState (λ r, sendProgress r "update")). intros. apply sameState_sendProgress. Qed.

Lemma killClients_clients keys s :
  _clients (Part000.killClients keys s) = filter (λ c, cl_clientKey c ∉ keys) (_clients s).
Proof.
  destruct keys as [|k keys].
  - simpl. rewrite filter_all; [done|]. intros c. apply not_elem_of_nil.
  - by destruct (killClients_teardown (k :: keys) s) as (_ & _ & _ & -> & _).
Qed.

(** With distinct keys, deleting the keys of the entries that satisfy [P]
    deletes exactly those entries. *)
Lemma filter_by_key (P : Client → Prop) `{∀ c, Decision (P c)} (cs : list Client) :
  NoDup (map cl_clientKey cs) →
  filter (λ c, cl_clientKey c ∉ map cl_clientKey (filter P cs)) cs = filter (λ c, ¬ P c) cs.
Proof.
  intros Hnd. apply filter_ext_elem. intros c Hc. split.
  - intros Hn HP. apply Hn. apply list_elem_of_fmap. exists c. split; [done|].
    apply list_elem_of_filter. done.
  - intros HnP Hin. apply list_elem_of_fmap in Hin as (c' & Hk & Hc').
    apply list_elem_of_filter in Hc' as [HP' Hc'].
    assert (c = c') as ->; [|done].
    apply list_elem_of_lookup in Hc as [i Hi]. apply list_elem_of_lookup in Hc' as [j Hj].
    assert (i = j) as ->.
    { eapply NoDup_lookup; [exact Hnd| |].
      - rewrite list_lookup_fmap, Hi. reflexivity.
      - rewrite list_lookup_fmap, Hj. simpl. by rewrite Hk. }
    congruence.
Qed.

Lemma foldl_traceLog {A} (f : A → Diagnostic) (l : list A) s :
  sameState s (foldl (λ s' x, traceLog (f x) s') s l).
Proof. apply (foldl_sameState (λ x, traceLog (f x))). intros. apply sameState_traceLog. Qed.

Lemma removeDeadClients_clients_Part000 now T s :
  NoDup (clientKeys s) →
  _clients (Part000.removeDeadClients now T s)
  = filter (λ c, now - heartbeat c ≤ T) (_clients s).
Proof.
  intros Hnd. unfold Part000.removeDeadClients. rewrite killClients_clients.
  destruct (foldl_traceLog (λ c, LogClientDied (cl_clientKey c))
              (filter (λ c, ¬ now - heartbeat c ≤ T) (_clients s)) s)
    as (_ & _ & -> & _).
  rewrite filter_by_key by done.
  apply list_filter_iff. intros c. split; [apply dec_stable | tauto].
Qed.

(** ** Steps that leave registry and engine alone *)

Create HintDb quiet.

Lemma quiet_refl s : quiet s s.
Proof. by repeat split. Qed.

Lemma quiet_trans s1 s2 s3 : quiet s1 s2 → quiet s2 s3 → quiet s1 s3.
Proof.
  unfold quiet, keepsClients. intros ((?&?&?)&?&?&?&?) ((?&?&?)&?&?&?&?).
  repeat split; congruence.
Qed.

Lemma quiet_sameState s0 s s' : sameState s s' → quiet s0 s → quiet s0 s'.
Proof.
  intros (Ho & Hw & Hc & Ht & Hh & Htm & Hcl) Hq. eapply quiet_trans; [exact Hq|].
  unfold quiet, keepsClients, wtTorrents, skeleton, joins. rewrite Ho, Hw, Hc, Ht, Hh, Htm, Hcl.
  by repeat split.
Qed.

Lemma quiet_send m s0 s : quiet s0 s → quiet s0 (_send m s).
Proof. apply quiet_sameState. rewrite send_sendAll. apply sameState_sendAll. Qed.

Lemma quiet_sendAll ms s0 s : quiet s0 s → quiet s0 (sendAll ms s).
Proof. apply quiet_sameState, sameState_sendAll. Qed.

Lemma quiet_log d s0 s : quiet s0 s → quiet s0 (log d s).
Proof. apply quiet_sameState, sameState_log. Qed.

Lemma quiet_traceLog d s0 s : quiet s0 s → quiet s0 (traceLog d s).
Proof. apply quiet_sameState, sameState_traceLog. Qed.

Lemma quiet_called c s0 s : ¬ isJoin c → quiet s0 s → quiet s0 (called c s).
Proof.
  intros Hc Hq. eapply quiet_trans; [exact Hq|].
  unfold quiet, keepsClients, wtTorrents, skeleton, joins. simpl.
  rewrite filter_app, filter_cons_False, filter_nil, app_nil_r by done.
  by repeat split.
Qed.

Lemma quiet_webtorrent s0 s : quiet s0 s → quiet s0 (webtorrent s).
Proof.
  intros Hq. eapply quiet_trans; [exact Hq|].
  unfold webtorrent, quiet, keepsClients, wtTorrents, skeleton, joins.
  destruct (_webtorrent s) eqn:Hw; simpl; rewrite ?Hw; [by repeat split|].
  rewrite filter_app, filter_cons_False, filter_nil, app_nil_r by (simpl; tauto).
  by repeat split.
Qed.

Lemma skeleton_updTorrent r f s : keepsSkeleton f → skeleton (updTorrent r f s) = skeleton s.
Proof.
  intros Hf. unfold skeleton, updTorrent. simpl.
  apply list_eq. intros i. rewrite !list_lookup_fmap, list_lookup_alter.
  case_decide; [subst|done].
  destruct (heap s !! i) as [t|]; simpl; [|done].
  destruct (Hf t) as [-> ->]. done.
Qed.

Lemma quiet_updTorrent r f s0 s : keepsSkeleton f → quiet s0 s → quiet s0 (updTorrent r f s).
Proof.
  intros Hf Hq. eapply quiet_trans; [exact Hq|].
  unfold quiet, keepsClients. rewrite skeleton_updTorrent by done. by repeat split.
Qed.

Lemma quiet_foldl {A} (f : Server → A → Server) (l : list A) s0 s :
  (∀ x s', quiet s0 s' → quiet s0 (f s' x)) → quiet s0 s → quiet s0 (foldl f s l).
Proof.
  intros Hf. revert s. induction l as [|x l IH]; intros s Hq; simpl; [done|].
  apply IH, Hf, Hq.
Qed.

Lemma quiet_sendToTorrentClients r m s0 s : quiet s0 s → quiet s0 (sendToTorrentClients r m s).
Proof. rewrite sendToTorrentClients_sendAll. apply quiet_sendAll. Qed.

Lemma quiet_sendToAllClients m s0 s : quiet s0 s → quiet s0 (sendToAllClients m s).
Proof. rewrite sendToAllClients_sendAll. apply quiet_sendAll. Qed.

Lemma quiet_sendError r e ty s0 s : quiet s0 s → quiet s0 (sendError r e ty s).
Proof.
  unfold sendError. destruct r; [apply quiet_sendToTorrentClients | apply quiet_sendToAllClients].
Qed.

Lemma quiet_sendProgress r ty s0 s : quiet s0 s → quiet s0 (sendProgress r ty s).
Proof. apply quiet_sameState, sameState_sendProgress. Qed.

#[local] Hint Resolve quiet_refl quiet_send quiet_sendAll quiet_log quiet_traceLog quiet_called
  quiet_webtorrent quiet_updTorrent quiet_sendToTorrentClients quiet_sendToAllClients
  quiet_sendError quiet_sendProgress : quiet.

#[local] Hint Extern 1 (keepsSkeleton _) => (intros ?; split; reflexivity) : quiet.
#[local] Hint Extern 1 (¬ isJoin _) => (simpl; tauto) : quiet.

Ltac quiet := repeat (case_match; simplify_eq/=); eauto 12 with quiet.

Section QuietPart000.
Context {parser : Parser}.

Lemma quiet_sendSubscribed_Part000 r ck tk s0 s :
  quiet s0 s → quiet s0 (Part000.sendSubscribed r ck tk s).
Proof. unfold Part000.sendSubscribed. quiet. Qed.

Lemma quiet_callCallback cb s0 s : quiet s0 s → quiet s0 (Part000.callCallback cb s).
Proof.
  destruct cb; simpl; [apply quiet_sendSubscribed_Part000 | apply quiet_send].
Qed.

Lemma quiet_createServer r cb s0 s : quiet s0 s → quiet s0 (Part000.createServer r cb s).
Proof.
  intros Hq. unfold Part000.createServer.
  destruct (heap s !! r) as [t|]; [|done].
  destruct (serverURL t); [by apply quiet_callCallback|].
  destruct (pendingServerCallbacks t); quiet.
Qed.

Lemma quiet_handleSubscribe_Part000 m s0 s :
  quiet s0 s → quiet s0 (Part000.handleSubscribe m s).2.
Proof.
  intros Hq. unfold Part000.handleSubscribe.
  destruct (parseTorrent (torrentID m)); simpl; [|done].
  apply quiet_sendSubscribed_Part000. quiet.
Qed.

Lemma quiet_getTorrentByKey_Part000 tk s0 s :
  quiet s0 s → quiet s0 (Part000.getTorrentByKey tk s).2.
Proof. intros Hq. unfold Part000.getTorrentByKey. quiet. Qed.

Lemma quiet_handleCreateServer_Part000 m s0 s :
  quiet s0 s → quiet s0 (Part000.handleCreateServer m s).
Proof.
  intros Hq. unfold Part000.handleCreateServer.
  pose proof (quiet_getTorrentByKey_Part000 (torrentKey m) s0 s Hq) as Hg.
  destruct (Part000.getTorrentByKey (torrentKey m) s) as [[r|] s1]; simpl in *; [|done].
  by apply quiet_createServer.
Qed.

Lemma quiet_onListening_Part000 r port s0 s :
  quiet s0 s → quiet s0 (Part000.onListening r port s).
Proof.
  intros Hq. unfold Part000.onListening.
  destruct (heap s !! r ≫= pendingServerCallbacks); [|done].
  apply quiet_updTorrent; [quiet|].
  apply quiet_foldl; [intros; by apply quiet_callCallback|]. quiet.
Qed.

Lemma quiet_onTorrentEvent_Part000 r ev s0 s :
  quiet s0 s → quiet s0 (Part000.onTorrentEvent r ev s).
Proof. intros Hq. destruct ev; simpl; unfold Part000.sendInfo; quiet. Qed.

End QuietPart000.
(** ** The client registry under [receive] *)

Lemma keepsClients_refl s : keepsClients s s.
Proof. by repeat split. Qed.

Lemma keepsClients_trans s1 s2 s3 : keepsClients s1 s2 → keepsClients s2 s3 → keepsClients s1 s3.
Proof. unfold keepsClients. intros (?&?&?) (?&?&?). repeat split; congruence. Qed.

Lemma quiet_keepsClients s s' : quiet s s' → keepsClients s s'.
Proof. by intros [? _]. Qed.

Lemma getClient_key ck s c : getClient ck s = Some c → cl_clientKey c = ck.
Proof.
  unfold getClient. intros H. apply find_some in H as [_ H].
  by apply bool_decide_eq_true in H.
Qed.

Lemma getClient_app_new ck now s cs :
  cs = _clients s → getClient ck s = None →
  List.find (λ c, bool_decide (cl_clientKey c = ck))
    (cs ++ [{| cl_clientKey := ck; heartbeat := now |}])
  = Some {| cl_clientKey := ck; heartbeat := now |}.
Proof.
  intros -> H. unfold getClient in H.
  induction (_clients s) as [|c cs IH]; simpl in *.
  - by rewrite bool_decide_eq_true_2.
  - destruct (bool_decide (cl_clientKey c = ck)); [done|]. by apply IH.
Qed.

Lemma getClient_refresh ck now (cs : list Client) :
  List.find (λ c, bool_decide (cl_clientKey c = ck))
    (map (λ c, if bool_decide (cl_clientKey c = ck)
               then {| cl_clientKey := cl_clientKey c; heartbeat := now |} else c) cs)
  = (λ c, {| cl_clientKey := cl_clientKey c; heartbeat := now |})
      <$> List.find (λ c, bool_decide (cl_clientKey c = ck)) cs.
Proof.
  induction cs as [|c cs IH]; simpl; [done|].
  destruct (bool_decide (cl_clientKey c = ck)) eqn:Hc; simpl; rewrite Hc; [done|]. apply IH.
Qed.

Lemma handleHeartbeat_known now m s c :
  getClient (clientKey m) s = Some c →
  getClient (clientKey m) (handleHeartbeat now m s)
  = Some {| cl_clientKey := clientKey m; heartbeat := now |}.
Proof.
  intros Hc. unfold handleHeartbeat. rewrite Hc. unfold getClient; simpl.
  rewrite getClient_refresh. fold (getClient (clientKey m) s). rewrite Hc. simpl.
  by rewrite (getClient_key _ _ _ Hc).
Qed.

Lemma getClient_keepsClients ck s s' : keepsClients s s' → getClient ck s' = getClient ck s.
Proof. intros (_ & Hc & _). unfold getClient. by rewrite Hc. Qed.

Section ClientsPart000.
Context {parser : Parser}.

Lemma touchClient_new_Part000 now m s :
  getClient (clientKey m) s = None →
  getClient (clientKey m) (Part000.touchClient now m s)
  = Some {| cl_clientKey := clientKey m; heartbeat := now |}.
Proof.
  intros Hn. unfold Part000.touchClient. rewrite Hn. unfold getClient at 1. simpl.
  eapply getClient_app_new; [|done].
  by destruct (sameState_traceLog (LogAddingClient (clientKey m)) s) as (_ & _ & -> & _).
Qed.

Lemma touchClient_known_Part000 now m s c :
  getClient (clientKey m) s = Some c → Part000.touchClient now m s = s.
Proof. intros Hc. unfold Part000.touchClient. by rewrite Hc. Qed.

Lemma keepsClients_handleAddTorrent_Part000 m s :
  keepsClients s (Part000.handleAddTorrent m s).2.
Proof.
  unfold Part000.handleAddTorrent.
  assert (keepsClients s (webtorrent s)) as Hw
    by (apply quiet_keepsClients, quiet_webtorrent, quiet_refl).
  destruct (parseTorrent (torrentID m)) as [h|]; simpl; [|done].
  match goal with |- context [let '(_, _) := ?X in _] =>
    assert (keepsClients s X.2) as Hk; [|destruct X as [r s2]] end.
  { destruct (findByInfoHash _ _ _); simpl; [done|].
    eapply keepsClients_trans; [exact Hw|].
    destruct (sameState_traceLog (LogJoiningSwarm h) (webtorrent s))
      as (Ho & _ & Hc & _ & _ & Ht & _).
    unfold keepsClients. simpl. by rewrite Ho, Hc, Ht. }
  simpl in Hk.
  set (s3 := updTorrent r _ s2).
  assert (quiet s2 s3) as Hq
    by (subst s3; apply quiet_updTorrent; [intros ?; split; reflexivity | apply quiet_refl]).
  eapply keepsClients_trans; [exact Hk|].
  destruct (options m) as [o|]; simpl; [|by apply quiet_keepsClients].
  apply quiet_keepsClients.
  destruct (opt_server o); simpl;
    [by apply quiet_createServer | by apply quiet_sendSubscribed_Part000].
Qed.

(** What [receive] of part_000 does to the entry of the sender. *)
Lemma receive_client_Part000 now m s :
  let ck := clientKey m in
  let s' := (Part000.receive now m s).2 in
  (type m = "heartbeat" →
     getClient ck s' = Some {| cl_clientKey := ck; heartbeat := now |})
  ∧ (type m ≠ "heartbeat" → type m ≠ "destroy" →
     (∀ c, getClient ck s = Some c → getClient ck s' = Some c)
     ∧ (getClient ck s = None →
        getClient ck s' = Some {| cl_clientKey := ck; heartbeat := now |})).
Proof.
  intros ck s'. subst s'. unfold Part000.receive. split.
  - intros ->. simpl.
    destruct (getClient ck s) as [c|] eqn:Hc.
    + rewrite (touchClient_known_Part000 _ _ _ _ Hc). by eapply handleHeartbeat_known.
    + eapply handleHeartbeat_known. by apply touchClient_new_Part000.
  - intros Hh Hd.
    assert (getClient ck (Part000.receive now m s).2
            = getClient ck (Part000.touchClient now m s)) as Hsame.
    { unfold Part000.receive. apply getClient_keepsClients.
      repeat case_bool_decide; simpl; try done;
        first [ apply quiet_keepsClients, quiet_handleSubscribe_Part000, quiet_refl
              | apply keepsClients_handleAddTorrent_Part000
              | apply quiet_keepsClients, quiet_handleCreateServer_Part000, quiet_refl
              | apply quiet_keepsClients, quiet_log, quiet_refl ]. }
    unfold Part000.receive in Hsame. rewrite Hsame. split.
    + intros c Hc. by rewrite (touchClient_known_Part000 _ _ _ _ Hc).
    + apply touchClient_new_Part000.
Qed.

End ClientsPart000.
Section QuietServerJs.
Context {parser : Parser}.

Lemma quiet_addClient r ck tk s0 s : quiet s0 s → quiet s0 (ServerJs.addClient r ck tk s).
Proof. intros Hq. apply quiet_updTorrent; [intros ?; split; reflexivity | done]. Qed.

Lemma quiet_handleSubscribe_ServerJs m s0 s :
  quiet s0 s → quiet s0 (ServerJs.handleSubscribe m s).2.
Proof.
  intros Hq. unfold ServerJs.handleSubscribe.
  destruct (parseTorrent (torrentID m)); simpl; [|done].
  destruct (findByInfoHash _ _ _); simpl.
  - by apply quiet_send, quiet_addClient.
  - by apply quiet_send.
Qed.

Lemma quiet_getTorrentByKey_ServerJs tk s0 s :
  quiet s0 s → quiet s0 (ServerJs.getTorrentByKey tk s).2.
Proof.
  intros Hq. unfold ServerJs.getTorrentByKey.
  destruct (findByKey _ _ _); simpl; by apply quiet_webtorrent.
Qed.

Lemma quiet_handleCreateServer_ServerJs m s0 s :
  quiet s0 s → quiet s0 (ServerJs.handleCreateServer m s).2.
Proof.
  intros Hq. unfold ServerJs.handleCreateServer.
  pose proof (quiet_getTorrentByKey_ServerJs (torrentKey m) s0 s Hq) as Hg.
  destruct (ServerJs.getTorrentByKey (torrentKey m) s) as [[e|r] s1]; simpl in *; [done|].
  destruct (heap s1 !! r) as [t|]; [|done].
  destruct (serverURL t); simpl; [by apply quiet_send|].
  destruct (pendingHttpClients t); simpl.
  - apply quiet_updTorrent; [intros ?; split; reflexivity | done].
  - apply quiet_called; [simpl; tauto|]. apply quiet_called; [simpl; tauto|].
    apply quiet_updTorrent; [intros ?; split; reflexivity | done].
Qed.

Lemma quiet_onListening_ServerJs r port s0 s :
  quiet s0 s → quiet s0 (ServerJs.onListening r port s).
Proof.
  intros Hq. unfold ServerJs.onListening.
  destruct (heap s !! r ≫= pendingHttpClients); [|done].
  apply quiet_updTorrent; [intros ?; split; reflexivity|].
  rewrite (foldl_send (λ w, serverReady (c_clientKey w) (c_torrentKey w) _)).
  apply quiet_sendAll.
  apply quiet_updTorrent; [intros ?; split; reflexivity | done].
Qed.

Lemma quiet_onTorrentEvent_ServerJs r ev s0 s :
  quiet s0 s → quiet s0 (ServerJs.onTorrentEvent r ev s).
Proof.
  intros Hq. destruct ev; simpl; unfold ServerJs.sendInfo;
    try destruct (heap s !! r);
    auto using quiet_sendToTorrentClients, quiet_sendProgress, quiet_sendError.
Qed.

Lemma touchClient_new_ServerJs now m s :
  getClient (clientKey m) s = None →
  getClient (clientKey m) (ServerJs.touchClient now m s)
  = Some {| cl_clientKey := clientKey m; heartbeat := now |}.
Proof.
  intros Hn. unfold ServerJs.touchClient. rewrite Hn. unfold getClient at 1. simpl.
  by eapply getClient_app_new.
Qed.

Lemma touchClient_known_ServerJs now m s c :
  getClient (clientKey m) s = Some c → ServerJs.touchClient now m s = s.
Proof. intros Hc. unfold ServerJs.touchClient. by rewrite Hc. Qed.

Lemma keepsClients_handleAddTorrent_ServerJs m s :
  keepsClients s (ServerJs.handleAddTorrent m s).2.
Proof.
  unfold ServerJs.handleAddTorrent.
  assert (keepsClients s (webtorrent s)) as Hw
    by (apply quiet_keepsClients, quiet_webtorrent, quiet_refl).
  destruct (parseTorrent (torrentID m)) as [h|]; simpl; [|done].
  match goal with |- context [let '(_, _) := ?X in _] =>
    assert (keepsClients s X.2) as Hk; [|destruct X as [r s2]] end.
  { destruct (findByInfoHash _ _ _) as [r|]; simpl.
    - destruct (heap (webtorrent s) !! r); simpl; [|done].
      eapply keepsClients_trans; [exact Hw|]. by repeat split.
    - eapply keepsClients_trans; [exact Hw|]. by repeat split. }
  simpl in *.
  eapply keepsClients_trans; [exact Hk|].
  apply quiet_keepsClients, quiet_addClient, quiet_refl.
Qed.

(** What [receive] of server.js does to the entry of the sender. *)
Lemma receive_client_ServerJs now m s :
  let ck := clientKey m in
  let s' := (ServerJs.receive now m s).2 in
  (type m = "heartbeat" →
     getClient ck s' = Some {| cl_clientKey := ck; heartbeat := now |})
  ∧ (type m ≠ "heartbeat" →
     (∀ c, getClient ck s = Some c → getClient ck s' = Some c)
     ∧ (getClient ck s = None →
        getClient ck s' = Some {| cl_clientKey := ck; heartbeat := now |})).
Proof.
  intros ck s'. subst s'. unfold ServerJs.receive. split.
  - intros ->. simpl.
    destruct (getClient ck s) as [c|] eqn:Hc.
    + rewrite (touchClient_known_ServerJs _ _ _ _ Hc). by eapply handleHeartbeat_known.
    + eapply handleHeartbeat_known. by apply touchClient_new_ServerJs.
  - intros Hh.
    assert (getClient ck (ServerJs.receive now m s).2
            = getClient ck (ServerJs.touchClient now m s)) as Hsame.
    { unfold ServerJs.receive. apply getClient_keepsClients.
      repeat case_bool_decide; simpl; try done;
        first [ apply quiet_keepsClients, quiet_handleSubscribe_ServerJs, quiet_refl
              | apply keepsClients_handleAddTorrent_ServerJs
              | apply quiet_keepsClients, quiet_handleCreateServer_ServerJs, quiet_refl
              | apply quiet_keepsClients, quiet_log, quiet_refl ]. }
    unfold ServerJs.receive in Hsame. rewrite Hsame. split.
    + intros c Hc. by rewrite (touchClient_known_ServerJs _ _ _ _ Hc).
    + apply touchClient_new_ServerJs.
Qed.

End QuietServerJs.


(** ** Messages of an unknown type *)



(** ** The invariant of the runs *)

Lemma skeleton_lookup s r h d :
  skeleton s !! r = Some (h, d)
  ↔ ∃ t, heap s !! r = Some t ∧ infoHash t = h ∧ destroyed t = d.
Proof.
  unfold skeleton. rewrite list_lookup_fmap. split.
  - destruct (heap s !! r) as [t|]; simpl; [|done]. intros [= <- <-]. eauto.
  - intros (t & -> & <- & <-). done.
Qed.

Lemma infoHashOf_skeleton s r : infoHashOf s r = fst <$> skeleton s !! r.
Proof.
  unfold infoHashOf, skeleton. rewrite list_lookup_fmap.
  by destruct (heap s !! r).
Qed.

Lemma Inv_shape s s' :
  _torrents s' = _torrents s → wtTorrents s' = wtTorrents s → skeleton s' = skeleton s →
  Inv s → Inv s'.
Proof.
  intros Ht Hw Hs (I1 & I2 & I3 & I4). unfold Inv.
  rewrite Ht, Hw, Hs. repeat split; try done.
  intros r1 r2 H1 H2. rewrite !infoHashOf_skeleton, Hs, <- !infoHashOf_skeleton. by apply I4.
Qed.

Lemma Inv_quiet s s' : quiet s s' → Inv s → Inv s'.
Proof. intros (_ & Ht & Hw & Hs & _). by apply Inv_shape. Qed.

Lemma Inv_newServer opts : Inv (newServer opts).
Proof.
  unfold Inv, newServer, wtTorrents. simpl. repeat split.
  - apply NoDup_nil_2.
  - intros r Hr. by apply elem_of_nil in Hr.
  - intros r1 r2 Hr. by apply elem_of_nil in Hr.
Qed.

Lemma survives_not_dies keys s r h :
  skeleton s !! r = Some (h, false) → (survives keys s r ↔ ¬ dies keys s r).
Proof.
  intros (t & Ht & _ & Hd)%skeleton_lookup. unfold survives, dies. rewrite Ht, Hd. simpl.
  destruct (bool_decide _); simpl; naive_solver.
Qed.

Lemma Inv_teardown keys s s' : teardown keys s s' → Inv s → Inv s'.
Proof.
  intros (_ & _ & _ & _ & Hts & Hheap & Hnil & Hcons & _) (I1 & I2 & I3 & I4).
  assert (∀ r, r ∈ _torrents s' → r ∈ _torrents s ∧ survives keys s r) as Hin.
  { intros r. rewrite Hts, list_elem_of_filter. tauto. }
  assert (∀ r, r ∈ _torrents s' → infoHashOf s' r = infoHashOf s r) as Hih.
  { intros r [Hr _]%Hin. destruct (I3 r Hr) as (h & (t & Ht & _)%skeleton_lookup).
    destruct (Hheap r t Hr Ht) as (t' & Ht' & _ & Hi & _).
    unfold infoHashOf. rewrite Ht, Ht'. simpl. by rewrite Hi. }
  unfold Inv. repeat split.
  - destruct (decide (_torrents s' = [])) as [He|Hne].
    + unfold wtTorrents. by rewrite (Hnil He), He.
    + unfold wtTorrents. rewrite (Hcons Hne), Hts.
      unfold wtTorrents in I1.
      destruct (_webtorrent s) as [[ts]|]; simpl in *.
      * subst ts. apply filter_ext_elem. intros r Hr.
        destruct (I3 r Hr) as (h & Hh).
        rewrite (survives_not_dies keys s r h Hh). tauto.
      * by rewrite <- I1.
  - rewrite Hts. by apply NoDup_filter.
  - intros r Hr. destruct (Hin r Hr) as [Hr0 Hsv].
    destruct (I3 r Hr0) as (h & (t & Ht & Hi & Hd)%skeleton_lookup).
    destruct (Hheap r t Hr0 Ht) as (t' & Ht' & _ & Hi' & Hd').
    exists h. apply skeleton_lookup. exists t'. repeat split; [done|congruence|].
    rewrite Hd', Hd. unfold survives in Hsv. rewrite Ht, Hd in Hsv. simpl in *.
    by destruct (bool_decide _).
  - intros r1 r2 H1 H2. rewrite (Hih r1 H1), (Hih r2 H2).
    apply I4; by apply Hin.
Qed.
(** ** Subscriptions under the handlers *)

Lemma keepsSubs_refl s : keepsSubs s s.
Proof. by intros r. Qed.

Lemma keepsSubs_trans s1 s2 s3 : keepsSubs s1 s2 → keepsSubs s2 s3 → keepsSubs s1 s3.
Proof. intros H1 H2 r. by rewrite H2, H1. Qed.

Lemma keepsSubs_heap s s' : heap s' = heap s → keepsSubs s s'.
Proof. intros H r. unfold clientsOf. by rewrite H. Qed.

Lemma keepsSubs_step s0 s s' : heap s' = heap s → keepsSubs s0 s → keepsSubs s0 s'.
Proof. intros H Hk. eapply keepsSubs_trans; [exact Hk | by apply keepsSubs_heap]. Qed.

Lemma heap_traceLog d s : heap (traceLog d s) = heap s.
Proof. by destruct (sameState_traceLog d s) as (_ & _ & _ & _ & -> & _). Qed.

Lemma heap_webtorrent s : heap (webtorrent s) = heap s.
Proof. unfold webtorrent. by destruct (_webtorrent s). Qed.

Lemma heap_sendToTorrentClients r m s : heap (sendToTorrentClients r m s) = heap s.
Proof. by rewrite sendToTorrentClients_sendAll. Qed.

Lemma heap_sendError r e ty s : heap (sendError r e ty s) = heap s.
Proof.
  unfold sendError. destruct r; [apply heap_sendToTorrentClients|].
  by rewrite sendToAllClients_sendAll.
Qed.

Lemma clientsOf_updTorrent r f s r' :
  clientsOf r' (updTorrent r f s)
  = match heap s !! r' with
    | Some t => clients (if decide (r = r') then f t else t)
    | None => []
    end.
Proof.
  unfold clientsOf, updTorrent. simpl. rewrite list_lookup_alter.
  case_decide; [subst|done]. by destruct (heap s !! r').
Qed.

Lemma keepsSubs_updTorrent r f s0 s :
  keepsClientsOfTorrent f → keepsSubs s0 s → keepsSubs s0 (updTorrent r f s).
Proof.
  intros Hf Hk. eapply keepsSubs_trans; [exact Hk|].
  intros r'. rewrite clientsOf_updTorrent. unfold clientsOf.
  destruct (heap s !! r'); [|done]. case_decide; [apply Hf|done].
Qed.

Lemma clientsOf_push r c s r' :
  clientsOf r' (updTorrent r (push_client c) s)
  = if decide (r = r') then
      match heap s !! r' with Some t => clients t ++ [c] | None => [] end
    else clientsOf r' s.
Proof.
  rewrite clientsOf_updTorrent. unfold clientsOf.
  destruct (heap s !! r'); by case_decide.
Qed.

Section SubsPart000.
Context {parser : Parser}.

Lemma heap_sendSubscribed r ck tk s : heap (Part000.sendSubscribed r ck tk s) = heap s.
Proof. reflexivity. Qed.

Lemma keepsSubs_callCallback cb s0 s : keepsSubs s0 s → keepsSubs s0 (Part000.callCallback cb s).
Proof. apply keepsSubs_step. by destruct cb. Qed.

Lemma keepsSubs_createServer r cb s0 s :
  keepsSubs s0 s → keepsSubs s0 (Part000.createServer r cb s).
Proof.
  intros Hk. unfold Part000.createServer.
  destruct (heap s !! r) as [t|]; [|done].
  destruct (serverURL t); [by apply keepsSubs_callCallback|].
  destruct (pendingServerCallbacks t); simpl.
  - by apply keepsSubs_updTorrent.
  - eapply keepsSubs_step; [reflexivity|]. by apply keepsSubs_updTorrent.
Qed.

(** The end of [handleAddTorrent], after the subscription is pushed. *)
Lemma addTorrent_tail_Part000 m r s3 :
  let res :=
    match options m with
    | None => (Thrown "TypeError: Cannot read property 'server' of undefined", s3)
    | Some o =>
        if opt_server o
        then (Returned, Part000.createServer r (Respond r (clientKey m) (torrentKey m)) s3)
        else (Returned, Part000.callCallback (Respond r (clientKey m) (torrentKey m)) s3)
    end in
  quiet s3 res.2 ∧ keepsSubs s3 res.2.
Proof.
  destruct (options m) as [o|]; simpl; [|split; [apply quiet_refl | apply keepsSubs_refl]].
  destruct (opt_server o); simpl; split.
  - apply quiet_createServer, quiet_refl.
  - apply keepsSubs_createServer, keepsSubs_refl.
  - apply quiet_sendSubscribed_Part000, quiet_refl.
  - by apply keepsSubs_heap.
Qed.

End SubsPart000.
(** ** [handleAddTorrent] *)

Lemma wtTorrents_webtorrent s : wtTorrents (webtorrent s) = wtTorrents s.
Proof. by destruct (quiet_webtorrent s s (quiet_refl s)) as (_ & _ & -> & _). Qed.

Lemma webtorrent_is_Some s : ∃ w, _webtorrent (webtorrent s) = Some w.
Proof. unfold webtorrent. destruct (_webtorrent s) eqn:H; simpl; eauto. Qed.

Lemma findByInfoHash_heap h s s' l :
  heap s' = heap s → findByInfoHash h s' l = findByInfoHash h s l.
Proof. intros H. unfold findByInfoHash. by rewrite H. Qed.

Lemma findByInfoHash_Some h s l r :
  findByInfoHash h s l = Some r →
  r ∈ l ∧ ∃ t, heap s !! r = Some t ∧ infoHash t = h.
Proof.
  unfold findByInfoHash. intros [Hin Hp]%find_some. split; [by apply list_elem_of_In|].
  destruct (heap s !! r) as [t|]; [|done]. exists t. split; [done|].
  by apply bool_decide_eq_true in Hp.
Qed.

Lemma findByInfoHash_None h s l r t :
  findByInfoHash h s l = None → r ∈ l → heap s !! r = Some t → infoHash t ≠ h.
Proof.
  unfold findByInfoHash. intros Hn Hin Ht.
  apply list_elem_of_In in Hin. apply (find_none _ _ Hn) in Hin. rewrite Ht in Hin.
  by apply bool_decide_eq_false in Hin.
Qed.

Lemma engineAdd_outcome (tid : option string) h sub s1 s :
  heap s1 = heap s → _torrents s1 = _torrents s → wtTorrents s1 = wtTorrents s →
  joins s1 = joins s → keepsClients s s1 → (∃ w, _webtorrent s1 = Some w) →
  let r := length (heap s) in
  let s' := (engineAdd tid h s1).2 in
  let s3 := updTorrent (engineAdd tid h s1).1 (push_client sub)
              (with_torrents (_torrents s' ++ [(engineAdd tid h s1).1])
                 (updTorrent (engineAdd tid h s1).1 (with_clients []) s')) in
  (engineAdd tid h s1).1 = r
  ∧ keepsClients s s3
  ∧ _torrents s3 = _torrents s ++ [r]
  ∧ wtTorrents s3 = wtTorrents s ++ [r]
  ∧ skeleton s3 = skeleton s ++ [(h, false)]
  ∧ joins s3 = joins s ++ [CallAdd tid r]
  ∧ clientsOf r s3 = [sub]
  ∧ (∀ r', r' ≠ r → clientsOf r' s3 = clientsOf r' s).
Proof.
  intros Hh Ht Hw Hj Hk [w Hsome] r s' s3.
  assert ((engineAdd tid h s1).1 = r) as Hr.
  { unfold engineAdd. simpl. by rewrite Hh. }
  subst s3 s'. rewrite Hr. split; [done|].
  unfold engineAdd. simpl. rewrite Hsome. simpl.
  rewrite Hh.
  split; [exact Hk|].
  split; [by rewrite Ht|].
  split.
  { unfold wtTorrents in *. simpl. rewrite Hsome in Hw. rewrite Hw. reflexivity. }
  split.
  { unfold skeleton. simpl.
    set (f := λ t, (infoHash t, destroyed t)).
    apply list_eq. intros i. rewrite !list_lookup_fmap, !list_lookup_alter.
    destruct (decide (r = i)) as [<-|Hne].
    - subst r. rewrite decide_True by done. rewrite lookup_app_r, Nat.sub_diag by done. simpl.
      change (map f (heap s)) with (f <$> heap s).
      rewrite lookup_app_r by (by rewrite length_fmap). by rewrite length_fmap, Nat.sub_diag.
    - change (map f (heap s)) with (f <$> heap s).
      by rewrite <- list_lookup_fmap, fmap_app. }
  split.
  { unfold joins in *. simpl. rewrite filter_app, Hj. f_equal. }
  split.
  { unfold clientsOf. simpl. rewrite list_lookup_alter_eq, list_lookup_alter_eq.
    subst r. by rewrite lookup_app_r, Nat.sub_diag. }
  intros r' Hne. unfold clientsOf. simpl.
  rewrite !list_lookup_alter_ne by done.
  destruct (decide (r' < length (heap s))%nat) as [Hlt|Hge].
  - by rewrite lookup_app_l.
  - rewrite (lookup_ge_None_2 (heap s)) by lia.
    rewrite lookup_ge_None_2; [done|]. rewrite length_app. simpl. subst r. lia.
Qed.
Lemma joins_webtorrent s : joins (webtorrent s) = joins s.
Proof. by destruct (quiet_webtorrent s s (quiet_refl s)) as (_ & _ & _ & _ & ->). Qed.

Lemma joins_traceLog d s : joins (traceLog d s) = joins s.
Proof. unfold joins. by rewrite traceLog_calls. Qed.

Lemma traceLog_webtorrent_field d s : _webtorrent (traceLog d s) = _webtorrent s.
Proof. by destruct (sameState_traceLog d s) as (_ & -> & _). Qed.

Lemma traceLog_torrents d s : _torrents (traceLog d s) = _torrents s.
Proof. by destruct (sameState_traceLog d s) as (_ & _ & _ & -> & _). Qed.

Lemma quiet_subs s1 s2 s3 r sub :
  quiet s1 s2 → heap s2 = heap s1 →
  (∃ t, heap s1 !! r = Some t) →
  quiet (updTorrent r (push_client sub) s2) s3 →
  keepsSubs (updTorrent r (push_client sub) s2) s3 →
  quiet s1 s3
  ∧ clientsOf r s3 = clientsOf r s1 ++ [sub]
  ∧ (∀ r', r' ≠ r → clientsOf r' s3 = clientsOf r' s1).
Proof.
  intros Hq Hh [t Ht] Hq3 Hk3. split; [|split].
  - eapply quiet_trans; [exact Hq|]. eapply quiet_trans; [|exact Hq3].
    apply quiet_updTorrent; [intros ?; split; reflexivity | apply quiet_refl].
  - rewrite Hk3, clientsOf_push, decide_True by done. unfold clientsOf. by rewrite Hh, Ht.
  - intros r' Hne. rewrite Hk3, clientsOf_push, decide_False by done.
    unfold clientsOf. by rewrite Hh.
Qed.

Section AddTorrent.
Context {parser : Parser}.

Lemma handleAddTorrent_outcome_Part000 m s h :
  parseTorrent (torrentID m) = Some h →
  addOutcome h m s (Part000.handleAddTorrent m s).2.
Proof.
  intros Hp. unfold Part000.handleAddTorrent, addOutcome. rewrite Hp.
  rewrite wtTorrents_webtorrent, (findByInfoHash_heap h s (webtorrent s)) by apply heap_webtorrent.
  destruct (findByInfoHash h s (wtTorrents s)) as [r|] eqn:Hf.
  - match goal with |- context [updTorrent r ?f ?s2] =>
      pose proof (addTorrent_tail_Part000 m r (updTorrent r f s2)) as [Hq Hk] end.
    cbv zeta in Hq, Hk.
    destruct (findByInfoHash_Some _ _ _ _ Hf) as [_ (t & Ht & _)].
    apply (quiet_subs s (webtorrent s) _ r _);
      [apply quiet_webtorrent, quiet_refl | apply heap_webtorrent | eauto | exact Hq | exact Hk].
  - set (d := LogJoiningSwarm h).
    destruct (engineAdd_outcome (torrentID m) h
                {| c_clientKey := clientKey m; c_torrentKey := torrentKey m |}
                (traceLog d (webtorrent s)) s)
      as (Hr & Hkc & Hts & Hw & Hsk & Hj & Hc & Hother).
    { by rewrite heap_traceLog, heap_webtorrent. }
    { rewrite traceLog_torrents. by destruct (quiet_webtorrent s s (quiet_refl s)) as (_ & -> & _). }
    { unfold wtTorrents. rewrite traceLog_webtorrent_field. apply wtTorrents_webtorrent. }
    { by rewrite joins_traceLog, joins_webtorrent. }
    { eapply keepsClients_trans; [apply quiet_keepsClients, quiet_webtorrent, quiet_refl|].
      destruct (sameState_traceLog d (webtorrent s)) as (Ho & _ & Hcl & _ & _ & Htm & _).
      by repeat split. }
    { rewrite traceLog_webtorrent_field. apply webtorrent_is_Some. }
    cbv zeta in *.
    destruct (engineAdd (torrentID m) h (traceLog d (webtorrent s))) as [r s'] eqn:He.
    cbn [fst snd] in *. subst r.
    match goal with |- context [updTorrent ?r ?f ?s2] =>
      pose proof (addTorrent_tail_Part000 m r (updTorrent r f s2)) as [Hq Hk] end.
    cbv zeta in Hq, Hk.
    match type of Hq with quiet ?a _ => remember a as s3 eqn:Es3 end.
    match type of Hq with quiet _ ?b => remember b as sf eqn:Esf end.
    destruct Hq as ((Qo & Qc & Qtm) & Qt & Qw & Qs & Qj).
    assert (keepsClients s sf
            ∧ _torrents sf = _torrents s ++ [length (heap s)]
            ∧ wtTorrents sf = wtTorrents s ++ [length (heap s)]
            ∧ skeleton sf = skeleton s ++ [(h, false)]
            ∧ joins sf = joins s ++ [CallAdd (torrentID m) (length (heap s))]
            ∧ clientsOf (length (heap s)) sf
              = [{| c_clientKey := clientKey m; c_torrentKey := torrentKey m |}]
            ∧ (∀ r', r' ≠ length (heap s) → clientsOf r' sf = clientsOf r' s)) as G.
    { split; [|split; [|split; [|split; [|split; [|split]]]]].
      - unfold keepsClients. rewrite Qo, Qc, Qtm. apply Hkc.
      - by rewrite Qt.
      - by rewrite Qw.
      - by rewrite Qs.
      - by rewrite Qj.
      - by rewrite Hk.
      - intros r' Hne. rewrite Hk. by apply Hother. }
    subst sf s3. exact G.
Qed.

End AddTorrent.
Section AddTorrentServerJs.
Context {parser : Parser}.

Lemma handleAddTorrent_outcome_ServerJs m s h :
  parseTorrent (torrentID m) = Some h →
  addOutcome h m s (ServerJs.handleAddTorrent m s).2.
Proof.
  intros Hp. unfold ServerJs.handleAddTorrent, addOutcome. rewrite Hp.
  rewrite wtTorrents_webtorrent, (findByInfoHash_heap h s (webtorrent s)) by apply heap_webtorrent.
  destruct (findByInfoHash h s (wtTorrents s)) as [r|] eqn:Hf.
  - destruct (findByInfoHash_Some _ _ _ _ Hf) as [_ (t & Ht & _)].
    rewrite heap_webtorrent, Ht. cbn [fst snd]. unfold ServerJs.addClient.
    rewrite !send_sendAll, !sendAll_app.
    match goal with |- context [sendAll ?ms _] =>
      apply (quiet_subs s (sendAll ms (webtorrent s)) _ r _) end.
    + apply quiet_sendAll, quiet_webtorrent, quiet_refl.
    + apply heap_webtorrent.
    + eauto.
    + apply quiet_refl.
    + apply keepsSubs_refl.
  - destruct (engineAdd_outcome (torrentID m) h
                {| c_clientKey := clientKey m; c_torrentKey := torrentKey m |}
                (webtorrent s) s)
      as (Hr & G).
    { apply heap_webtorrent. }
    { by destruct (quiet_webtorrent s s (quiet_refl s)) as (_ & -> & _). }
    { apply wtTorrents_webtorrent. }
    { apply joins_webtorrent. }
    { apply quiet_keepsClients, quiet_webtorrent, quiet_refl. }
    { apply webtorrent_is_Some. }
    cbv zeta in *.
    destruct (engineAdd (torrentID m) h (webtorrent s)) as [r s'] eqn:He.
    cbn [fst snd] in *. subst r. exact G.
Qed.

End AddTorrentServerJs.

Lemma Inv_addOutcome h m s s' : addOutcome h m s s' → Inv s → Inv s'.
Proof.
  unfold addOutcome. intros Ha HI.
  destruct (findByInfoHash h s (wtTorrents s)) as [r|] eqn:Hf.
  - destruct Ha as [Hq _]. by eapply Inv_quiet.
  - destruct Ha as (_ & Ht & Hw & Hs & _).
    destruct HI as (I1 & I2 & I3 & I4).
    assert (∀ r, r ∈ _torrents s → (r < length (heap s))%nat) as Hvalid.
    { intros r Hr. destruct (I3 r Hr) as (h' & (t & Htl & _)%skeleton_lookup).
      by eapply lookup_lt_Some. }
    assert (length (skeleton s) = length (heap s)) as Hlen
      by (unfold skeleton; apply length_map).
    assert (∀ r, r ∈ _torrents s → skeleton s' !! r = skeleton s !! r) as Hold.
    { intros r Hr. rewrite Hs, lookup_app_l; [done|]. rewrite Hlen. by apply Hvalid. }
    assert (skeleton s' !! length (heap s) = Some (h, false)) as Hnew.
    { rewrite Hs, lookup_app_r by (by rewrite Hlen). by rewrite Hlen, Nat.sub_diag. }
    unfold Inv. rewrite Ht, Hw, I1. split; [done|]. split; [|split].
    + apply NoDup_app. split; [done|]. split; [|apply NoDup_singleton].
      intros r Hr Hr'%list_elem_of_singleton. subst r. apply Hvalid in Hr. lia.
    + intros r [Hr| ->%list_elem_of_singleton]%elem_of_app.
      * rewrite Hold by done. by apply I3.
      * eauto.
    + assert (∀ r, r ∈ _torrents s → infoHashOf s' r ≠ Some h) as Hfresh.
      { intros r Hr. rewrite infoHashOf_skeleton, Hold by done.
        destruct (I3 r Hr) as (h' & Hh'). rewrite Hh'. simpl. intros [= ->].
        apply skeleton_lookup in Hh' as (t & Htl & Hi & _).
        eapply findByInfoHash_None; [exact Hf| |exact Htl|exact Hi].
        by rewrite I1. }
      assert (infoHashOf s' (length (heap s)) = Some h) as Hnewh
        by (by rewrite infoHashOf_skeleton, Hnew).
      intros r1 r2 [H1| ->%list_elem_of_singleton]%elem_of_app
                   [H2| ->%list_elem_of_singleton]%elem_of_app; try done.
      * rewrite !infoHashOf_skeleton, !Hold, <- !infoHashOf_skeleton by done. by apply I4.
      * rewrite Hnewh. intros He. by apply Hfresh in H1.
      * rewrite Hnewh. intros He. symmetry in He. by apply Hfresh in H2.
Qed.
Lemma Inv_sameState s s' : sameState s s' → Inv s → Inv s'.
Proof. intros H. apply Inv_quiet. apply (quiet_sameState s s s' H), quiet_refl. Qed.

Lemma Inv_with__clients cs s : Inv s → Inv (with__clients cs s).
Proof. by apply Inv_shape. Qed.

Lemma Inv_with_timers l s : Inv s → Inv (with_timers l s).
Proof. by apply Inv_shape. Qed.

Lemma Inv_handleHeartbeat now m s : Inv s → Inv (handleHeartbeat now m s).
Proof.
  unfold handleHeartbeat. destruct (getClient _ _); [apply Inv_with__clients|].
  apply Inv_sameState, sameState_log.
Qed.

Lemma Inv_killClients keys s : Inv s → Inv (Part000.killClients keys s).
Proof.
  destruct keys as [|k keys]; [done|].
  apply Inv_teardown with (keys := k :: keys). by apply killClients_teardown.
Qed.

Lemma Inv_updates s :
  Inv s → Inv (foldl (λ s' torrent, sendProgress torrent "update" s') s (_torrents s)).
Proof. apply Inv_sameState, sameState_updates. Qed.

Section InvariantPart000.
Context {parser : Parser}.

Lemma Inv_touchClient_Part000 now m s : Inv s → Inv (Part000.touchClient now m s).
Proof.
  unfold Part000.touchClient. destruct (getClient _ _); [done|].
  intros H. apply Inv_with__clients.
  eapply Inv_sameState; [apply sameState_traceLog | done].
Qed.

Lemma Inv_handleAddTorrent_Part000 m s : Inv s → Inv (Part000.handleAddTorrent m s).2.
Proof.
  intros HI. destruct (parseTorrent (torrentID m)) as [h|] eqn:Hp.
  - eapply Inv_addOutcome; [by apply handleAddTorrent_outcome_Part000 | done].
  - unfold Part000.handleAddTorrent. rewrite Hp. simpl.
    eapply Inv_quiet; [apply quiet_webtorrent, quiet_refl | done].
Qed.

Lemma Inv_handleDestroy m s : Inv s → Inv (Part000.handleDestroy m s).
Proof.
  intros HI. unfold Part000.handleDestroy.
  assert (Inv (traceLog (LogDestroyingClient (clientKey m)) s)) as HI'
    by (eapply Inv_sameState; [apply sameState_traceLog | done]).
  destruct (options m ≫= opt_delay) as [d|]; [|by apply Inv_killClients].
  case_bool_decide; [by apply Inv_killClients | by apply Inv_with_timers].
Qed.

Lemma Inv_receive_Part000 now m s : Inv s → Inv (Part000.receive now m s).2.
Proof.
  intros HI%(Inv_touchClient_Part000 now m). unfold Part000.receive.
  repeat case_bool_decide; simpl.
  - eapply Inv_quiet; [apply quiet_handleSubscribe_Part000, quiet_refl | done].
  - by apply Inv_handleAddTorrent_Part000.
  - eapply Inv_quiet; [apply quiet_handleCreateServer_Part000, quiet_refl | done].
  - by apply Inv_handleHeartbeat.
  - by apply Inv_handleDestroy.
  - by apply (Inv_sameState _ _ (sameState_log _ _)).
Qed.

Lemma Inv_sendUpdates_Part000 now s : Inv s → Inv (Part000.sendUpdates now s).
Proof.
  intros HI. unfold Part000.sendUpdates. apply Inv_updates.
  destruct (0 <? _); [|done].
  unfold Part000.removeDeadClients. apply Inv_killClients.
  eapply Inv_sameState; [apply foldl_traceLog | done].
Qed.

Lemma Inv_stepPart000 e s : Inv s → Inv (stepPart000 e s).
Proof.
  intros HI. destruct e; simpl.
  - by apply Inv_receive_Part000.
  - by apply Inv_sendUpdates_Part000.
  - eapply Inv_quiet; [apply quiet_onListening_Part000, quiet_refl | done].
  - unfold Part000.onTimeout. case_bool_decide; [|done].
    by apply Inv_killClients, Inv_with_timers.
  - eapply Inv_quiet; [apply quiet_onTorrentEvent_Part000, quiet_refl | done].
  - destruct (_webtorrent s); [|done]. destruct ev; unfold onEngineEvent;
      (eapply Inv_quiet; [apply quiet_sendError, quiet_refl | done]).
  - eapply Inv_quiet; [|done].
    apply quiet_updTorrent; [intros ?; split; reflexivity | apply quiet_refl].
Qed.

Lemma reachable_Inv_Part000 s : reachable stepPart000 s → Inv s.
Proof.
  induction 1 as [opts|e s _ IH]; [apply Inv_newServer | by apply Inv_stepPart000].
Qed.

End InvariantPart000.

Section InvariantServerJs.
Context {parser : Parser}.

Lemma Inv_touchClient_ServerJs now m s : Inv s → Inv (ServerJs.touchClient now m s).
Proof.
  unfold ServerJs.touchClient. destruct (getClient _ _); [done|]. apply Inv_with__clients.
Qed.

Lemma Inv_handleAddTorrent_ServerJs m s : Inv s → Inv (ServerJs.handleAddTorrent m s).2.
Proof.
  intros HI. destruct (parseTorrent (torrentID m)) as [h|] eqn:Hp.
  - eapply Inv_addOutcome; [by apply handleAddTorrent_outcome_ServerJs | done].
  - unfold ServerJs.handleAddTorrent. rewrite Hp. simpl.
    eapply Inv_quiet; [apply quiet_webtorrent, quiet_refl | done].
Qed.

Lemma Inv_receive_ServerJs now m s : Inv s → Inv (ServerJs.receive now m s).2.
Proof.
  intros HI%(Inv_touchClient_ServerJs now m). unfold ServerJs.receive.
  repeat case_bool_decide; simpl.
  - eapply Inv_quiet; [apply quiet_handleSubscribe_ServerJs, quiet_refl | done].
  - by apply Inv_handleAddTorrent_ServerJs.
  - eapply Inv_quiet; [apply quiet_handleCreateServer_ServerJs, quiet_refl | done].
  - by apply Inv_handleHeartbeat.
  - by apply (Inv_sameState _ _ (sameState_log _ _)).
Qed.

Lemma Inv_removeDeadClients_ServerJs now T s : Inv s → Inv (ServerJs.removeDeadClients now T s).
Proof.
  intros HI.
  destruct (filter (λ c, now - heartbeat c > T) (_clients s)) as [|c cs] eqn:Hd.
  - by rewrite removeDeadClients_none.
  - eapply Inv_teardown; [|done]. apply removeDeadClients_teardown. by rewrite Hd.
Qed.

Lemma Inv_sendUpdates_ServerJs now s : Inv s → Inv (ServerJs.sendUpdates now s).
Proof.
  intros HI. unfold ServerJs.sendUpdates. apply Inv_updates.
  destruct (heartbeatTimeout _); [|done].
  case_bool_decide; [by apply Inv_removeDeadClients_ServerJs | done].
Qed.

Lemma Inv_stepServerJs e s : Inv s → Inv (stepServerJs e s).
Proof.
  intros HI. destruct e; simpl.
  - by apply Inv_receive_ServerJs.
  - by apply Inv_sendUpdates_ServerJs.
  - eapply Inv_quiet; [apply quiet_onListening_ServerJs, quiet_refl | done].
  - done.
  - eapply Inv_quiet; [apply quiet_onTorrentEvent_ServerJs, quiet_refl | done].
  - destruct (_webtorrent s); [|done]. destruct ev; unfold onEngineEvent;
      (eapply Inv_quiet; [apply quiet_sendError, quiet_refl | done]).
  - eapply Inv_quiet; [|done].
    apply quiet_updTorrent; [intros ?; split; reflexivity | apply quiet_refl].
Qed.

Lemma reachable_Inv_ServerJs s : reachable stepServerJs s → Inv s.
Proof.
  induction 1 as [opts|e s _ IH]; [apply Inv_newServer | by apply Inv_stepServerJs].
Qed.

End InvariantServerJs.
(** ** One swarm per fingerprint *)

Lemma findByInfoHash_complete h s l r t :
  r ∈ l → heap s !! r = Some t → infoHash t = h →
  ∃ r', findByInfoHash h s l = Some r'.
Proof.
  intros Hin Ht Hi. destruct (findByInfoHash h s l) as [r'|] eqn:Hf; [eauto|].
  exfalso. by eapply findByInfoHash_None.
Qed.

Lemma joinOrAttach_of_addOutcome h m s s' :
  Inv s → addOutcome h m s s' → joinOrAttach h m s s'.
Proof.
  intros (I1 & I2 & I3 & I4) Ha. unfold addOutcome in Ha. unfold joinOrAttach.
  destruct (findByInfoHash h s (wtTorrents s)) as [r0|] eqn:Hf.
  - destruct Ha as (Hq & Hc & Hother).
    destruct (findByInfoHash_Some _ _ _ _ Hf) as [Hin0 (t0 & Ht0 & Hi0)].
    rewrite I1 in Hin0.
    split.
    + intros r Hr Hh.
      assert (r = r0) as ->.
      { apply I4; [done|done|]. rewrite Hh. unfold infoHashOf. rewrite Ht0. simpl. by rewrite Hi0. }
      destruct Hq as (_ & Ht & _ & _ & Hj). done.
    + intros Hnone. exfalso. apply (Hnone r0 Hin0).
      unfold infoHashOf. rewrite Ht0. simpl. by rewrite Hi0.
  - destruct Ha as (_ & Ht & Hw & Hs & Hj & Hc & Hother).
    split.
    + intros r Hr Hh. exfalso.
      unfold infoHashOf in Hh. destruct (heap s !! r) as [t|] eqn:Htl; [|done].
      simpl in Hh. injection Hh as Hh.
      eapply findByInfoHash_None; [exact Hf| |exact Htl|exact Hh]. by rewrite I1.
    + intros _. exists (length (heap s)). split; [|split; [done|split; [done|split; [|done]]]].
      * intros Hin. destruct (I3 _ Hin) as (h' & (t & Htl & _)%skeleton_lookup).
        apply lookup_lt_Some in Htl. lia.
      * rewrite infoHashOf_skeleton, Hs.
        assert (length (skeleton s) = length (heap s)) as Hlen
          by (unfold skeleton; apply length_map).
        rewrite lookup_app_r by (by rewrite Hlen). by rewrite Hlen, Nat.sub_diag.
Qed.

Lemma joinOrAttach_agree h m s0 s s' :
  _torrents s = _torrents s0 → heap s = heap s0 → calls s = calls s0 →
  joinOrAttach h m s s' → joinOrAttach h m s0 s'.
Proof.
  intros Ht Hh Hc. unfold joinOrAttach, infoHashOf, clientsOf, joins.
  by rewrite Ht, Hh, Hc.
Qed.

Section OneSwarm.
Context {parser : Parser}.

Lemma receive_add_Part000 now m s h :
  Inv s → type m = "add-torrent" → parseTorrent (torrentID m) = Some h →
  joinOrAttach h m s (Part000.receive now m s).2.
Proof.
  intros HI Hty Hp. unfold Part000.receive. rewrite Hty. simpl.
  apply (joinOrAttach_agree h m s (Part000.touchClient now m s)).
  - unfold Part000.touchClient. destruct (getClient _ _); [done|]. simpl. apply traceLog_torrents.
  - unfold Part000.touchClient. destruct (getClient _ _); [done|]. simpl. apply heap_traceLog.
  - unfold Part000.touchClient. destruct (getClient _ _); [done|]. simpl. apply traceLog_calls.
  - apply joinOrAttach_of_addOutcome; [by apply Inv_touchClient_Part000|].
    by apply handleAddTorrent_outcome_Part000.
Qed.

Lemma receive_add_ServerJs now m s h :
  Inv s → type m = "add-torrent" → parseTorrent (torrentID m) = Some h →
  joinOrAttach h m s (ServerJs.receive now m s).2.
Proof.
  intros HI Hty Hp. unfold ServerJs.receive. rewrite Hty. simpl.
  apply (joinOrAttach_agree h m s (ServerJs.touchClient now m s)).
  - unfold ServerJs.touchClient. by destruct (getClient _ _).
  - unfold ServerJs.touchClient. by destruct (getClient _ _).
  - unfold ServerJs.touchClient. by destruct (getClient _ _).
  - apply joinOrAttach_of_addOutcome; [by apply Inv_touchClient_ServerJs|].
    by apply handleAddTorrent_outcome_ServerJs.
Qed.

End OneSwarm.

(** C2. In every server a run can reach (part_000 and server.js) no
    torrent is registered twice and no two registered torrents have the
    same infoHash. Handling an add-torrent message whose identifier parses
    to the infoHash of a registered swarm leaves the registry as it is,
    makes no call [wt.add], and appends the subscription
    [(clientKey, torrentKey)] of the sender to that swarm; when no
    registered swarm has the infoHash, [wt.add] is called exactly once and
    the new swarm is registered with that subscription as its only one. In
    both branches exactly one subscription is added, and the subscriptions
    of all other swarms are as before. *)
Theorem C2_one_swarm_per_infoHash :
  ∀ (parser : Parser) (s : Server),
    (reachable stepPart000 s →
       oneSwarmPerInfoHash s
       ∧ ∀ now m h, type m = "add-torrent" → parseTorrent (torrentID m) = Some h →
           joinOrAttach h m s (Part000.receive now m s).2)
    ∧ (reachable stepServerJs s →
       oneSwarmPerInfoHash s
       ∧ ∀ now m h, type m = "add-torrent" → parseTorrent (torrentID m) = Some h →
           joinOrAttach h m s (ServerJs.receive now m s).2).
Proof.
  intros parser s. split.
  - intros HI%reachable_Inv_Part000. split.
    + destruct HI as (_ & I2 & _ & I4). by split.
    + intros now m h. by apply receive_add_Part000.
  - intros HI%reachable_Inv_ServerJs. split.
    + destruct HI as (_ & I2 & _ & I4). by split.
    + intros now m h. by apply receive_add_ServerJs.
Qed.

Lemma C2_witness :
  (reachable (@stepPart000 hashParser) Examples.afterA_Part000
   ∧ type (Examples.addX "b" "k2") = "add-torrent"
   ∧ hashParser (torrentID (Examples.addX "b" "k2")) = Some Examples.hashX
   ∧ oneSwarmPerInfoHash Examples.afterA_Part000
   ∧ joinOrAttach Examples.hashX (Examples.addX "b" "k2") Examples.afterA_Part000
       (@Part000.receive hashParser 1000 (Examples.addX "b" "k2") Examples.afterA_Part000).2)
  ∧ (reachable (@stepServerJs hashParser) Examples.afterA_ServerJs
     ∧ oneSwarmPerInfoHash Examples.afterA_ServerJs
     ∧ joinOrAttach Examples.hashX (Examples.addX "b" "k2") Examples.afterA_ServerJs
         (@ServerJs.receive hashParser 1000 (Examples.addX "b" "k2") Examples.afterA_ServerJs).2).
Proof.
  assert (reachable (@stepPart000 hashParser) Examples.afterA_Part000) as R1
    by apply reachable_step, reachable_new.
  assert (reachable (@stepServerJs hashParser) Examples.afterA_ServerJs) as R2
    by apply reachable_step, reachable_new.
  assert (type (Examples.addX "b" "k2") = "add-torrent") as Hty by reflexivity.
  assert (hashParser (torrentID (Examples.addX "b" "k2")) = Some Examples.hashX) as Hp
    by (vm_compute; reflexivity).
  destruct (C2_one_swarm_per_infoHash hashParser Examples.afterA_Part000) as [H1 _].
  destruct (C2_one_swarm_per_infoHash hashParser Examples.afterA_ServerJs) as [_ H2].
  destruct (H1 R1) as [O1 J1]. destruct (H2 R2) as [O2 J2].
  split.
  - split; [exact R1|]. split; [exact Hty|]. split; [exact Hp|]. split; [exact O1|].
    exact (J1 1000 (Examples.addX "b" "k2") Examples.hashX Hty Hp).
  - split; [exact R2|]. split; [exact O2|].
    exact (J2 1000 (Examples.addX "b" "k2") Examples.hashX Hty Hp).
Defined.
(** ** Lookup by torrentKey *)

Lemma hasTorrentKey_carries t tk :
  hasTorrentKey t tk = true ↔ ∃ c, c ∈ clients t ∧ c_torrentKey c = tk.
Proof.
  unfold hasTorrentKey. rewrite existsb_exists. split.
  - intros (c & Hin & Hc). exists c. split; [by apply list_elem_of_In|].
    by apply bool_decide_eq_true in Hc.
  - intros (c & Hin & Hc). exists c. split; [by apply list_elem_of_In|].
    by apply bool_decide_eq_true.
Qed.

Lemma findByKey_Some tk s l r : findByKey tk s l = Some r → r ∈ l ∧ carries tk s r.
Proof.
  unfold findByKey, carries, clientsOf. intros [Hin Hp]%find_some.
  split; [by apply list_elem_of_In|].
  destruct (heap s !! r) as [t|]; [|done]. by apply hasTorrentKey_carries.
Qed.

Lemma findByKey_None tk s l r : findByKey tk s l = None → r ∈ l → ¬ carries tk s r.
Proof.
  unfold findByKey, carries, clientsOf. intros Hn Hin%list_elem_of_In Hc.
  apply (find_none _ _ Hn) in Hin.
  destruct (heap s !! r) as [t|].
  - apply hasTorrentKey_carries in Hc. congruence.
  - destruct Hc as (c & Hc & _). by apply elem_of_nil in Hc.
Qed.

Lemma findByKey_registered tk s :
  (∃ r, findByKey tk s (_torrents s) = Some r) ↔ registeredKey tk s.
Proof.
  split.
  - intros [r Hf]. exists r. by apply findByKey_Some.
  - intros (r & Hin & Hc). destruct (findByKey tk s (_torrents s)) as [r'|] eqn:Hf; [eauto|].
    exfalso. by eapply findByKey_None.
Qed.

Lemma findByKey_heap tk s s' l : heap s' = heap s → findByKey tk s' l = findByKey tk s l.
Proof. intros H. unfold findByKey. by rewrite H. Qed.

Lemma registeredKey_teardown keys tk s s' :
  Inv s → teardown keys s s' → (registeredKey tk s' ↔ keyOutlives keys tk s).
Proof.
  intros (I1 & I2 & I3 & I4) (_ & _ & _ & _ & Hts & Hheap & _).
  assert (∀ r, r ∈ _torrents s →
            ∃ t, heap s !! r = Some t ∧ destroyed t = false
                 ∧ clientsOf r s = clients t
                 ∧ clientsOf r s' = pruned keys (clients t)) as Hsub.
  { intros r Hr. destruct (I3 r Hr) as (h & (t & Ht & _ & Hd)%skeleton_lookup).
    destruct (Hheap r t Hr Ht) as (t' & Ht' & Hc & _).
    exists t. unfold clientsOf. by rewrite Ht, Ht'. }
  split.
  - intros (r & Hr & c & Hc & Htk).
    rewrite Hts in Hr. apply list_elem_of_filter in Hr as [_ Hr].
    destruct (Hsub r Hr) as (t & Ht & Hd & Hcs & Hcs').
    rewrite Hcs' in Hc. apply list_elem_of_filter in Hc as [Hk Hc].
    exists r, c. rewrite Hcs. done.
  - intros (r & c & Hr & Hc & Htk & Hk).
    destruct (Hsub r Hr) as (t & Ht & Hd & Hcs & Hcs').
    assert (c ∈ pruned keys (clients t)) as Hcp.
    { apply list_elem_of_filter. split; [done|]. by rewrite <- Hcs. }
    exists r. split.
    + rewrite Hts. apply list_elem_of_filter. split; [|done].
      unfold survives. rewrite Ht, Hd. simpl.
      case_bool_decide as He; [|done]. rewrite He in Hcp. by apply elem_of_nil in Hcp.
    + exists c. by rewrite Hcs'.
Qed.

Section Lookup.
Context {parser : Parser}.

Lemma getTorrentByKey_find_Part000 tk s :
  (Part000.getTorrentByKey tk s).1 = findByKey tk s (wtTorrents s).
Proof.
  unfold Part000.getTorrentByKey.
  rewrite wtTorrents_webtorrent, (findByKey_heap tk s (webtorrent s)) by apply heap_webtorrent.
  by destruct (findByKey tk s (wtTorrents s)).
Qed.

Lemma getTorrentByKey_find_ServerJs tk s :
  (ServerJs.getTorrentByKey tk s).1
  = match findByKey tk s (wtTorrents s) with
    | Some r => inr r
    | None => inl ("Missing torrentKey: " +:+ showKey tk)
    end.
Proof.
  unfold ServerJs.getTorrentByKey.
  rewrite wtTorrents_webtorrent, (findByKey_heap tk s (webtorrent s)) by apply heap_webtorrent.
  by destruct (findByKey tk s (wtTorrents s)).
Qed.

Lemma lookup_Part000 tk s :
  Inv s →
  (∀ r, (Part000.getTorrentByKey tk s).1 = Some r → r ∈ _torrents s ∧ carries tk s r)
  ∧ ((∃ r, (Part000.getTorrentByKey tk s).1 = Some r) ↔ registeredKey tk s).
Proof.
  intros HI. rewrite getTorrentByKey_find_Part000.
  destruct HI as (-> & _). split; [apply findByKey_Some | apply findByKey_registered].
Qed.

Lemma lookup_ServerJs tk s :
  Inv s →
  (∀ r, (ServerJs.getTorrentByKey tk s).1 = inr r → r ∈ _torrents s ∧ carries tk s r)
  ∧ ((∃ r, (ServerJs.getTorrentByKey tk s).1 = inr r) ↔ registeredKey tk s).
Proof.
  intros HI. rewrite getTorrentByKey_find_ServerJs.
  destruct HI as (-> & _). rewrite <- findByKey_registered. split.
  - intros r. destruct (findByKey tk s (_torrents s)) as [r'|] eqn:Hf; [|done].
    intros [= <-]. by apply findByKey_Some.
  - destruct (findByKey tk s (_torrents s)) as [r'|]; split; intros [r Hr]; eauto; done.
Qed.

End Lookup.


(** ** A create-server message for a key that is not located *)

Lemma registeredKey_agree tk s s' :
  _torrents s' = _torrents s → heap s' = heap s → registeredKey tk s' ↔ registeredKey tk s.
Proof. intros Ht Hh. unfold registeredKey, carries, clientsOf. by rewrite Ht, Hh. Qed.

Lemma getClient_member ck s c : getClient ck s = Some c → ck ∈ clientKeys s.
Proof.
  intros H. pose proof (getClient_key _ _ _ H) as <-.
  unfold getClient in H. apply find_some in H as [Hin _].
  unfold clientKeys. apply list_elem_of_fmap. exists c. split; [done|]. by apply list_elem_of_In.
Qed.

Lemma webtorrent_field s :
  _webtorrent (webtorrent s) = Some (default {| torrents := [] |} (_webtorrent s)).
Proof. unfold webtorrent. destruct (_webtorrent s) eqn:H; simpl; by rewrite ?H. Qed.

Section UnknownKey.
Context {parser : Parser}.

Lemma touchClient_member_Part000 now m s :
  clientKey m ∈ clientKeys (Part000.touchClient now m s).
Proof.
  destruct (getClient (clientKey m) s) as [c|] eqn:Hc.
  - rewrite (touchClient_known_Part000 _ _ _ _ Hc). by eapply getClient_member.
  - eapply getClient_member. by apply touchClient_new_Part000.
Qed.

Lemma touchClient_frame_Part000 now m s :
  _torrents (Part000.touchClient now m s) = _torrents s
  ∧ heap (Part000.touchClient now m s) = heap s
  ∧ timers (Part000.touchClient now m s) = timers s
  ∧ _webtorrent (Part000.touchClient now m s) = _webtorrent s
  ∧ sent (Part000.touchClient now m s) = sent s
  ∧ calls (Part000.touchClient now m s) = calls s.
Proof.
  unfold Part000.touchClient. destruct (getClient _ _); [done|]. simpl.
  destruct (sameState_traceLog (LogAddingClient (clientKey m)) s)
    as (_ & -> & _ & -> & -> & -> & ->).
  by rewrite traceLog_sent.
Qed.

Lemma touchClient_frame_ServerJs now m s :
  _torrents (ServerJs.touchClient now m s) = _torrents s
  ∧ heap (ServerJs.touchClient now m s) = heap s
  ∧ timers (ServerJs.touchClient now m s) = timers s
  ∧ _webtorrent (ServerJs.touchClient now m s) = _webtorrent s
  ∧ sent (ServerJs.touchClient now m s) = sent s
  ∧ calls (ServerJs.touchClient now m s) = calls s.
Proof. unfold ServerJs.touchClient. by destruct (getClient _ _). Qed.

Lemma createServer_unknown_Part000 now m s :
  Inv s → type m = "create-server" → ¬ registeredKey (torrentKey m) s →
  warnedOutcome m s (Part000.touchClient now m s) (Part000.receive now m s).
Proof.
  intros HI Hty Hnr. unfold Part000.receive. rewrite Hty. simpl.
  destruct (touchClient_frame_Part000 now m s) as (Ft & Fh & Ftm & Fw & Fs & _).
  pose proof (Inv_touchClient_Part000 now m s HI) as HI1.
  pose proof (touchClient_member_Part000 now m s) as Hmem.
  set (s1 := Part000.touchClient now m s) in *.
  assert (findByKey (torrentKey m) s1 (wtTorrents s1) = None) as Hf.
  { destruct (findByKey (torrentKey m) s1 (wtTorrents s1)) as [r|] eqn:Hf; [|done].
    exfalso. apply Hnr. apply (registeredKey_agree _ s s1 Ft Fh).
    destruct HI1 as (I1 & _). rewrite I1 in Hf. apply findByKey_registered. eauto. }
  unfold Part000.handleCreateServer, Part000.getTorrentByKey.
  rewrite wtTorrents_webtorrent, (findByKey_heap _ s1 (webtorrent s1)) by apply heap_webtorrent.
  rewrite Hf. unfold sendError. rewrite sendToAllClients_sendAll.
  unfold warnedOutcome. simpl.
  destruct (quiet_webtorrent s1 s1 (quiet_refl s1)) as ((_ & Hc & Htm') & Ht' & _).
  rewrite Hc, Ht', Htm', heap_webtorrent, webtorrent_field, Ft, Fh, Ftm, Fw.
  repeat split; try done.
  replace (sent (webtorrent s1)) with (sent s); [done|].
  unfold webtorrent. destruct (_webtorrent s1); simpl; by rewrite Fs.
Qed.

Lemma createServer_unknown_ServerJs now m s :
  Inv s → type m = "create-server" → ¬ registeredKey (torrentKey m) s →
  thrownOutcome m s (ServerJs.touchClient now m s) (ServerJs.receive now m s).
Proof.
  intros HI Hty Hnr. unfold ServerJs.receive. rewrite Hty. simpl.
  destruct (touchClient_frame_ServerJs now m s) as (Ft & Fh & Ftm & Fw & Fs & _).
  pose proof (Inv_touchClient_ServerJs now m s HI) as HI1.
  set (s1 := ServerJs.touchClient now m s) in *.
  assert (findByKey (torrentKey m) s1 (wtTorrents s1) = None) as Hf.
  { destruct (findByKey (torrentKey m) s1 (wtTorrents s1)) as [r|] eqn:Hf; [|done].
    exfalso. apply Hnr. apply (registeredKey_agree _ s s1 Ft Fh).
    destruct HI1 as (I1 & _). rewrite I1 in Hf. apply findByKey_registered. eauto. }
  unfold ServerJs.handleCreateServer, ServerJs.getTorrentByKey.
  rewrite wtTorrents_webtorrent, (findByKey_heap _ s1 (webtorrent s1)) by apply heap_webtorrent.
  rewrite Hf. unfold thrownOutcome. simpl.
  destruct (quiet_webtorrent s1 s1 (quiet_refl s1)) as ((_ & Hc & Htm') & Ht' & _).
  rewrite Hc, Ht', Htm', heap_webtorrent, webtorrent_field, Ft, Fh, Ftm, Fw.
  repeat split; try done.
  unfold webtorrent. destruct (_webtorrent s1); simpl; by rewrite Fs.
Qed.

End UnknownKey.


Lemma reachable_knowsAB_Part000 : reachable (@stepPart000 hashParser) Examples.knowsAB.
Proof.
  assert (Examples.knowsAB
          = @stepPart000 hashParser (EvReceive 1000 (Examples.beat "b"))
              (@stepPart000 hashParser (EvReceive 0 (Examples.beat "a"))
                 (newServer Examples.defaults))) as ->
    by (vm_compute; reflexivity).
  do 2 apply reachable_step. apply reachable_new.
Qed.

Lemma reachable_knowsAB_ServerJs : reachable (@stepServerJs hashParser) Examples.knowsAB.
Proof.
  assert (Examples.knowsAB
          = @stepServerJs hashParser (EvReceive 1000 (Examples.beat "b"))
              (@stepServerJs hashParser (EvReceive 0 (Examples.beat "a"))
                 (newServer Examples.defaults))) as ->
    by (vm_compute; reflexivity).
  do 2 apply reachable_step. apply reachable_new.
Qed.


(** ** Subscribe *)

Section Subscribe.
Context {parser : Parser}.

(** When the parser throws, [handleSubscribe] throws with it, in both
    sources: there is no handler around the call. *)
Lemma handleSubscribe_parse_throws m s :
  parseTorrent (torrentID m) = None →
  Part000.handleSubscribe m s = (Thrown "Invalid torrent identifier", s)
  ∧ ServerJs.handleSubscribe m s = (Thrown "Invalid torrent identifier", s).
Proof. intros H. unfold Part000.handleSubscribe, ServerJs.handleSubscribe. by rewrite H. Qed.

(** When the identifier parses to a fingerprint that no registered swarm
    has, [handleSubscribe] answers 'torrent-subscribed' with [torrent: null]
    and the keys of the sender and changes nothing else: in particular no
    engine instance is created. *)
Lemma handleSubscribe_not_joined m s h :
  Inv s → parseTorrent (torrentID m) = Some h →
  (∀ r, r ∈ _torrents s → infoHashOf s r ≠ Some h) →
  let response :=
    {| o_type := "torrent-subscribed"; o_torrent := TorrentNull; o_error := None;
       o_serverURL := None; o_clientKey := Some (clientKey m);
       o_torrentKey := torrentKey m |} in
  Part000.handleSubscribe m s = (Returned, _send response s)
  ∧ ServerJs.handleSubscribe m s = (Returned, _send response s)
  ∧ _webtorrent (_send response s) = _webtorrent s.
Proof.
  intros (I1 & _) Hp Hnone response.
  assert (findByInfoHash h s (wtTorrents s) = None) as Hf.
  { destruct (findByInfoHash h s (wtTorrents s)) as [r|] eqn:Hf; [|done].
    exfalso. apply findByInfoHash_Some in Hf as [Hin (t & Ht & Hi)].
    rewrite I1 in Hin. apply (Hnone r Hin). unfold infoHashOf. rewrite Ht. simpl. by rewrite Hi. }
  unfold Part000.handleSubscribe, ServerJs.handleSubscribe. rewrite Hp, Hf. done.
Qed.

End Subscribe.

(** C5. The failing input: a subscribe message without [torrentID], sent
    to a new server. The parser throws on the absent identifier, and
    [receive] throws with it in both sources: the sender is registered,
    but no 'torrent-subscribed' message is sent. *)
Theorem C5_absent_identifier_throws :
  let m := Examples.msg "subscribe" "a" (Some "k") None None in
  let registered :=
    with__clients [{| cl_clientKey := "a"; heartbeat := 0 |}] (newServer Examples.defaults) in
  @Part000.receive hashParser 0 m (newServer Examples.defaults)
    = (Thrown "Invalid torrent identifier", registered)
  ∧ @ServerJs.receive hashParser 0 m (newServer Examples.defaults)
    = (Thrown "Invalid torrent identifier", registered)
  ∧ sent registered = [].
Proof. vm_compute. repeat split. Qed.
(** ** The server of a torrent is started once *)

Lemma webtorrent_listed s r : r ∈ wtTorrents s → webtorrent s = s.
Proof.
  unfold wtTorrents, webtorrent. destruct (_webtorrent s); [done|].
  intros H. by apply elem_of_nil in H.
Qed.

Lemma findByKey_alter tk s h' l r f :
  keepsClientsOfTorrent f → h' = alter f r (heap s) →
  List.find (λ r', match h' !! r' with
                   | Some t => hasTorrentKey t tk
                   | None => false
                   end) l
  = findByKey tk s l.
Proof.
  intros Hf ->. unfold findByKey. induction l as [|x l IH]; simpl; [done|].
  rewrite IH. rewrite list_lookup_alter.
  destruct (decide (r = x)) as [->|]; [|done].
  destruct (heap s !! x) as [t|]; simpl; [|done].
  unfold hasTorrentKey. by rewrite Hf.
Qed.

Section SingleFlightPart000.
Context {parser : Parser}.

(** The requests of a list of create-server messages, as callbacks. *)
Lemma createServer_lookup_Part000 now m s s0 r f :
  type m = "create-server" →
  findByKey (torrentKey m) s0 (wtTorrents s0) = Some r →
  keepsClientsOfTorrent f → heap s = alter f r (heap s0) → _webtorrent s = _webtorrent s0 →
  let s1 := Part000.touchClient now m s in
  (Part000.receive now m s).2
  = Part000.createServer r (ServerReady r (clientKey m) (torrentKey m)) s1
  ∧ heap s1 = heap s ∧ sent s1 = sent s ∧ calls s1 = calls s
  ∧ _webtorrent s1 = _webtorrent s.
Proof.
  intros Hty Hf Hkf Hh Hw s1.
  destruct (touchClient_frame_Part000 now m s) as (Ft & Fh & Ftm & Fw & Fs & Fc).
  fold s1 in Ft, Fh, Ftm, Fw, Fs, Fc.
  split; [|done].
  unfold Part000.receive. rewrite Hty. simpl. fold s1.
  unfold Part000.handleCreateServer, Part000.getTorrentByKey.
  assert (wtTorrents s1 = wtTorrents s0) as Hwt by (unfold wtTorrents; by rewrite Fw, Hw).
  assert (webtorrent s1 = s1) as ->.
  { apply (webtorrent_listed s1 r). rewrite Hwt. by apply findByKey_Some in Hf as [? _]. }
  rewrite Hwt.
  assert (findByKey (torrentKey m) s1 (wtTorrents s0) = Some r) as ->; [|done].
  rewrite <- Hf. unfold findByKey at 1. rewrite Fh.
  by apply (findByKey_alter _ s0 _ _ r f).
Qed.

Lemma createServer_first r cb s t :
  heap s !! r = Some t → serverURL t = None → pendingServerCallbacks t = None →
  Part000.createServer r cb s
  = called (CallListen r) (called (CallCreateServer r)
      (updTorrent r (with_pendingServerCallbacks (Some [cb])) s)).
Proof. intros Ht Hu Hp. unfold Part000.createServer. by rewrite Ht, Hu, Hp. Qed.

Lemma createServer_pending r cb s t cbs :
  heap s !! r = Some t → serverURL t = None → pendingServerCallbacks t = Some cbs →
  Part000.createServer r cb s
  = updTorrent r (with_pendingServerCallbacks (Some (cbs ++ [cb]))) s.
Proof. intros Ht Hu Hp. unfold Part000.createServer. by rewrite Ht, Hu, Hp. Qed.

Lemma createServer_ready r ck tk s t url :
  heap s !! r = Some t → serverURL t = Some url →
  Part000.createServer r (ServerReady r ck tk) s = _send (serverReady ck tk (Some url)) s.
Proof. intros Ht Hu. unfold Part000.createServer. rewrite Ht, Hu. simpl. by rewrite Ht; simpl; rewrite Hu. Qed.

End SingleFlightPart000.
Lemma alter_twice {A} (f g : A → A) (h : A → A) (l : list A) (r : nat) :
  (∀ x, g (f x) = h x) → alter g r (alter f r l) = alter h r l.
Proof. intros H. rewrite list_alter_alter_eq. apply list_alter_ext; [|done]. intros x _. apply H. Qed.

Section SingleFlightRunPart000.
Context {parser : Parser}.

Lemma pending_run_Part000 r t s0 reqs :
  heap s0 !! r = Some t → serverURL t = None →
  (∀ p, p ∈ reqs → asksFor r s0 p.2) →
  ∀ s cbs,
    heap s = alter (with_pendingServerCallbacks (Some cbs)) r (heap s0) →
    _webtorrent s = _webtorrent s0 →
    let sN := run stepPart000 (arrivals reqs) s in
    heap sN = alter (with_pendingServerCallbacks (Some (cbs ++ waitingCallbacks r reqs))) r (heap s0)
    ∧ sent sN = sent s ∧ calls sN = calls s ∧ _webtorrent sN = _webtorrent s0.
Proof.
  intros Ht Hu. induction reqs as [|[now m] reqs IH]; intros Hall s cbs Hh Hw; simpl.
  - by rewrite app_nil_r.
  - destruct (Hall (now, m)) as [Hty Hf]; [apply list_elem_of_here|]. simpl in Hty, Hf.
    destruct (createServer_lookup_Part000 now m s s0 r
                (with_pendingServerCallbacks (Some cbs)) Hty Hf
                (λ _, eq_refl) Hh Hw) as (Hrec & Fh & Fs & Fc & Fw).
    rewrite Hrec.
    set (s1 := Part000.touchClient now m s) in *.
    assert (heap s1 !! r = Some (with_pendingServerCallbacks (Some cbs) t)) as Ht1.
    { rewrite Fh, Hh, list_lookup_alter_eq, Ht. done. }
    rewrite (createServer_pending r _ s1 _ cbs Ht1) by done.
    match goal with |- context [run _ _ ?s2] =>
      destruct (IH (λ p Hp, Hall p (list_elem_of_further _ _ _ Hp)) s2
                  (cbs ++ [ServerReady r (clientKey m) (torrentKey m)]))
        as (Ih & Is & Ic & Iw) end.
    + simpl. rewrite Fh, Hh. by apply alter_twice.
    + simpl. by rewrite Fw.
    + unfold run in *. rewrite Ih, Is, Ic, Iw. simpl. rewrite Fs, Fc, <- app_assoc. done.
Qed.

Lemma notify_all_Part000 r url reqs s :
  (heap s !! r ≫= serverURL) = Some url →
  foldl (λ s' cb, Part000.callCallback cb s') s (waitingCallbacks r reqs)
  = sendAll (notifications url reqs) s.
Proof.
  revert s. induction reqs as [|[now m] reqs IH]; intros s Hu; simpl.
  - by rewrite sendAll_nil.
  - rewrite IH by done. rewrite Hu, send_sendAll, sendAll_app. done.
Qed.

Lemma singleFlight_Part000 r t s first rest port :
  heap s !! r = Some t → serverURL t = None → pendingServerCallbacks t = None →
  (∀ p, p ∈ first :: rest → asksFor r s p.2) →
  singleFlight stepPart000 Part000.receive
    (λ t, bool_decide (pendingServerCallbacks t ≠ None)) r s (first :: rest) port.
Proof.
  intros Ht Hu Hp Hall. destruct first as [now m].
  destruct (Hall (now, m)) as [Hty Hf]; [apply list_elem_of_here|]. simpl in Hty, Hf.
  destruct (createServer_lookup_Part000 now m s s r id Hty Hf (λ _, eq_refl))
    as (Hrec & Fh & Fs & Fc & Fw); [by rewrite list_alter_id|done|].
  set (s1 := Part000.touchClient now m s) in *.
  assert (heap s1 !! r = Some t) as Ht1 by (by rewrite Fh).
  rewrite (createServer_first r _ s1 t Ht1 Hu Hp) in Hrec.
  set (cb := ServerReady r (clientKey m) (torrentKey m)) in *.
  destruct (pending_run_Part000 r t s rest Ht Hu
              (λ p Hp, Hall p (list_elem_of_further _ _ _ Hp))
              (Part000.receive now m s).2 [cb]) as (Nh & Ns & Nc & Nw).
  { rewrite Hrec. simpl. by rewrite Fh. }
  { rewrite Hrec. simpl. by rewrite Fw. }
  cbv zeta in Nh, Ns, Nc, Nw.
  assert (calls (Part000.receive now m s).2 = calls s ++ [CallCreateServer r; CallListen r])
    as Hc1 by (rewrite Hrec; simpl; rewrite Fc; by rewrite <- app_assoc).
  assert (sent (Part000.receive now m s).2 = sent s) as Hs1 by (by rewrite Hrec).
  unfold singleFlight. cbv zeta.
  change (run stepPart000 (arrivals ((now, m) :: rest)) s)
    with (run stepPart000 (arrivals rest) (Part000.receive now m s).2).
  set (sN := run stepPart000 (arrivals rest) (Part000.receive now m s).2) in *.
  set (url := "http://localhost:" +:+ port).
  assert (heap sN !! r
          = Some (with_pendingServerCallbacks
                    (Some (waitingCallbacks r ((now, m) :: rest))) t)) as HtN.
  { rewrite Nh, list_lookup_alter_eq, Ht. done. }
  (* the completion of the listen *)
  assert (stepPart000 (EvListening r port) sN
          = updTorrent r (with_pendingServerCallbacks None)
              (sendAll (notifications url ((now, m) :: rest))
                 (updTorrent r (with_serverURL (Some url)) sN))) as HL.
  { simpl. unfold Part000.onListening. rewrite HtN. simpl.
    f_equal. apply (notify_all_Part000 r url ((now, m) :: rest)).
    simpl. rewrite list_lookup_alter_eq, HtN. done. }
  rewrite HL.
  split; [by rewrite Nc, Hc1|]. split; [by rewrite Ns, Hs1|].
  split; [done|]. split; [simpl; by rewrite Ns, Hs1|].
  split.
  { eexists. split; [|split].
    - simpl. rewrite list_lookup_alter_eq, list_lookup_alter_eq, HtN. reflexivity.
    - reflexivity.
    - reflexivity. }
  (* a request after the completion *)
  intros now' m' [Hty' Hf'].
  match goal with |- context [Part000.receive now' m' ?x] => set (sL := x) end.
  destruct (createServer_lookup_Part000 now' m' sL s r
              (with_pendingServerCallbacks None ∘ with_serverURL (Some url)
               ∘ with_pendingServerCallbacks (Some (waitingCallbacks r ((now, m) :: rest))))
              Hty' Hf' (λ _, eq_refl))
    as (Hrec' & Fh' & Fs' & Fc' & Fw').
  { subst sL. simpl. rewrite Nh. rewrite !list_alter_alter_eq. done. }
  { subst sL. simpl. done. }
  rewrite Hrec'.
  erewrite createServer_ready.
  - simpl. rewrite Fs', Fc'. done.
  - rewrite Fh'. subst sL. simpl.
    rewrite list_lookup_alter_eq, list_lookup_alter_eq, HtN. reflexivity.
  - reflexivity.
Qed.

End SingleFlightRunPart000.
Section SingleFlightServerJs.
Context {parser : Parser}.

Lemma createServer_lookup_ServerJs now m s s0 r f :
  type m = "create-server" →
  findByKey (torrentKey m) s0 (wtTorrents s0) = Some r →
  keepsClientsOfTorrent f → heap s = alter f r (heap s0) → _webtorrent s = _webtorrent s0 →
  let s1 := ServerJs.touchClient now m s in
  let waiter := {| c_clientKey := clientKey m; c_torrentKey := torrentKey m |} in
  (ServerJs.receive now m s).2
  = match heap s1 !! r with
    | Some t =>
        match serverURL t with
        | Some url => _send (serverReady (clientKey m) (torrentKey m) (Some url)) s1
        | None =>
            match pendingHttpClients t with
            | Some waiters =>
                updTorrent r (with_pendingHttpClients (Some (waiters ++ [waiter]))) s1
            | None =>
                called (CallListen r) (called (CallCreateServer r)
                  (updTorrent r (with_pendingHttpClients (Some [waiter])) s1))
            end
        end
    | None => s1
    end
  ∧ heap s1 = heap s ∧ sent s1 = sent s ∧ calls s1 = calls s
  ∧ _webtorrent s1 = _webtorrent s.
Proof.
  intros Hty Hf Hkf Hh Hw s1 waiter.
  destruct (touchClient_frame_ServerJs now m s) as (Ft & Fh & Ftm & Fw & Fs & Fc).
  fold s1 in Ft, Fh, Ftm, Fw, Fs, Fc.
  split; [|done].
  unfold ServerJs.receive. rewrite Hty. simpl. fold s1.
  unfold ServerJs.handleCreateServer, ServerJs.getTorrentByKey.
  assert (wtTorrents s1 = wtTorrents s0) as Hwt by (unfold wtTorrents; by rewrite Fw, Hw).
  assert (webtorrent s1 = s1) as ->.
  { apply (webtorrent_listed s1 r). rewrite Hwt. by apply findByKey_Some in Hf as [? _]. }
  rewrite Hwt.
  assert (findByKey (torrentKey m) s1 (wtTorrents s0) = Some r) as ->.
  { rewrite <- Hf. unfold findByKey at 1. rewrite Fh.
    by apply (findByKey_alter _ s0 _ _ r f). }
  destruct (heap s1 !! r) as [t|]; [|done].
  destruct (serverURL t); [done|]. by destruct (pendingHttpClients t).
Qed.

Lemma pending_run_ServerJs r t s0 reqs :
  heap s0 !! r = Some t → serverURL t = None →
  (∀ p, p ∈ reqs → asksFor r s0 p.2) →
  ∀ s ws,
    heap s = alter (with_pendingHttpClients (Some ws)) r (heap s0) →
    _webtorrent s = _webtorrent s0 →
    let sN := run stepServerJs (arrivals reqs) s in
    heap sN = alter (with_pendingHttpClients (Some (ws ++ waitingClients reqs))) r (heap s0)
    ∧ sent sN = sent s ∧ calls sN = calls s ∧ _webtorrent sN = _webtorrent s0.
Proof.
  intros Ht Hu. induction reqs as [|[now m] reqs IH]; intros Hall s ws Hh Hw; simpl.
  - by rewrite app_nil_r.
  - destruct (Hall (now, m)) as [Hty Hf]; [apply list_elem_of_here|]. simpl in Hty, Hf.
    destruct (createServer_lookup_ServerJs now m s s0 r
                (with_pendingHttpClients (Some ws)) Hty Hf
                (λ _, eq_refl) Hh Hw) as (Hrec & Fh & Fs & Fc & Fw).
    rewrite Hrec.
    set (s1 := ServerJs.touchClient now m s) in *.
    assert (heap s1 !! r = Some (with_pendingHttpClients (Some ws) t)) as Ht1.
    { rewrite Fh, Hh, list_lookup_alter_eq, Ht. done. }
    rewrite Ht1. simpl. rewrite Hu.
    match goal with |- context [run _ _ ?s2] =>
      destruct (IH (λ p Hp, Hall p (list_elem_of_further _ _ _ Hp)) s2
                  (ws ++ [{| c_clientKey := clientKey m; c_torrentKey := torrentKey m |}]))
        as (Ih & Is & Ic & Iw) end.
    + simpl. rewrite Fh, Hh. by apply alter_twice.
    + simpl. by rewrite Fw.
    + unfold run in *. rewrite Ih, Is, Ic, Iw. simpl. rewrite Fs, Fc, <- app_assoc. done.
Qed.

Lemma singleFlight_ServerJs r t s first rest port :
  heap s !! r = Some t → serverURL t = None → pendingHttpClients t = None →
  (∀ p, p ∈ first :: rest → asksFor r s p.2) →
  singleFlight stepServerJs ServerJs.receive
    (λ t, bool_decide (pendingHttpClients t ≠ None)) r s (first :: rest) port.
Proof.
  intros Ht Hu Hp Hall. destruct first as [now m].
  destruct (Hall (now, m)) as [Hty Hf]; [apply list_elem_of_here|]. simpl in Hty, Hf.
  destruct (createServer_lookup_ServerJs now m s s r id Hty Hf (λ _, eq_refl))
    as (Hrec & Fh & Fs & Fc & Fw); [by rewrite list_alter_id|done|].
  set (s1 := ServerJs.touchClient now m s) in *.
  assert (heap s1 !! r = Some t) as Ht1 by (by rewrite Fh).
  rewrite Ht1, Hu, Hp in Hrec.
  set (w := {| c_clientKey := clientKey m; c_torrentKey := torrentKey m |}) in *.
  destruct (pending_run_ServerJs r t s rest Ht Hu
              (λ p Hp, Hall p (list_elem_of_further _ _ _ Hp))
              (ServerJs.receive now m s).2 [w]) as (Nh & Ns & Nc & Nw).
  { rewrite Hrec. simpl. by rewrite Fh. }
  { rewrite Hrec. simpl. by rewrite Fw. }
  cbv zeta in Nh, Ns, Nc, Nw.
  assert (calls (ServerJs.receive now m s).2 = calls s ++ [CallCreateServer r; CallListen r])
    as Hc1 by (rewrite Hrec; simpl; rewrite Fc; by rewrite <- app_assoc).
  assert (sent (ServerJs.receive now m s).2 = sent s) as Hs1 by (by rewrite Hrec).
  unfold singleFlight. cbv zeta.
  change (run stepServerJs (arrivals ((now, m) :: rest)) s)
    with (run stepServerJs (arrivals rest) (ServerJs.receive now m s).2).
  set (sN := run stepServerJs (arrivals rest) (ServerJs.receive now m s).2) in *.
  set (url := "http://localhost:" +:+ port).
  assert (heap sN !! r
          = Some (with_pendingHttpClients (Some (waitingClients ((now, m) :: rest))) t)) as HtN.
  { rewrite Nh, list_lookup_alter_eq, Ht. done. }
  assert (stepServerJs (EvListening r port) sN
          = updTorrent r (with_pendingHttpClients None)
              (sendAll (notifications url ((now, m) :: rest))
                 (updTorrent r (with_serverURL (Some url)) sN))) as HL.
  { simpl. unfold ServerJs.onListening. rewrite HtN. simpl.
    f_equal. rewrite !send_sendAll.
    rewrite (foldl_send (λ w, serverReady (c_clientKey w) (c_torrentKey w) (Some url))).
    rewrite sendAll_app. f_equal. simpl. f_equal.
    unfold waitingClients, notifications. by rewrite map_map. }
  rewrite HL.
  split; [by rewrite Nc, Hc1|]. split; [by rewrite Ns, Hs1|].
  split; [done|]. split; [simpl; by rewrite Ns, Hs1|].
  split.
  { eexists. split; [|split].
    - simpl. rewrite list_lookup_alter_eq, list_lookup_alter_eq, HtN. reflexivity.
    - reflexivity.
    - reflexivity. }
  intros now' m' [Hty' Hf'].
  match goal with |- context [ServerJs.receive now' m' ?x] => set (sL := x) end.
  destruct (createServer_lookup_ServerJs now' m' sL s r
              (with_pendingHttpClients None ∘ with_serverURL (Some url)
               ∘ with_pendingHttpClients (Some (waitingClients ((now, m) :: rest))))
              Hty' Hf' (λ _, eq_refl))
    as (Hrec' & Fh' & Fs' & Fc' & Fw').
  { subst sL. simpl. rewrite Nh. rewrite !list_alter_alter_eq. done. }
  { subst sL. simpl. done. }
  rewrite Hrec'.
  assert (heap (ServerJs.touchClient now' m' sL) !! r
          = Some (with_pendingHttpClients None (with_serverURL (Some url)
                    (with_pendingHttpClients (Some (waitingClients ((now, m) :: rest))) t))))
    as ->.
  { rewrite Fh'. subst sL. simpl.
    rewrite list_lookup_alter_eq, list_lookup_alter_eq, HtN. reflexivity. }
  simpl. by rewrite Fs', Fc'.
Qed.

End SingleFlightServerJs.

(** C3. Server provisioning is single-flight. Take a swarm [r] that has
    no server URL and no pending listen, and one or more create-server
    messages that the lookup resolves to [r], handled one after the other
    before the listen completes. Then, in part_000 and in server.js:
    [createServer] and [listen] are called exactly once and no message is
    sent meanwhile; when the listen completes on [port], the swarm records
    the URL ['http://localhost:' + port], every requester is sent exactly
    one 'server-ready' message with that URL, in the order of the
    requests, and the waiter list is cleared; and a create-server message
    for [r] that is handled afterwards is answered at once with the
    recorded URL and causes no call to the engine. *)
Theorem C3_single_flight :
  ∀ (parser : Parser) (r : TorrentRef) (t : Torrent) (s : Server)
    (first : Z * Message) (rest : list (Z * Message)) (port : string),
    heap s !! r = Some t → serverURL t = None →
    (∀ p, p ∈ first :: rest → asksFor r s p.2) →
    (pendingServerCallbacks t = None →
       singleFlight stepPart000 Part000.receive
         (λ t, bool_decide (pendingServerCallbacks t ≠ None)) r s (first :: rest) port)
    ∧ (pendingHttpClients t = None →
       singleFlight stepServerJs ServerJs.receive
         (λ t, bool_decide (pendingHttpClients t ≠ None)) r s (first :: rest) port).
Proof.
  intros parser r t s first rest port Ht Hu Hall. split; intros Hp.
  - by eapply singleFlight_Part000.
  - by eapply singleFlight_ServerJs.
Qed.
Lemma C3_witness :
  singleFlight (@stepPart000 hashParser) (@Part000.receive hashParser)
    (λ t, bool_decide (pendingServerCallbacks t ≠ None)) 0%nat Examples.afterAB_Part000
    (Examples.firstRequest :: Examples.threeRequests) "8080"
  ∧ singleFlight (@stepServerJs hashParser) (@ServerJs.receive hashParser)
      (λ t, bool_decide (pendingHttpClients t ≠ None)) 0%nat Examples.afterAB_ServerJs
      (Examples.firstRequest :: Examples.threeRequests) "8080".
Proof.
  assert (∀ s, wtTorrents s = [0%nat] → heap s = [Examples.torrentX] →
            ∀ p, p ∈ Examples.firstRequest :: Examples.threeRequests → asksFor 0%nat s p.2)
    as Hasks.
  { intros s Hw Hh p Hp. unfold asksFor, findByKey. rewrite Hw, Hh.
    repeat (apply elem_of_cons in Hp as [->|Hp]; [split; reflexivity|]).
    by apply elem_of_nil in Hp. }
  split.
  - apply (proj1 (C3_single_flight hashParser 0%nat Examples.torrentX Examples.afterAB_Part000
                    Examples.firstRequest Examples.threeRequests "8080"
                    eq_refl eq_refl (Hasks Examples.afterAB_Part000 eq_refl eq_refl))).
    reflexivity.
  - apply (proj2 (C3_single_flight hashParser 0%nat Examples.torrentX Examples.afterAB_ServerJs
                    Examples.firstRequest Examples.threeRequests "8080"
                    eq_refl eq_refl (Hasks Examples.afterAB_ServerJs eq_refl eq_refl))).
    reflexivity.
Defined.

(** The run of the witness, computed: one listen, three notifications. *)
Example single_flight_run :
  let sN := run (@stepPart000 hashParser)
              (arrivals (Examples.firstRequest :: Examples.threeRequests))
              Examples.afterAB_Part000 in
  let sL := @stepPart000 hashParser (EvListening 0%nat "8080") sN in
  filter (λ c, c = CallListen 0%nat) (calls sL) = [CallListen 0%nat]
  ∧ drop (length (sent Examples.afterAB_Part000)) (sent sL)
    = [serverReady "a" (Some "k1") (Some "http://localhost:8080");
       serverReady "b" (Some "k2") (Some "http://localhost:8080");
       serverReady "a" (Some "k1") (Some "http://localhost:8080")].
Proof. vm_compute. split; reflexivity. Qed.


(** The scenario of the specification, computed on part_000: "a" and "b"
    have added X, and "a" sends a heartbeat at 29000. The sweep at 31500
    expires "b" only, and the swarm stays with the subscription of "a";
    the sweep at 60000 expires "a", the swarm is destroyed and the engine
    instance with it. The engine was asked to join once. *)
Example scenario_sweeps :
  let s2 := Examples.afterAB_Part000 in
  let s3 := (@Part000.receive hashParser 29000 (Examples.beat "a") s2).2 in
  let s4 := Part000.sendUpdates 31500 s3 in
  let s5 := Part000.sendUpdates 60000 s4 in
  clientKeys s4 = ["a"] ∧ _torrents s4 = [0%nat]
  ∧ clientsOf 0%nat s4 = [{| c_clientKey := "a"; c_torrentKey := Some "k1" |}]
  ∧ _webtorrent s4 = Some {| torrents := [0%nat] |}
  ∧ clientKeys s5 = [] ∧ _torrents s5 = [] ∧ _webtorrent s5 = None
  ∧ (destroyed <$> heap s5 !! 0%nat) = Some true
  ∧ joins s5 = [CallAdd (Some Examples.hashX) 0%nat].
Proof. vm_compute. repeat split; reflexivity. Qed.

Lemma C6_witness :
  let message := getProgressMessage Examples.torrentX "update" in
  clientsOf 0%nat Examples.afterAB_Part000 !! 1%nat
    = Some {| c_clientKey := "b"; c_torrentKey := Some "k2" |}
  ∧ ∃ m, map (assignClient message) (clientsOf 0%nat Examples.afterAB_Part000) !! 1%nat = Some m
         ∧ o_clientKey m = Some "b" ∧ o_torrentKey m = Some "k2"
         ∧ o_type m = "update" ∧ o_torrent m = o_torrent message.
Proof.
  intros message.
  assert (clientsOf 0%nat Examples.afterAB_Part000 !! 1%nat
          = Some {| c_clientKey := "b"; c_torrentKey := Some "k2" |}) as H by reflexivity.
  split; [exact H|].
  destruct (C6_fanout_one_message_per_subscription 0%nat message Examples.afterAB_Part000)
    as (_ & _ & _ & Hall).
  destruct (Hall 1%nat _ H) as (m & Hm & Hck & Htk & Hty & Hto & _).
  exists m. repeat split; assumption.
Defined.

Lemma filter_all_elem {A} (P : A → Prop) `{∀ x, Decision (P x)} (l : list A) :
  (∀ x, x ∈ l → P x) → l = filter P l.
Proof.
  intros HP. induction l as [|x l IH]; [done|].
  rewrite filter_cons_True by (apply HP, list_elem_of_here).
  f_equal. apply IH. intros y Hy. by apply HP, list_elem_of_further.
Qed.

(** The sweep of server.js: without the option there is no default, and
    no client is expired; with a timeout that is zero or negative
    likewise; with a positive timeout exactly the clients whose age
    exceeds it are expired. *)
Lemma sendUpdates_ServerJs_timeout now s :
  NoDup (clientKeys s) →
  (heartbeatTimeout (_options s) = None → sameState s (ServerJs.sendUpdates now s))
  ∧ (∀ t, heartbeatTimeout (_options s) = Some t → t ≤ 0 →
       sameState s (ServerJs.sendUpdates now s))
  ∧ (∀ t, heartbeatTimeout (_options s) = Some t → 0 < t →
       _clients (ServerJs.sendUpdates now s)
       = filter (λ c, now - heartbeat c ≤ t) (_clients s)).
Proof.
  intros Hnd. unfold ServerJs.sendUpdates. split; [|split].
  - intros ->. apply sameState_updates.
  - intros t -> Ht. rewrite bool_decide_eq_false_2 by lia. apply sameState_updates.
  - intros t -> Ht. rewrite bool_decide_eq_true_2 by lia.
    match goal with |- _clients (foldl _ ?s1 _) = _ =>
      destruct (sameState_updates s1) as (_ & _ & -> & _) end.
    destruct (filter (λ c, now - heartbeat c > t) (_clients s)) as [|d ds] eqn:Hd.
    + rewrite removeDeadClients_none by done.
      apply filter_all_elem. intros c Hc.
      destruct (decide (now - heartbeat c ≤ t)) as [|Hn]; [done|]. exfalso.
      eapply (filter_nil_not_elem_of _ _ c Hd); [lia|done].
    + destruct (removeDeadClients_teardown now t s) as (_ & _ & _ & -> & _);
        [by rewrite Hd|].
      rewrite filter_by_key by done. apply list_filter_iff. intros c. lia.
Qed.


(** The sweep of the witness, computed: at 30500 with the default timeout
    "a" (age 30500) is expired and "b" (age 29500) is kept. *)
Example default_timeout_sweep :
  clientKeys (Part000.sendUpdates 30500 Examples.knowsAB) = ["b"]
  ∧ clientKeys (Part000.sendUpdates 30000 Examples.knowsAB) = ["a"; "b"]
  ∧ clientKeys (ServerJs.sendUpdates 99999 Examples.knowsAB) = ["a"; "b"].
Proof. vm_compute. repeat split; reflexivity. Qed.

(** Every event of a torrent is relayed through [sendToTorrentClients],
    so it reaches each subscription of the torrent exactly once. *)
Lemma relay_through_fanout r ev s t :
  heap s !! r = Some t →
  (∃ message, Part000.onTorrentEvent r ev s = sendToTorrentClients r message s)
  ∧ (∃ message, ServerJs.onTorrentEvent r ev s = sendToTorrentClients r message s).
Proof.
  intros Ht. split; destruct ev; simpl;
    unfold Part000.sendInfo, ServerJs.sendInfo, sendProgress; rewrite ?Ht; eauto.
Qed.
(** * The functions around the handlers *)

(** ** Observations that the plumbing leaves alone *)

Section Frame.
Context {X : Type} (obs : Server → X).
Hypothesis Hframed : framed obs.

Let obs_send : ∀ m s, obs (_send m s) = obs s := proj1 Hframed.
Let obs_log : ∀ d s, obs (log d s) = obs s := proj1 (proj2 Hframed).
Let obs_upd : ∀ r f s,
  keepsClientsOfTorrent f → keepsSkeleton f → obs (updTorrent r f s) = obs s
  := proj1 (proj2 (proj2 Hframed)).
Let obs_createServer : ∀ r s, obs (called (CallCreateServer r) s) = obs s
  := proj1 (proj2 (proj2 (proj2 Hframed))).
Let obs_listen : ∀ r s, obs (called (CallListen r) s) = obs s
  := proj2 (proj2 (proj2 (proj2 Hframed))).

Lemma frame_sendAll ms s : obs (sendAll ms s) = obs s.
Proof.
  rewrite <- (map_id ms), <- (foldl_send id). revert s.
  induction ms as [|m ms IH]; intros s; simpl; [done|]. by rewrite IH, obs_send.
Qed.

Lemma frame_foldl {A} (f : Server → A → Server) (l : list A) s :
  (∀ x s', obs (f s' x) = obs s') → obs (foldl f s l) = obs s.
Proof.
  intros Hf. revert s. induction l as [|x l IH]; intros s; simpl; [done|].
  by rewrite IH, Hf.
Qed.

Lemma frame_traceLog d s : obs (traceLog d s) = obs s.
Proof. unfold traceLog. by destruct (trace (_options s)). Qed.

Lemma frame_sendToTorrentClients r m s : obs (sendToTorrentClients r m s) = obs s.
Proof. by rewrite sendToTorrentClients_sendAll, frame_sendAll. Qed.

Lemma frame_sendToAllClients m s : obs (sendToAllClients m s) = obs s.
Proof. by rewrite sendToAllClients_sendAll, frame_sendAll. Qed.

Lemma frame_sendError r e ty s : obs (sendError r e ty s) = obs s.
Proof.
  unfold sendError. destruct r; [apply frame_sendToTorrentClients | apply frame_sendToAllClients].
Qed.

Lemma frame_sendProgress r ty s : obs (sendProgress r ty s) = obs s.
Proof.
  unfold sendProgress. destruct (heap s !! r); [apply frame_sendToTorrentClients | done].
Qed.

Lemma frame_updates s :
  obs (foldl (λ s' torrent, sendProgress torrent "update" s') s (_torrents s)) = obs s.
Proof. apply frame_foldl. intros. apply frame_sendProgress. Qed.

Lemma frame_onEngineEvent ev s : obs (onEngineEvent ev s) = obs s.
Proof. destruct ev; apply frame_sendError. Qed.

Lemma frame_onTorrentEvent r ev s :
  obs (Part000.onTorrentEvent r ev s) = obs s ∧ obs (ServerJs.onTorrentEvent r ev s) = obs s.
Proof.
  split; destruct ev;
    unfold Part000.onTorrentEvent, ServerJs.onTorrentEvent, Part000.sendInfo, ServerJs.sendInfo;
    first [ apply frame_sendProgress | apply frame_sendError
          | destruct (heap s !! r); [apply frame_sendToTorrentClients | reflexivity] ].
Qed.

Lemma frame_sendSubscribed r ck tk s : obs (Part000.sendSubscribed r ck tk s) = obs s.
Proof. apply obs_send. Qed.

Lemma frame_callCallback cb s : obs (Part000.callCallback cb s) = obs s.
Proof. destruct cb; apply obs_send. Qed.

Lemma frame_waiters (f : Torrent → Torrent) :
  (∀ t, clients (f t) = clients t ∧ infoHash (f t) = infoHash t ∧ destroyed (f t) = destroyed t) →
  ∀ r s, obs (updTorrent r f s) = obs s.
Proof. intros Hf r s. apply obs_upd; intros t; destruct (Hf t) as (? & ? & ?); done. Qed.

Lemma frame_createServer r cb s : obs (Part000.createServer r cb s) = obs s.
Proof.
  unfold Part000.createServer.
  destruct (heap s !! r) as [t|]; [|done].
  destruct (serverURL t); [apply frame_callCallback|].
  destruct (pendingServerCallbacks t).
  - by apply frame_waiters.
  - rewrite obs_listen, obs_createServer. by apply frame_waiters.
Qed.

Lemma frame_onListening_Part000 r port s : obs (Part000.onListening r port s) = obs s.
Proof.
  unfold Part000.onListening.
  destruct (heap s !! r ≫= pendingServerCallbacks); [|done].
  rewrite frame_waiters by done.
  rewrite frame_foldl by (intros; apply frame_callCallback).
  by apply frame_waiters.
Qed.

Lemma frame_onListening_ServerJs r port s : obs (ServerJs.onListening r port s) = obs s.
Proof.
  unfold ServerJs.onListening.
  destruct (heap s !! r ≫= pendingHttpClients); [|done].
  rewrite frame_waiters by done.
  rewrite frame_foldl by (intros; apply obs_send).
  by apply frame_waiters.
Qed.

Context {parser : Parser}.

Lemma frame_handleCreateServer_Part000 m s :
  obs (Part000.handleCreateServer m s) = obs (webtorrent s).
Proof.
  unfold Part000.handleCreateServer, Part000.getTorrentByKey.
  destruct (findByKey _ _ _); [apply frame_createServer | apply frame_sendError].
Qed.

Lemma frame_handleCreateServer_ServerJs m s :
  obs (ServerJs.handleCreateServer m s).2 = obs (webtorrent s).
Proof.
  unfold ServerJs.handleCreateServer, ServerJs.getTorrentByKey.
  destruct (findByKey _ _ _); simpl; [|done].
  destruct (heap (webtorrent s) !! _) as [t|]; [|done].
  destruct (serverURL t); simpl; [apply obs_send|].
  destruct (pendingHttpClients t); simpl.
  - by apply frame_waiters.
  - rewrite obs_listen, obs_createServer. by apply frame_waiters.
Qed.

Lemma frame_addTorrent_tail m r s3 :
  let res :=
    match options m with
    | None => (Thrown "TypeError: Cannot read property 'server' of undefined", s3)
    | Some o =>
        if opt_server o
        then (Returned, Part000.createServer r (Respond r (clientKey m) (torrentKey m)) s3)
        else (Returned, Part000.callCallback (Respond r (clientKey m) (torrentKey m)) s3)
    end in
  obs res.2 = obs s3.
Proof.
  simpl. destruct (options m) as [o|]; [|done].
  destruct (opt_server o); simpl; [apply frame_createServer | apply frame_sendSubscribed].
Qed.

End Frame.

Lemma subscriptions_framed : framed subscriptions.
Proof.
  unfold framed, subscriptions. repeat split; try done.
  intros r f s Hf _. unfold updTorrent. simpl.
  apply list_eq. intros i. rewrite !list_lookup_fmap, list_lookup_alter.
  case_decide; [subst|done].
  destruct (heap s !! i) as [t|]; simpl; [|done]. by rewrite Hf.
Qed.

Lemma filter_snoc_False {A} (P : A → Prop) `{∀ x, Decision (P x)} (l : list A) x :
  ¬ P x → filter P (l ++ [x]) = filter P l.
Proof. intros Hx. by rewrite filter_app, filter_cons_False, filter_nil, app_nil_r. Qed.

Lemma filter_snoc_True {A} (P : A → Prop) `{∀ x, Decision (P x)} (l : list A) x :
  P x → filter P (l ++ [x]) = filter P l ++ [x].
Proof. intros Hx. by rewrite filter_app, filter_cons_True, filter_nil. Qed.

Lemma engineLife_called c s :
  c ≠ CallNew → c ≠ CallDestroy → engineLife (called c s) = engineLife s.
Proof.
  intros H1 H2. unfold engineLife, created, shutDown. simpl.
  by rewrite !filter_snoc_False.
Qed.

Lemma engineLife_framed : framed engineLife.
Proof.
  repeat split; try done; intros; by apply engineLife_called.
Qed.

Lemma clientsOf_subscriptions r s : clientsOf r s = default [] (subscriptions s !! r).
Proof.
  unfold clientsOf, subscriptions. rewrite list_lookup_fmap. by destruct (heap s !! r).
Qed.

Lemma keepsSubs_subscriptions s s' : subscriptions s' = subscriptions s → keepsSubs s s'.
Proof. intros H r. by rewrite !clientsOf_subscriptions, H. Qed.

Lemma oneInstance_engineLife s s' : engineLife s' = engineLife s → oneInstance s → oneInstance s'.
Proof. unfold engineLife, oneInstance. intros [= H1 H2 H3]. by rewrite H1, H2, H3. Qed.

Lemma oneInstance_webtorrent s : oneInstance s → oneInstance (webtorrent s).
Proof.
  unfold oneInstance, webtorrent, created, shutDown.
  destruct (_webtorrent s) as [w|] eqn:Hw; simpl; rewrite ?Hw; [done|].
  rewrite filter_snoc_True, filter_snoc_False, length_app by done. simpl. lia.
Qed.

Lemma oneInstance_newServer opts : oneInstance (newServer opts).
Proof. reflexivity. Qed.

(** ** What a teardown leaves alone *)

Lemma filter_none {A} (P : A → Prop) `{∀ x, Decision (P x)} (l : list A) :
  (∀ x, x ∈ l → ¬ P x) → filter P l = [].
Proof.
  induction l as [|x l IH]; intros Hl; [done|].
  rewrite filter_cons_False by (apply Hl; left).
  apply IH. intros y Hy. apply Hl. by right.
Qed.

Lemma destroyAll_lookup (ts : list TorrentRef) (h : list Torrent) (r : TorrentRef) :
  foldl (λ h r, alter (with_destroyed true) r h) h ts !! r
  = (if bool_decide (r ∈ ts) then with_destroyed true else id) <$> h !! r.
Proof.
  induction ts as [|x ts IH] using rev_ind; simpl.
  - by destruct (h !! r).
  - rewrite foldl_app. simpl.
    destruct (decide (x = r)) as [->|Hne].
    + rewrite list_lookup_alter_eq, IH.
      rewrite (bool_decide_eq_true_2 (r ∈ ts ++ [r])) by (apply elem_of_app; right; by left).
      destruct (h !! r) as [t|]; simpl; [|done]. by case_bool_decide.
    + rewrite list_lookup_alter_ne, IH by done.
      rewrite (bool_decide_ext (r ∈ ts ++ [x]) (r ∈ ts)); [done|].
      rewrite elem_of_app, list_elem_of_singleton. naive_solver.
Qed.

Lemma engineDestroy_rest s r :
  clientsOf r (engineDestroy s) = clientsOf r s
  ∧ ∀ h d', skeleton (engineDestroy s) !! r = Some (h, d') →
            ∃ d, skeleton s !! r = Some (h, d) ∧ (d = true → d' = true).
Proof.
  unfold engineDestroy. destruct (_webtorrent s) as [[ts]|]; [|by split; eauto].
  unfold clientsOf, skeleton. simpl.
  rewrite list_lookup_fmap, destroyAll_lookup, list_lookup_fmap.
  destruct (heap s !! r) as [t|]; simpl; [|by split].
  case_bool_decide; simpl; (split; [done|]); intros h d' [= <- <-]; eauto.
Qed.

Lemma engineDestroy_calls s w :
  _webtorrent s = Some w →
  calls (engineDestroy s) = calls s ++ [CallDestroy]
  ∧ _torrents (engineDestroy s) = _torrents s.
Proof. intros Hw. unfold engineDestroy. by rewrite Hw. Qed.

Lemma counts_destroy s s' :
  calls s' = calls s ++ [CallDestroy] →
  created s' = created s ∧ shutDown s' = S (shutDown s).
Proof.
  intros H. unfold created, shutDown. rewrite H.
  rewrite filter_snoc_False, filter_snoc_True, length_app by done. simpl. lia.
Qed.

Section CascadeRest.
Variable keys : list string.
Variable step : Server → TorrentRef → Server.
Variable lg : Server → Server.
Hypothesis Hstep : turnSpec keys step.
Hypothesis Hlg : ∀ s, sameState s (lg s) ∧ sent (lg s) = sent s.

Lemma cascade_rest s1 s :
  _torrents s1 = _torrents s → heap s1 = heap s → _webtorrent s1 = _webtorrent s →
  calls s1 = calls s →
  teardownRest s (cascade step lg s1).
Proof.
  intros Hts Hh Hw Hcl.
  destruct (turns_frame keys step Hstep (_torrents s1) s1) as (Fo & Fc & Ft & Ftm & Fs).
  pose proof (turns_webtorrent keys step Hstep (_torrents s1) s1) as Fw.
  destruct (turns_calls keys step Hstep (_torrents s1) s1) as (cs & Fcs & Fin).
  assert (filter (λ c, c = CallNew) cs = []) as Hnew.
  { apply filter_none. intros c (r & -> & _)%Fin. done. }
  assert (filter (λ c, c = CallDestroy) cs = []) as Hdes.
  { apply filter_none. intros c (r & -> & _)%Fin. done. }
  assert (∀ r, r ∉ _torrents s → heap (foldl step s1 (_torrents s1)) !! r = heap s !! r) as Hout.
  { intros r Hr. rewrite (turns_lookup keys step Hstep), bool_decide_eq_false_2, Hh; [done|].
    by rewrite Hts. }
  unfold cascade. cbv zeta. clear Fin.
  set (s2 := foldl step s1 (_torrents s1)) in *.
  assert (created s2 = created s ∧ shutDown s2 = shutDown s) as [Hcr Hsd].
  { unfold created, shutDown. rewrite Fcs, Hcl, !filter_app, Hnew, Hdes, !app_nil_r. done. }
  assert (is_Some (_webtorrent s2) ↔ is_Some (_webtorrent s)) as Hsome.
  { rewrite Fw, Hw. by rewrite fmap_is_Some. }
  assert (∀ r, r ∉ _torrents s →
            clientsOf r s2 = clientsOf r s
            ∧ ∀ h d', skeleton s2 !! r = Some (h, d') →
                      ∃ d, skeleton s !! r = Some (h, d) ∧ (d = true → d' = true)) as Hrest.
  { intros r Hr. unfold clientsOf, skeleton. rewrite !list_lookup_fmap, Hout by done.
    split; [done|]. intros h d' Hl. eauto. }
  simpl.
  destruct (filter (λ r, isLive s2 r) (_torrents s2)) as [|r0 rs] eqn:Hsv.
  - destruct (_webtorrent s2) as [w|] eqn:Hw2.
    + destruct (Hlg (with_webtorrent None (engineDestroy (with_torrents [] s2))))
        as [(Lo & Lw & Lc & Lt & Lh & Ltm & Lcl) Ls].
      destruct (engineDestroy_calls (with_torrents [] s2) w Hw2) as [Ecl Ets].
      destruct (counts_destroy s2 (lg (with_webtorrent None (engineDestroy (with_torrents [] s2)))))
        as [Ccr Csd]; [by rewrite Lcl|].
      unfold teardownRest, clientsOf, skeleton.
      rewrite Lh, Lt, Ccr, Csd, Hcr, Hsd. simpl. rewrite Ets. simpl.
      rewrite bool_decide_eq_true_2 by (split; [done|apply Hsome; eauto]).
      split; [|split; [done|lia]].
      intros r Hr.
      destruct (engineDestroy_rest (with_torrents [] s2) r) as [Ec Es].
      destruct (Hrest r Hr) as [Rc Rs].
      unfold clientsOf, skeleton in Ec, Es, Rc, Rs. simpl in Ec, Es.
      split; [by rewrite Ec|].
      intros h d' Hl. destruct (Es h d' Hl) as (d1 & Hd1 & Hi1).
      destruct (Rs h d1 Hd1) as (d & Hd & Hi). eauto.
    + unfold teardownRest, created, shutDown in *. simpl. rewrite Hcr, Hsd.
      rewrite bool_decide_eq_false_2.
      * split; [exact Hrest|]. split; [done|lia].
      * intros [_ Hi]. apply Hsome in Hi. by destruct Hi.
  - unfold teardownRest, created, shutDown in *. simpl. rewrite Hcr, Hsd.
    split; [exact Hrest|]. split; [done|lia].
Qed.

End CascadeRest.

Lemma killClients_rest keys s :
  keys ≠ [] → teardownRest s (Part000.killClients keys s).
Proof.
  destruct keys as [|k keys]; [done|]. intros _.
  rewrite killClients_cascade.
  apply (cascade_rest (k :: keys)); try (by rewrite foldl_deleteClient).
  - apply turn_Part000.
  - intros s'. split; [apply sameState_traceLog | apply traceLog_sent].
Qed.

Lemma removeDeadClients_rest now T s :
  filter (λ c, now - heartbeat c > T) (_clients s) ≠ [] →
  teardownRest s (ServerJs.removeDeadClients now T s).
Proof.
  intros Hne. unfold ServerJs.removeDeadClients.
  destruct (foldl_logDelete (filter (λ c, now - heartbeat c > T) (_clients s)) s)
    as (Ho & Htm & Hs & Hts & Hh & Hw & Hcl & Hc).
  cbv zeta in Ho, Htm, Hs, Hts, Hh, Hw, Hcl, Hc.
  destruct (map cl_clientKey (filter (λ c, now - heartbeat c > T) (_clients s)))
    as [|k keys'] eqn:Hk; [by apply fmap_nil_inv in Hk|].
  apply (cascade_rest (k :: keys') (ServerJs.killTorrentClients (k :: keys'))
           (log LogInstanceDestroyed));
    first [apply turn_ServerJs | done | by intros s'; split; [apply sameState_log|]].
Qed.

Lemma NoDup_keys_filter (P : Client → Prop) `{∀ c, Decision (P c)} (cs : list Client) :
  NoDup (map cl_clientKey cs) → NoDup (map cl_clientKey (filter P cs)).
Proof.
  intros Hnd. eapply sublist_NoDup; [exact Hnd|].
  apply (fmap_sublist cl_clientKey), sublist_filter.
Qed.

Lemma Subscribed_teardown keys s s' :
  Inv s → teardown keys s s' → teardownRest s s' → Subscribed s → Subscribed s'.
Proof.
  intros (I1 & I2 & I3 & I4) (_ & _ & _ & Hcs & Hts & Hheap & _) (Hrest & _) (S1 & S2 & S3 & S4).
  assert (∀ r, r ∈ _torrents s →
            ∃ t t', heap s !! r = Some t ∧ destroyed t = false
                    ∧ heap s' !! r = Some t' ∧ clients t' = pruned keys (clients t)
                    ∧ destroyed t' = bool_decide (pruned keys (clients t) = [])) as Hreg.
  { intros r Hr. destruct (I3 r Hr) as (h & (t & Ht & _ & Hd)%skeleton_lookup).
    destruct (Hheap r t Hr Ht) as (t' & Ht' & Hc' & _ & Hd').
    exists t, t'. rewrite Hd in Hd'. eauto 10. }
  assert (∀ r, r ∈ _torrents s' ↔ r ∈ _torrents s ∧ survives keys s r) as Hin.
  { intros r. rewrite Hts, list_elem_of_filter. tauto. }
  unfold Subscribed, clientKeys. repeat split.
  - rewrite Hcs. by apply NoDup_keys_filter.
  - intros r [Hr Hsv]%Hin. destruct (Hreg r Hr) as (t & t' & Ht & Hd & Ht' & Hc' & Hd').
    unfold clientsOf. rewrite Ht', Hc'. unfold survives in Hsv. rewrite Ht, Hd in Hsv.
    simpl in Hsv. by case_bool_decide.
  - intros r c [Hr Hsv]%Hin. destruct (Hreg r Hr) as (t & t' & Ht & Hd & Ht' & Hc' & Hd').
    unfold clientsOf. rewrite Ht', Hc'. unfold pruned.
    intros [Hk Hc]%list_elem_of_filter.
    assert (c_clientKey c ∈ clientKeys s) as Hmem.
    { apply (S3 r c Hr). unfold clientsOf. by rewrite Ht. }
    unfold clientKeys in Hmem. apply list_elem_of_fmap in Hmem as (cl & Hcl & Hcl').
    apply list_elem_of_fmap. exists cl. split; [done|].
    rewrite Hcs. apply list_elem_of_filter. split; [congruence|done].
  - destruct (decide (r ∈ _torrents s)) as [Hr|Hr].
    + destruct (Hreg r Hr) as (t & t' & Ht & Hd & Ht' & Hc' & Hd').
      unfold clientsOf. rewrite Ht', Hc'.
      assert (¬ survives keys s r) as Hns by (intros Hsv; apply H; apply Hin; done).
      unfold survives in Hns. rewrite Ht, Hd in Hns. simpl in Hns.
      by case_bool_decide.
    + destruct (Hrest r Hr) as [-> _]. by apply S4.
  - intros h d Hl. destruct (decide (r ∈ _torrents s)) as [Hr|Hr].
    + destruct (Hreg r Hr) as (t & t' & Ht & Hd & Ht' & Hc' & Hd').
      apply skeleton_lookup in Hl as (t'' & Ht'' & _ & <-).
      assert (t'' = t') as -> by congruence. rewrite Hd'.
      assert (¬ survives keys s r) as Hns by (intros Hsv; apply H; apply Hin; done).
      unfold survives in Hns. rewrite Ht, Hd in Hns. simpl in Hns.
      by case_bool_decide.
    + destruct (Hrest r Hr) as [_ Hsk]. destruct (Hsk h d Hl) as (d0 & Hd0 & Hi).
      apply Hi. by apply (proj2 (S4 r Hr) h d0).
Qed.

Lemma oneInstance_teardown keys s s' :
  teardown keys s s' → teardownRest s s' → oneInstance s → oneInstance s'.
Proof.
  intros (_ & _ & _ & _ & _ & _ & Hnil & Hcons & _) (_ & Hcr & Hsd).
  unfold oneInstance. rewrite Hcr, Hsd. intros ->.
  destruct (decide (_torrents s' = [])) as [He|Hne].
  - rewrite (Hnil He). simpl.
    destruct (_webtorrent s) as [w|].
    + rewrite !bool_decide_eq_true_2 by eauto. simpl. lia.
    + rewrite !bool_decide_eq_false_2; [simpl; lia| |]; by intros [? ?]; try intros [_ [? ?]].
  - rewrite (Hcons Hne). rewrite (bool_decide_eq_false_2 (_ ∧ _)) by tauto.
    destruct (_webtorrent s); simpl; lia.
Qed.

(** ** The registry of clients and the subscriptions *)

Lemma Subscribed_shape s s' :
  clientKeys s' = clientKeys s → _torrents s' = _torrents s →
  keepsSubs s s' → skeleton s' = skeleton s →
  Subscribed s → Subscribed s'.
Proof.
  unfold Subscribed. intros -> -> Hk ->.
  intros (S1 & S2 & S3 & S4). repeat split; try done.
  - intros r. rewrite Hk. by apply S2.
  - intros r c. rewrite Hk. by apply S3.
  - rewrite Hk. by apply S4.
  - by apply S4.
Qed.

Lemma Subscribed_quiet s s' :
  quiet s s' → subscriptions s' = subscriptions s → Subscribed s → Subscribed s'.
Proof.
  intros ((_ & Hc & _) & Ht & _ & Hsk & _) Hs.
  apply Subscribed_shape; try done.
  - unfold clientKeys. by rewrite Hc.
  - by apply keepsSubs_subscriptions.
Qed.

Lemma Subscribed_sameState s s' : sameState s s' → Subscribed s → Subscribed s'.
Proof.
  intros Hs. apply Subscribed_quiet.
  - apply (quiet_sameState s s s' Hs), quiet_refl.
  - destruct Hs as (_ & _ & _ & _ & Hh & _). unfold subscriptions. by rewrite Hh.
Qed.

Lemma Subscribed_newServer opts : Subscribed (newServer opts).
Proof.
  unfold Subscribed, clientKeys, clientsOf, skeleton. simpl.
  split; [apply NoDup_nil_2|]. split; [by intros r ?%elem_of_nil|].
  split; [by intros r c ?%elem_of_nil|]. done.
Qed.

Lemma getClient_None ck s : getClient ck s = None → ck ∉ clientKeys s.
Proof.
  unfold getClient, clientKeys. intros Hf (c & Heq & Hc)%list_elem_of_fmap.
  apply list_elem_of_In in Hc.
  pose proof (find_none _ _ Hf c Hc) as Hn. simpl in Hn.
  by rewrite bool_decide_eq_true_2 in Hn.
Qed.

Lemma Subscribed_new_client ck now s :
  getClient ck s = None →
  Subscribed s →
  Subscribed (with__clients (_clients s ++ [{| cl_clientKey := ck; heartbeat := now |}]) s).
Proof.
  intros Hn%getClient_None (S1 & S2 & S3 & S4).
  unfold Subscribed, clientKeys, clientsOf, skeleton in *. simpl.
  rewrite map_app. simpl. repeat split; try done.
  - apply NoDup_app. split; [done|]. split; [|apply NoDup_singleton].
    intros k Hk ->%list_elem_of_singleton. done.
  - intros r c Hr Hc. apply elem_of_app. left. by apply (S3 r c).
  - by apply S4.
  - by apply S4.
Qed.

Lemma clientKeys_handleHeartbeat now m s : clientKeys (handleHeartbeat now m s) = clientKeys s.
Proof.
  unfold handleHeartbeat, clientKeys. destruct (getClient _ s); [|done]. simpl.
  rewrite map_map. apply map_ext. intros x. by case_bool_decide.
Qed.

Lemma Subscribed_handleHeartbeat now m s : Subscribed s → Subscribed (handleHeartbeat now m s).
Proof.
  apply Subscribed_shape; [apply clientKeys_handleHeartbeat| | |];
    unfold handleHeartbeat; destruct (getClient _ s); try done;
    by apply keepsSubs_heap.
Qed.

Lemma Subscribed_push r sub s :
  r ∈ _torrents s → c_clientKey sub ∈ clientKeys s →
  Subscribed s → Subscribed (updTorrent r (push_client sub) s).
Proof.
  intros Hr Hsub (S1 & S2 & S3 & S4).
  assert (skeleton (updTorrent r (push_client sub) s) = skeleton s) as Hsk
    by (apply skeleton_updTorrent; intros t; split; reflexivity).
  unfold Subscribed. rewrite Hsk.
  change (clientKeys (updTorrent r (push_client sub) s)) with (clientKeys s).
  change (_torrents (updTorrent r (push_client sub) s)) with (_torrents s).
  repeat split; try done.
  - intros r' Hr'. rewrite clientsOf_push. case_decide; [subst r'|by apply S2].
    pose proof (S2 r Hr) as Hne. unfold clientsOf in Hne.
    destruct (heap s !! r); [|done]. by destruct (clients t).
  - intros r' c Hr'. rewrite clientsOf_push. case_decide; [subst r'|by apply S3].
    pose proof (S3 r c Hr) as Hin. unfold clientsOf in Hin.
    destruct (heap s !! r); [|by intros ?%elem_of_nil].
    intros [Hc| ->%list_elem_of_singleton]%elem_of_app; [by apply Hin|done].
  - rewrite clientsOf_push. case_decide; [by subst|by apply S4].
  - by apply S4.
Qed.

Lemma Subscribed_addOutcome h m s s' :
  Inv s → clientKey m ∈ clientKeys s → addOutcome h m s s' →
  Subscribed s → Subscribed s'.
Proof.
  intros (I1 & I2 & I3 & I4) Hm Ha (S1 & S2 & S3 & S4). unfold addOutcome in Ha.
  destruct (findByInfoHash h s (wtTorrents s)) as [r|] eqn:Hf.
  - destruct Ha as (((_ & Hc & _) & Ht & _ & Hsk & _) & Hr & Ho).
    apply findByInfoHash_Some in Hf as [Hin _]. rewrite I1 in Hin.
    unfold Subscribed, clientKeys. rewrite Hc, Ht, Hsk. repeat split; try done.
    + intros r' Hr'. destruct (decide (r' = r)) as [->|Hne].
      * rewrite Hr. by destruct (clientsOf r s).
      * rewrite Ho by done. by apply S2.
    + intros r' c Hr'. destruct (decide (r' = r)) as [->|Hne].
      * rewrite Hr. intros [Hc'| ->%list_elem_of_singleton]%elem_of_app; [|done].
        by apply (S3 r c).
      * rewrite Ho by done. by apply S3.
    + rewrite Ho by (by intros ->). by apply S4.
    + by apply S4.
  - destruct Ha as ((_ & Hc & _) & Ht & _ & Hsk & _ & Hr & Ho).
    assert (length (skeleton s) = length (heap s)) as Hlen
      by (unfold skeleton; apply length_map).
    unfold Subscribed, clientKeys. rewrite Hc, Ht, Hsk. repeat split; try done.
    + intros r' [Hr'| ->%list_elem_of_singleton]%elem_of_app.
      * rewrite Ho; [by apply S2|]. intros ->.
        destruct (I3 _ Hr') as (h' & Hl). apply lookup_lt_Some in Hl. lia.
      * by rewrite Hr.
    + intros r' c [Hr'| ->%list_elem_of_singleton]%elem_of_app.
      * rewrite Ho; [by apply S3|]. intros ->.
        destruct (I3 _ Hr') as (h' & Hl). apply lookup_lt_Some in Hl. lia.
      * rewrite Hr. by intros ->%list_elem_of_singleton.
    + rewrite Ho; [apply S4|]; intros Hx; apply H, elem_of_app; [by left|].
      right. by apply list_elem_of_singleton.
    + intros h' d. destruct (decide (r = length (heap s))) as [->|Hne].
      * exfalso. apply H, elem_of_app. right. by apply list_elem_of_singleton.
      * intros Hl. apply (proj2 (S4 r (λ Hx, H (proj2 (elem_of_app _ _ _) (or_introl Hx)))) h' d).
        assert (r < length (skeleton s ++ [(h, false)]))%nat as Hlt by (by eapply lookup_lt_Some).
        rewrite length_app in Hlt. simpl in Hlt.
        rewrite lookup_app_l in Hl by lia. done.
Qed.

Lemma subscriptions_webtorrent s : subscriptions (webtorrent s) = subscriptions s.
Proof. unfold subscriptions. by rewrite heap_webtorrent. Qed.

Lemma Subscribed_webtorrent s : Subscribed s → Subscribed (webtorrent s).
Proof.
  apply Subscribed_quiet; [apply quiet_webtorrent, quiet_refl | apply subscriptions_webtorrent].
Qed.

Lemma Subscribed_with_timers l s : Subscribed s → Subscribed (with_timers l s).
Proof. by apply Subscribed_shape. Qed.

Lemma Subscribed_killClients keys s :
  Inv s → Subscribed s → Subscribed (Part000.killClients keys s).
Proof.
  intros HI HS. destruct (decide (keys = [])) as [->|Hne]; [done|].
  eapply Subscribed_teardown;
    [done | by apply killClients_teardown | by apply killClients_rest | done].
Qed.

Lemma Subscribed_updates s :
  Subscribed s →
  Subscribed (foldl (λ s' torrent, sendProgress torrent "update" s') s (_torrents s)).
Proof. apply Subscribed_sameState, sameState_updates. Qed.

Lemma Subscribed_view r v s : Subscribed s → Subscribed (updTorrent r (with_view v) s).
Proof.
  apply Subscribed_quiet.
  - apply quiet_updTorrent; [intros ?; split; reflexivity | apply quiet_refl].
  - by apply subscriptions_framed.
Qed.

Section SubscribedPart000.
Context {parser : Parser}.

Lemma Subscribed_touchClient_Part000 now m s :
  Subscribed s → Subscribed (Part000.touchClient now m s).
Proof.
  intros HS. unfold Part000.touchClient.
  destruct (getClient (clientKey m) s) eqn:Hg; [done|].
  apply Subscribed_new_client.
  - rewrite <- Hg. apply getClient_keepsClients.
    apply quiet_keepsClients, quiet_traceLog, quiet_refl.
  - by apply (Subscribed_sameState _ _ (sameState_traceLog _ _)).
Qed.

Lemma Subscribed_handleSubscribe_Part000 m s :
  Inv s → clientKey m ∈ clientKeys s →
  Subscribed s → Subscribed (Part000.handleSubscribe m s).2.
Proof.
  intros HI Hm HS. unfold Part000.handleSubscribe.
  destruct (parseTorrent (torrentID m)) as [h|]; simpl; [|done].
  apply Subscribed_quiet with
    (s := match findByInfoHash h s (wtTorrents s) with
          | Some r => updTorrent r (push_client {| c_clientKey := clientKey m;
                                                    c_torrentKey := torrentKey m |}) s
          | None => s
          end).
  - apply quiet_sendSubscribed_Part000, quiet_refl.
  - by apply (frame_sendSubscribed _ subscriptions_framed).
  - destruct (findByInfoHash h s (wtTorrents s)) as [r|] eqn:Hf; [|done].
    apply Subscribed_push; [|done|done].
    apply findByInfoHash_Some in Hf as [Hin _]. destruct HI as (I1 & _). by rewrite <- I1.
Qed.

Lemma Subscribed_handleAddTorrent_Part000 m s :
  Inv s → clientKey m ∈ clientKeys s →
  Subscribed s → Subscribed (Part000.handleAddTorrent m s).2.
Proof.
  intros HI Hm HS.
  destruct (parseTorrent (torrentID m)) as [h|] eqn:Hp.
  - eapply Subscribed_addOutcome; [done|done| |done].
    by apply handleAddTorrent_outcome_Part000.
  - unfold Part000.handleAddTorrent. rewrite Hp. simpl. by apply Subscribed_webtorrent.
Qed.

Lemma Subscribed_handleCreateServer_Part000 m s :
  Subscribed s → Subscribed (Part000.handleCreateServer m s).
Proof.
  apply Subscribed_quiet; [apply quiet_handleCreateServer_Part000, quiet_refl|].
  rewrite (frame_handleCreateServer_Part000 _ subscriptions_framed).
  apply subscriptions_webtorrent.
Qed.

Lemma Subscribed_handleDestroy m s :
  Inv s → Subscribed s → Subscribed (Part000.handleDestroy m s).
Proof.
  intros HI HS. unfold Part000.handleDestroy.
  pose proof (Inv_sameState _ _ (sameState_traceLog (LogDestroyingClient (clientKey m)) s) HI).
  pose proof (Subscribed_sameState _ _
                (sameState_traceLog (LogDestroyingClient (clientKey m)) s) HS).
  destruct (options m ≫= opt_delay); [|by apply Subscribed_killClients].
  case_bool_decide; [by apply Subscribed_killClients | by apply Subscribed_with_timers].
Qed.

Lemma Subscribed_receive_Part000 now m s :
  Inv s → Subscribed s → Subscribed (Part000.receive now m s).2.
Proof.
  intros HI%(Inv_touchClient_Part000 now m) HS%(Subscribed_touchClient_Part000 now m).
  pose proof (touchClient_member_Part000 now m s) as Hm.
  unfold Part000.receive. repeat case_bool_decide; simpl.
  - by apply Subscribed_handleSubscribe_Part000.
  - by apply Subscribed_handleAddTorrent_Part000.
  - by apply Subscribed_handleCreateServer_Part000.
  - by apply Subscribed_handleHeartbeat.
  - by apply Subscribed_handleDestroy.
  - by apply (Subscribed_sameState _ _ (sameState_log _ _)).
Qed.

Lemma Subscribed_sendUpdates_Part000 now s :
  Inv s → Subscribed s → Subscribed (Part000.sendUpdates now s).
Proof.
  intros HI HS. unfold Part000.sendUpdates. apply Subscribed_updates.
  destruct (0 <? _); [|done].
  unfold Part000.removeDeadClients. apply Subscribed_killClients.
  - eapply Inv_sameState; [apply foldl_traceLog | done].
  - eapply Subscribed_sameState; [apply foldl_traceLog | done].
Qed.

Lemma Subscribed_stepPart000 e s :
  Inv s → Subscribed s → Subscribed (stepPart000 e s).
Proof.
  intros HI HS. destruct e; simpl.
  - by apply Subscribed_receive_Part000.
  - by apply Subscribed_sendUpdates_Part000.
  - eapply Subscribed_quiet; [apply quiet_onListening_Part000, quiet_refl | | done].
    by apply (frame_onListening_Part000 _ subscriptions_framed).
  - unfold Part000.onTimeout. case_bool_decide; [|done].
    apply Subscribed_killClients; [by apply Inv_with_timers | by apply Subscribed_with_timers].
  - eapply Subscribed_quiet; [apply quiet_onTorrentEvent_Part000, quiet_refl | | done].
    by apply (frame_onTorrentEvent _ subscriptions_framed).
  - destruct (_webtorrent s); [|done].
    eapply Subscribed_quiet; [|by apply (frame_onEngineEvent _ subscriptions_framed)|done].
    destruct ev; apply quiet_sendError, quiet_refl.
  - by apply Subscribed_view.
Qed.

Lemma reachable_Subscribed_Part000 s : reachable stepPart000 s → Inv s ∧ Subscribed s.
Proof.
  induction 1 as [opts|e s _ [HI HS]].
  - split; [apply Inv_newServer | apply Subscribed_newServer].
  - split; [by apply Inv_stepPart000 | by apply Subscribed_stepPart000].
Qed.

End SubscribedPart000.

Section SubscribedServerJs.
Context {parser : Parser}.

Lemma touchClient_member_ServerJs now m s :
  clientKey m ∈ clientKeys (ServerJs.touchClient now m s).
Proof.
  destruct (getClient (clientKey m) s) as [c|] eqn:Hc.
  - rewrite (touchClient_known_ServerJs _ _ _ _ Hc). by eapply getClient_member.
  - eapply getClient_member. by apply touchClient_new_ServerJs.
Qed.

Lemma Subscribed_touchClient_ServerJs now m s :
  Subscribed s → Subscribed (ServerJs.touchClient now m s).
Proof.
  intros HS. unfold ServerJs.touchClient.
  destruct (getClient (clientKey m) s) eqn:Hg; [done|].
  by apply Subscribed_new_client.
Qed.

Lemma Subscribed_handleSubscribe_ServerJs m s :
  Inv s → clientKey m ∈ clientKeys s →
  Subscribed s → Subscribed (ServerJs.handleSubscribe m s).2.
Proof.
  intros HI Hm HS. unfold ServerJs.handleSubscribe.
  destruct (parseTorrent (torrentID m)) as [h|]; simpl; [|done].
  destruct (findByInfoHash h s (wtTorrents s)) as [r|] eqn:Hf; simpl.
  - eapply Subscribed_quiet; [apply quiet_send, quiet_refl | done |].
    apply Subscribed_push; [|done|done].
    apply findByInfoHash_Some in Hf as [Hin _]. destruct HI as (I1 & _). by rewrite <- I1.
  - eapply Subscribed_quiet; [apply quiet_send, quiet_refl | done | done].
Qed.

Lemma Subscribed_handleAddTorrent_ServerJs m s :
  Inv s → clientKey m ∈ clientKeys s →
  Subscribed s → Subscribed (ServerJs.handleAddTorrent m s).2.
Proof.
  intros HI Hm HS.
  destruct (parseTorrent (torrentID m)) as [h|] eqn:Hp.
  - eapply Subscribed_addOutcome; [done|done| |done].
    by apply handleAddTorrent_outcome_ServerJs.
  - unfold ServerJs.handleAddTorrent. rewrite Hp. simpl. by apply Subscribed_webtorrent.
Qed.

Lemma Subscribed_handleCreateServer_ServerJs m s :
  Subscribed s → Subscribed (ServerJs.handleCreateServer m s).2.
Proof.
  apply Subscribed_quiet; [apply quiet_handleCreateServer_ServerJs, quiet_refl|].
  rewrite (frame_handleCreateServer_ServerJs _ subscriptions_framed).
  apply subscriptions_webtorrent.
Qed.

Lemma Subscribed_receive_ServerJs now m s :
  Inv s → Subscribed s → Subscribed (ServerJs.receive now m s).2.
Proof.
  intros HI%(Inv_touchClient_ServerJs now m) HS%(Subscribed_touchClient_ServerJs now m).
  pose proof (touchClient_member_ServerJs now m s) as Hm.
  unfold ServerJs.receive. repeat case_bool_decide; simpl.
  - by apply Subscribed_handleSubscribe_ServerJs.
  - by apply Subscribed_handleAddTorrent_ServerJs.
  - by apply Subscribed_handleCreateServer_ServerJs.
  - by apply Subscribed_handleHeartbeat.
  - by apply (Subscribed_sameState _ _ (sameState_log _ _)).
Qed.

Lemma Subscribed_removeDeadClients_ServerJs now T s :
  Inv s → Subscribed s → Subscribed (ServerJs.removeDeadClients now T s).
Proof.
  intros HI HS.
  destruct (decide (filter (λ c, now - heartbeat c > T) (_clients s) = [])) as [He|Hne].
  - by rewrite removeDeadClients_none.
  - eapply Subscribed_teardown; [done| |by apply removeDeadClients_rest|done].
    apply removeDeadClients_teardown. intros Hm. apply Hne. by apply fmap_nil_inv in Hm.
Qed.

Lemma Subscribed_sendUpdates_ServerJs now s :
  Inv s → Subscribed s → Subscribed (ServerJs.sendUpdates now s).
Proof.
  intros HI HS. unfold ServerJs.sendUpdates. apply Subscribed_updates.
  destruct (heartbeatTimeout (_options s)); [|done].
  case_bool_decide; [|done]. by apply Subscribed_removeDeadClients_ServerJs.
Qed.

Lemma Subscribed_stepServerJs e s :
  Inv s → Subscribed s → Subscribed (stepServerJs e s).
Proof.
  intros HI HS. destruct e; simpl.
  - by apply Subscribed_receive_ServerJs.
  - by apply Subscribed_sendUpdates_ServerJs.
  - eapply Subscribed_quiet; [apply quiet_onListening_ServerJs, quiet_refl | | done].
    by apply (frame_onListening_ServerJs _ subscriptions_framed).
  - done.
  - eapply Subscribed_quiet; [apply quiet_onTorrentEvent_ServerJs, quiet_refl | | done].
    by apply (frame_onTorrentEvent _ subscriptions_framed).
  - destruct (_webtorrent s); [|done].
    eapply Subscribed_quiet; [|by apply (frame_onEngineEvent _ subscriptions_framed)|done].
    destruct ev; apply quiet_sendError, quiet_refl.
  - by apply Subscribed_view.
Qed.

Lemma reachable_Subscribed_ServerJs s : reachable stepServerJs s → Inv s ∧ Subscribed s.
Proof.
  induction 1 as [opts|e s _ [HI HS]].
  - split; [apply Inv_newServer | apply Subscribed_newServer].
  - split; [by apply Inv_stepServerJs | by apply Subscribed_stepServerJs].
Qed.

End SubscribedServerJs.

(** ** The life of the engine instance *)

Lemma engineLife_sameState s s' : sameState s s' → engineLife s' = engineLife s.
Proof.
  intros (_ & Hw & _ & _ & _ & _ & Hc). unfold engineLife, created, shutDown. by rewrite Hw, Hc.
Qed.

Lemma engineLife_engineAdd tid h s : engineLife (engineAdd tid h s).2 = engineLife s.
Proof.
  unfold engineAdd. cbn [snd]. rewrite engineLife_called by done.
  unfold engineLife, created, shutDown. simpl.
  by rewrite (bool_decide_ext _ _ (fmap_is_Some _ (_webtorrent s))).
Qed.

Lemma engineLife_handleHeartbeat now m s : engineLife (handleHeartbeat now m s) = engineLife s.
Proof. unfold handleHeartbeat. by destruct (getClient _ s). Qed.

Lemma oneInstance_killClients keys s : oneInstance s → oneInstance (Part000.killClients keys s).
Proof.
  intros HO. destruct (decide (keys = [])) as [->|Hne]; [done|].
  eapply oneInstance_teardown; [by apply killClients_teardown | by apply killClients_rest | done].
Qed.

Section EngineLifePart000.
Context {parser : Parser}.

Lemma engineLife_touchClient_Part000 now m s :
  engineLife (Part000.touchClient now m s) = engineLife s.
Proof.
  unfold Part000.touchClient. destruct (getClient _ s); [done|].
  change (engineLife (with__clients ?c ?x)) with (engineLife x).
  apply (frame_traceLog _ engineLife_framed).
Qed.

Lemma engineLife_handleSubscribe_Part000 m s :
  engineLife (Part000.handleSubscribe m s).2 = engineLife s.
Proof.
  unfold Part000.handleSubscribe. destruct (parseTorrent _); simpl; [|done].
  rewrite (frame_sendSubscribed _ engineLife_framed). by destruct (findByInfoHash _ _ _).
Qed.

Lemma engineLife_handleAddTorrent_Part000 m s :
  engineLife (Part000.handleAddTorrent m s).2 = engineLife (webtorrent s).
Proof.
  unfold Part000.handleAddTorrent. destruct (parseTorrent _) as [h|]; simpl; [|done].
  destruct (findByInfoHash h (webtorrent s) (wtTorrents (webtorrent s))) as [r|].
  - by rewrite (frame_addTorrent_tail _ engineLife_framed).
  - rewrite (frame_addTorrent_tail _ engineLife_framed).
    change (engineLife (engineAdd (torrentID m) h
                          (traceLog (LogJoiningSwarm h) (webtorrent s))).2
            = engineLife (webtorrent s)).
    rewrite engineLife_engineAdd. apply (frame_traceLog _ engineLife_framed).
Qed.

Lemma oneInstance_receive_Part000 now m s :
  oneInstance s → oneInstance (Part000.receive now m s).2.
Proof.
  intros HO%(oneInstance_engineLife _ _ (engineLife_touchClient_Part000 now m s)).
  unfold Part000.receive. repeat case_bool_decide; simpl.
  - by apply (oneInstance_engineLife _ _ (engineLife_handleSubscribe_Part000 _ _)).
  - apply (oneInstance_engineLife _ _ (engineLife_handleAddTorrent_Part000 _ _)).
    by apply oneInstance_webtorrent.
  - apply (oneInstance_engineLife _ _
             (frame_handleCreateServer_Part000 _ engineLife_framed _ _)).
    by apply oneInstance_webtorrent.
  - by apply (oneInstance_engineLife _ _ (engineLife_handleHeartbeat _ _ _)).
  - unfold Part000.handleDestroy.
    pose proof (oneInstance_engineLife _ _
                  (frame_traceLog _ engineLife_framed
                     (LogDestroyingClient (clientKey m)) (Part000.touchClient now m s)) HO).
    destruct (options m ≫= opt_delay); [|by apply oneInstance_killClients].
    case_bool_decide; [by apply oneInstance_killClients | done].
  - done.
Qed.

Lemma oneInstance_sendUpdates_Part000 now s :
  oneInstance s → oneInstance (Part000.sendUpdates now s).
Proof.
  intros HO. unfold Part000.sendUpdates.
  apply (oneInstance_engineLife _ _ (frame_updates _ engineLife_framed _)).
  destruct (0 <? _); [|done].
  unfold Part000.removeDeadClients. apply oneInstance_killClients.
  by apply (oneInstance_engineLife _ _ (engineLife_sameState _ _ (foldl_traceLog _ _ _))).
Qed.

Lemma oneInstance_stepPart000 e s : oneInstance s → oneInstance (stepPart000 e s).
Proof.
  intros HO. destruct e; simpl.
  - by apply oneInstance_receive_Part000.
  - by apply oneInstance_sendUpdates_Part000.
  - by apply (oneInstance_engineLife _ _ (frame_onListening_Part000 _ engineLife_framed _ _ _)).
  - unfold Part000.onTimeout. case_bool_decide; [|done]. by apply oneInstance_killClients.
  - by apply (oneInstance_engineLife _ _
                (proj1 (frame_onTorrentEvent _ engineLife_framed _ _ _))).
  - destruct (_webtorrent s) eqn:Hw; [|done].
    by apply (oneInstance_engineLife _ _ (frame_onEngineEvent _ engineLife_framed _ _)).
  - done.
Qed.

End EngineLifePart000.

Section EngineLifeServerJs.
Context {parser : Parser}.

Lemma engineLife_touchClient_ServerJs now m s :
  engineLife (ServerJs.touchClient now m s) = engineLife s.
Proof. unfold ServerJs.touchClient. by destruct (getClient _ s). Qed.

Lemma engineLife_handleSubscribe_ServerJs m s :
  engineLife (ServerJs.handleSubscribe m s).2 = engineLife s.
Proof.
  unfold ServerJs.handleSubscribe. destruct (parseTorrent _); simpl; [|done].
  by destruct (findByInfoHash _ _ _).
Qed.

Lemma engineLife_handleAddTorrent_ServerJs m s :
  engineLife (ServerJs.handleAddTorrent m s).2 = engineLife (webtorrent s).
Proof.
  unfold ServerJs.handleAddTorrent. destruct (parseTorrent _) as [h|]; simpl; [|done].
  destruct (findByInfoHash h (webtorrent s) (wtTorrents (webtorrent s))) as [r|].
  - by destruct (heap (webtorrent s) !! r).
  - change (engineLife (engineAdd (torrentID m) h (webtorrent s)).2
            = engineLife (webtorrent s)).
    apply engineLife_engineAdd.
Qed.

Lemma oneInstance_removeDeadClients_ServerJs now T s :
  oneInstance s → oneInstance (ServerJs.removeDeadClients now T s).
Proof.
  intros HO.
  destruct (decide (filter (λ c, now - heartbeat c > T) (_clients s) = [])) as [He|Hne].
  - by rewrite removeDeadClients_none.
  - eapply oneInstance_teardown; [|by apply removeDeadClients_rest|done].
    apply removeDeadClients_teardown. intros Hm. apply Hne. by apply fmap_nil_inv in Hm.
Qed.

Lemma oneInstance_stepServerJs e s : oneInstance s → oneInstance (stepServerJs e s).
Proof.
  intros HO. destruct e; simpl.
  - apply (oneInstance_engineLife _ _ (engineLife_touchClient_ServerJs now message s)) in HO.
    unfold ServerJs.receive. repeat case_bool_decide; simpl.
    + by apply (oneInstance_engineLife _ _ (engineLife_handleSubscribe_ServerJs _ _)).
    + apply (oneInstance_engineLife _ _ (engineLife_handleAddTorrent_ServerJs _ _)).
      by apply oneInstance_webtorrent.
    + apply (oneInstance_engineLife _ _
               (frame_handleCreateServer_ServerJs _ engineLife_framed _ _)).
      by apply oneInstance_webtorrent.
    + by apply (oneInstance_engineLife _ _ (engineLife_handleHeartbeat _ _ _)).
    + done.
  - unfold ServerJs.sendUpdates.
    apply (oneInstance_engineLife _ _ (frame_updates _ engineLife_framed _)).
    destruct (heartbeatTimeout (_options s)); [|done].
    case_bool_decide; [|done]. by apply oneInstance_removeDeadClients_ServerJs.
  - by apply (oneInstance_engineLife _ _ (frame_onListening_ServerJs _ engineLife_framed _ _ _)).
  - done.
  - by apply (oneInstance_engineLife _ _
                (proj2 (frame_onTorrentEvent _ engineLife_framed _ _ _))).
  - destruct (_webtorrent s) eqn:Hw; [|done].
    by apply (oneInstance_engineLife _ _ (frame_onEngineEvent _ engineLife_framed _ _)).
  - done.
Qed.

End EngineLifeServerJs.

(** ** Events of the engine *)

Lemma onTorrentEvent_relays_Part000 r ev s t :
  heap s !! r = Some t →
  ∃ message, relays Part000.infoFields t ev message
             ∧ Part000.onTorrentEvent r ev s = sendAll (map (assignClient message) (clients t)) s.
Proof.
  intros Ht.
  assert (clientsOf r s = clients t) as Hc by (unfold clientsOf; by rewrite Ht).
  destruct ev; simpl; unfold Part000.sendInfo, sendProgress, sendError; rewrite ?Ht;
    rewrite sendToTorrentClients_sendAll, Hc; eexists; (split; [|reflexivity]);
    by repeat split.
Qed.

Lemma onTorrentEvent_relays_ServerJs r ev s t :
  heap s !! r = Some t →
  ∃ message, relays ServerJs.infoFields t ev message
             ∧ ServerJs.onTorrentEvent r ev s = sendAll (map (assignClient message) (clients t)) s.
Proof.
  intros Ht.
  assert (clientsOf r s = clients t) as Hc by (unfold clientsOf; by rewrite Ht).
  destruct ev; simpl; unfold ServerJs.sendInfo, sendProgress, sendError; rewrite ?Ht;
    rewrite sendToTorrentClients_sendAll, Hc; eexists; (split; [|reflexivity]);
    by repeat split.
Qed.

Lemma onTorrentEvent_dangling r ev s :
  heap s !! r = None →
  Part000.onTorrentEvent r ev s = s ∧ ServerJs.onTorrentEvent r ev s = s.
Proof.
  intros Ht.
  split; destruct ev; simpl;
    unfold Part000.sendInfo, ServerJs.sendInfo, sendProgress, sendError, sendToTorrentClients;
    by rewrite ?Ht.
Qed.

Lemma getClient_is_Some ck s : ck ∈ clientKeys s → ∃ cl, getClient ck s = Some cl.
Proof.
  intros Hm. destruct (getClient ck s) as [cl|] eqn:Hg; [eauto|].
  by apply getClient_None in Hg.
Qed.

Lemma reachable_oneInstance_Part000 `{parser : Parser} s :
  reachable stepPart000 s → oneInstance s.
Proof.
  induction 1 as [opts|e s _ IH]; [apply oneInstance_newServer | by apply oneInstance_stepPart000].
Qed.

Lemma reachable_oneInstance_ServerJs `{parser : Parser} s :
  reachable stepServerJs s → oneInstance s.
Proof.
  induction 1 as [opts|e s _ IH]; [apply oneInstance_newServer | by apply oneInstance_stepServerJs].
Qed.

Lemma reachable_good `{parser : Parser} s :
  reachable stepPart000 s ∨ reachable stepServerJs s →
  Inv s ∧ Subscribed s ∧ oneInstance s.
Proof.
  intros [R|R].
  - destruct (reachable_Subscribed_Part000 s R). by split; [|split; [|apply reachable_oneInstance_Part000]].
  - destruct (reachable_Subscribed_ServerJs s R). by split; [|split; [|apply reachable_oneInstance_ServerJs]].
Qed.

Lemma reachable_afterAB_Part000 : reachable (@stepPart000 hashParser) Examples.afterAB_Part000.
Proof. do 2 apply reachable_step. apply reachable_new. Qed.

Lemma reachable_afterAB_ServerJs : reachable (@stepServerJs hashParser) Examples.afterAB_ServerJs.
Proof. do 2 apply reachable_step. apply reachable_new. Qed.






(** X4. On every server that a run of either source can reach, the broker
    holds an engine instance exactly when it has called [new WebTorrent]
    once more often than [wt.destroy()]: [webtorrent ()] creates an instance
    only when there is none, and the teardown destroys the one it holds.
    Without an instance the registry of torrents is empty. *)
Theorem one_engine_instance :
  ∀ (parser : Parser) (s : Server),
    reachable stepPart000 s ∨ reachable stepServerJs s →
    created s = (shutDown s + (if bool_decide (is_Some (_webtorrent s)) then 1 else 0))%nat
    ∧ (_webtorrent s = None → _torrents s = []).
Proof.
  intros parser s ((I1 & _) & _ & HO)%reachable_good. split; [exact HO|].
  intros Hw. unfold wtTorrents in I1. by rewrite Hw in I1.
Qed.


Lemma one_engine_instance_witness :
  (reachable (@stepPart000 hashParser) Scenes.sweptA
   ∨ reachable (@stepServerJs hashParser) Scenes.sweptA)
  ∧ created Scenes.sweptA
    = (shutDown Scenes.sweptA
       + (if bool_decide (is_Some (_webtorrent Scenes.sweptA)) then 1 else 0))%nat
  ∧ (_webtorrent Scenes.sweptA = None → _torrents Scenes.sweptA = []).
Proof.
  assert (reachable (@stepPart000 hashParser) Scenes.sweptA
          ∨ reachable (@stepServerJs hashParser) Scenes.sweptA) as R
    by (left; do 2 apply reachable_step; apply reachable_new).
  split; [exact R|].
  exact (one_engine_instance hashParser Scenes.sweptA R).
Defined.


(** X6. An event that the engine raises on a torrent ([addTorrentEvents])
    is relayed to the subscribers of that torrent, once per subscription
    and in their order, and changes nothing else: 'infohash' and 'metadata'
    carry the info fields of the torrent ([sendInfo], [getInfoMessage]),
    'download', 'upload' and 'done' its progress numbers ([sendProgress],
    [getProgressMessage]), 'warning' and 'error' the error ([sendError]).
    The two sources differ in the info fields only (server.js adds [key]). *)
Theorem torrent_event_relayed :
  ∀ (r : TorrentRef) (ev : TorrentEvent) (s : Server) (t : Torrent),
    heap s !! r = Some t →
    (∃ message,
        relays Part000.infoFields t ev message
        ∧ Part000.onTorrentEvent r ev s = sendAll (map (assignClient message) (clients t)) s)
    ∧ (∃ message,
          relays ServerJs.infoFields t ev message
          ∧ ServerJs.onTorrentEvent r ev s = sendAll (map (assignClient message) (clients t)) s).
Proof.
  intros r ev s t Ht. split.
  - by apply onTorrentEvent_relays_Part000.
  - by apply onTorrentEvent_relays_ServerJs.
Qed.

Lemma torrent_event_relayed_witness :
  heap Examples.afterAB_Part000 !! 0%nat = Some Examples.torrentX
  ∧ (∃ message,
        relays Part000.infoFields Examples.torrentX OnMetadata message
        ∧ Part000.onTorrentEvent 0%nat OnMetadata Examples.afterAB_Part000
          = sendAll (map (assignClient message) (clients Examples.torrentX))
              Examples.afterAB_Part000)
  ∧ (∃ message,
        relays ServerJs.infoFields Examples.torrentX OnMetadata message
        ∧ ServerJs.onTorrentEvent 0%nat OnMetadata Examples.afterAB_Part000
          = sendAll (map (assignClient message) (clients Examples.torrentX))
              Examples.afterAB_Part000).
Proof.
  assert (heap Examples.afterAB_Part000 !! 0%nat = Some Examples.torrentX) as H
    by reflexivity.
  split; [exact H|].
  exact (torrent_event_relayed 0%nat OnMetadata Examples.afterAB_Part000 Examples.torrentX H).
Defined.

(** ** The tick *)

Lemma sendProgress_sendAll r ty s :
  sendProgress r ty s
  = sendAll (match heap s !! r with
             | Some t => map (assignClient (getProgressMessage t ty)) (clients t)
             | None => []
             end) s.
Proof.
  unfold sendProgress. destruct (heap s !! r) as [t|] eqn:Ht; [|by rewrite sendAll_nil].
  rewrite sendToTorrentClients_sendAll. unfold clientsOf. by rewrite Ht.
Qed.

Lemma updates_from s0 l ms :
  foldl (λ s' torrent, sendProgress torrent "update" s') (sendAll ms s0) l
  = sendAll (ms ++ concat (map (λ r, match heap s0 !! r with
                                     | Some t => map (assignClient (getProgressMessage t "update"))
                                                   (clients t)
                                     | None => []
                                     end) l)) s0.
Proof.
  revert ms. induction l as [|r l IH]; intros ms; simpl.
  - by rewrite app_nil_r.
  - rewrite sendProgress_sendAll, sendAll_app.
    change (heap (sendAll ms s0)) with (heap s0). by rewrite IH, app_assoc.
Qed.

Lemma updates_sendAll s :
  foldl (λ s' torrent, sendProgress torrent "update" s') s (_torrents s)
  = sendAll (updatesOf s) s.
Proof. rewrite <- (sendAll_nil s) at 1. by rewrite updates_from. Qed.

Lemma updatesOf_sendAll ms s : updatesOf (sendAll ms s) = updatesOf s.
Proof. reflexivity. Qed.

Lemma elem_of_concat {A} (x : A) (ls : list (list A)) :
  x ∈ concat ls ↔ ∃ l, x ∈ l ∧ l ∈ ls.
Proof.
  induction ls as [|l ls IH]; simpl.
  - split; [by intros ?%elem_of_nil | by intros (l & _ & ?%elem_of_nil)].
  - rewrite elem_of_app, IH. split.
    + intros [Hx|(l' & Hx & Hl')]; [exists l; split; [done|left] | exists l'; split; [done|by right]].
    + intros (l' & Hx & [->|Hl']%elem_of_cons); [by left | right; eauto].
Qed.

Lemma elem_of_updatesOf m s :
  m ∈ updatesOf s ↔
  ∃ r t c, r ∈ _torrents s ∧ heap s !! r = Some t ∧ c ∈ clients t
           ∧ m = assignClient (getProgressMessage t "update") c.
Proof.
  unfold updatesOf. rewrite elem_of_concat. split.
  - intros (l & Hm & (r & -> & Hr)%list_elem_of_fmap).
    destruct (heap s !! r) as [t|] eqn:Ht; [|by apply elem_of_nil in Hm].
    apply list_elem_of_fmap in Hm as (c & -> & Hc). eauto 10.
  - intros (r & t & c & Hr & Ht & Hc & ->).
    eexists. split; [|apply list_elem_of_fmap; eauto].
    simpl. rewrite Ht. apply list_elem_of_fmap. eauto.
Qed.

(** After a teardown no update is addressed to a client that it removed. *)
Lemma updates_after_teardown keys s s' m :
  teardown keys s s' → m ∈ updatesOf s' →
  ∃ k, o_clientKey m = Some k ∧ k ∉ keys.
Proof.
  intros (_ & _ & _ & _ & Hts & Hheap & _) (r & t' & c & Hr & Ht' & Hc & ->)%elem_of_updatesOf.
  rewrite Hts in Hr. apply list_elem_of_filter in Hr as [Hsv Hr].
  unfold survives in Hsv. destruct (heap s !! r) as [t|] eqn:Ht; [|done].
  destruct (Hheap r t Hr Ht) as (t'' & Ht'' & Hcl & _).
  assert (t'' = t') as -> by congruence.
  rewrite Hcl in Hc. apply list_elem_of_filter in Hc as [Hk _].
  exists (c_clientKey c). done.
Qed.

Lemma teardown_agree keys s0 s s' :
  _options s = _options s0 → timers s = timers s0 → sent s = sent s0 →
  _torrents s = _torrents s0 → heap s = heap s0 → _webtorrent s = _webtorrent s0 →
  calls s = calls s0 →
  filter (λ c, cl_clientKey c ∉ keys) (_clients s)
  = filter (λ c, cl_clientKey c ∉ keys) (_clients s0) →
  teardown keys s s' → teardown keys s0 s'.
Proof.
  unfold teardown, survives, dies. intros -> -> -> -> -> -> -> ->. done.
Qed.

Lemma teardown_sameState keys s0 s s' :
  sameState s0 s → sent s = sent s0 → teardown keys s s' → teardown keys s0 s'.
Proof.
  intros (Ho & Hw & Hc & Ht & Hh & Htm & Hcl) Hs.
  apply teardown_agree; try done. by rewrite Hc.
Qed.

Lemma sent_foldl_traceLog {A} (f : A → Diagnostic) (l : list A) s :
  sent (foldl (λ s' x, traceLog (f x) s') s l) = sent s.
Proof.
  revert s. induction l as [|x l IH]; intros s; simpl; [done|].
  by rewrite IH, traceLog_sent.
Qed.

(** What a tick sends, given the server [swept] that its sweep left. *)
Lemma tick_after s swept :
  (sameState s swept ∧ sent swept = sent s) ∨ (∃ keys, teardown keys s swept) →
  let s' := foldl (λ s' torrent, sendProgress torrent "update" s') swept (_torrents swept) in
  sent s' = sent s ++ updatesOf s'
  ∧ ∀ m c, m ∈ updatesOf s' → c ∈ _clients s → cl_clientKey c ∉ clientKeys s' →
           o_clientKey m ≠ Some (cl_clientKey c).
Proof.
  intros Hsw s'. subst s'. rewrite updates_sendAll, updatesOf_sendAll.
  change (clientKeys (sendAll (updatesOf swept) swept)) with (clientKeys swept).
  change (sent (sendAll (updatesOf swept) swept)) with (sent swept ++ updatesOf swept).
  destruct Hsw as [[(_ & _ & Hc & _) Hs]|(keys & Htd)].
  - rewrite Hs. split; [done|]. intros m c _ Hin Hout. exfalso. apply Hout.
    unfold clientKeys. rewrite Hc. apply list_elem_of_fmap. eauto.
  - pose proof Htd as (_ & _ & Hs & Hc & _). rewrite Hs. split; [done|].
    intros m c Hm Hin Hout.
    destruct (updates_after_teardown keys s swept m Htd Hm) as (k & -> & Hk).
    intros [= ->]. apply Hout. unfold clientKeys. rewrite Hc.
    apply list_elem_of_fmap. exists c. split; [done|]. by apply list_elem_of_filter.
Qed.

Lemma swept_Part000 now T s :
  let swept := Part000.removeDeadClients now T s in
  (sameState s swept ∧ sent swept = sent s) ∨ (∃ keys, teardown keys s swept).
Proof.
  unfold Part000.removeDeadClients.
  set (dead := filter (λ c, ¬ now - heartbeat c ≤ T) (_clients s)).
  set (s1 := foldl (λ s' c, traceLog (LogClientDied (cl_clientKey c)) s') s dead).
  assert (sameState s s1) as Hs1 by apply foldl_traceLog.
  assert (sent s1 = sent s) as Hsent by apply sent_foldl_traceLog.
  simpl. destruct (decide (map cl_clientKey dead = [])) as [->|Hne].
  - by left.
  - right. exists (map cl_clientKey dead).
    eapply teardown_sameState; [done|done|]. by apply killClients_teardown.
Qed.

(** X7. What a tick of the update timer sends ([sendUpdates]): the sweep
    comes first, and then every torrent that is still registered sends one
    'update' message with its progress numbers to each of its remaining
    subscriptions, in the order of the registry; so a client that the tick
    has expired gets no update from it. In both sources. *)
Theorem tick_updates_follow_the_sweep :
  ∀ (now : Z) (s : Server),
    (let s' := Part000.sendUpdates now s in
     sent s' = sent s ++ updatesOf s'
     ∧ ∀ m c, m ∈ updatesOf s' → c ∈ _clients s → cl_clientKey c ∉ clientKeys s' →
              o_clientKey m ≠ Some (cl_clientKey c))
    ∧ (let s' := ServerJs.sendUpdates now s in
       sent s' = sent s ++ updatesOf s'
       ∧ ∀ m c, m ∈ updatesOf s' → c ∈ _clients s → cl_clientKey c ∉ clientKeys s' →
                o_clientKey m ≠ Some (cl_clientKey c)).
Proof.
  intros now s. split.
  - unfold Part000.sendUpdates. apply tick_after.
    destruct (0 <? _); [apply swept_Part000|].
    left. split; [apply sameState_refl | done].
  - unfold ServerJs.sendUpdates. apply tick_after.
    destruct (heartbeatTimeout (_options s)) as [t|];
      [|left; split; [apply sameState_refl | done]].
    case_bool_decide; [|left; split; [apply sameState_refl | done]].
    destruct (decide (filter (λ c, now - heartbeat c > t) (_clients s) = [])) as [He|Hne].
    + rewrite removeDeadClients_none by done. left. split; [apply sameState_refl | done].
    + right. eexists. apply removeDeadClients_teardown.
      intros Hm. apply Hne. by apply fmap_nil_inv in Hm.
Qed.

Lemma tick_updates_follow_the_sweep_witness :
  let s := Scenes.beatenA in
  let s' := Part000.sendUpdates 31500 s in
  let b := {| cl_clientKey := "b"; heartbeat := 1000 |} in
  sent s' = sent s ++ updatesOf s'
  ∧ Scenes.updateForA ∈ updatesOf s' ∧ b ∈ _clients s ∧ (cl_clientKey b ∉ clientKeys s')
  ∧ o_clientKey Scenes.updateForA ≠ Some (cl_clientKey b).
Proof.
  intros s s' b.
  assert (Scenes.updateForA ∈ updatesOf s') as Hm by (vm_compute; left).
  assert (b ∈ _clients s) as Hb by (vm_compute; right; left).
  assert (cl_clientKey b ∉ clientKeys s') as Hout.
  { assert (clientKeys s' = ["a"]) as -> by (vm_compute; reflexivity).
    intros [=]%list_elem_of_singleton. }
  destruct (tick_updates_follow_the_sweep 31500 s) as [[Hs Hno] _].
  split; [exact Hs|]. split; [exact Hm|]. split; [exact Hb|]. split; [exact Hout|].
  exact (Hno Scenes.updateForA b Hm Hb Hout).
Defined.

(** ** Heartbeats *)

Lemma receive_heartbeat `{parser : Parser} now m s :
  type m = "heartbeat" →
  Part000.receive now m s = (Returned, handleHeartbeat now m (Part000.touchClient now m s))
  ∧ ServerJs.receive now m s = (Returned, handleHeartbeat now m (ServerJs.touchClient now m s)).
Proof. intros Hty. unfold Part000.receive, ServerJs.receive. rewrite Hty. done. Qed.

Lemma handleHeartbeat_frame now m s :
  _options (handleHeartbeat now m s) = _options s
  ∧ _torrents (handleHeartbeat now m s) = _torrents s
  ∧ heap (handleHeartbeat now m s) = heap s
  ∧ _webtorrent (handleHeartbeat now m s) = _webtorrent s
  ∧ sent (handleHeartbeat now m s) = sent s
  ∧ calls (handleHeartbeat now m s) = calls s
  ∧ timers (handleHeartbeat now m s) = timers s.
Proof. unfold handleHeartbeat. by destruct (getClient _ s). Qed.

Lemma find_filter {A} (p : A → bool) (Q : A → Prop) `{∀ x, Decision (Q x)} (l : list A) :
  (∀ x, x ∈ l → p x = true → Q x) → List.find p (filter Q l) = List.find p l.
Proof.
  induction l as [|x l IH]; intros HQ; [done|].
  assert (∀ y, y ∈ l → p y = true → Q y) as HQ' by (intros y Hy; apply HQ; by right).
  destruct (p x) eqn:Hp.
  - rewrite filter_cons_True by (apply HQ; [left|done]). simpl. by rewrite Hp.
  - simpl. rewrite Hp. destruct (decide (Q x)).
    + rewrite filter_cons_True by done. simpl. rewrite Hp. by apply IH.
    + rewrite filter_cons_False by done. by apply IH.
Qed.

Lemma key_of_entry s c1 c2 :
  NoDup (clientKeys s) → c1 ∈ _clients s → c2 ∈ _clients s →
  cl_clientKey c1 = cl_clientKey c2 → c1 = c2.
Proof.
  unfold clientKeys. generalize (_clients s). intros l.
  induction l as [|x l IH]; intros Hnd H1 H2 Hk; [by apply elem_of_nil in H1|].
  simpl in Hnd. apply NoDup_cons in Hnd as [Hx Hnd].
  apply elem_of_cons in H1 as [->|H1]; apply elem_of_cons in H2 as [->|H2]; try done.
  - exfalso. apply Hx. rewrite Hk. apply list_elem_of_fmap. eauto.
  - exfalso. apply Hx. rewrite <- Hk. apply list_elem_of_fmap. eauto.
  - by apply IH.
Qed.

Lemma getClient_elem ck s e : getClient ck s = Some e → e ∈ _clients s.
Proof. unfold getClient. intros [Hin _]%find_some. by apply list_elem_of_In. Qed.

Lemma fresh_not_dead (P : Client → Prop) `{∀ c, Decision (P c)} s ck e :
  NoDup (clientKeys s) → getClient ck s = Some e → ¬ P e →
  ck ∉ map cl_clientKey (filter P (_clients s)).
Proof.
  intros Hnd Hg Hp (c & Hk & [Hc Hin]%list_elem_of_filter)%list_elem_of_fmap.
  assert (c = e) as ->; [|done].
  apply (key_of_entry s); [done|done|by eapply getClient_elem|].
  rewrite <- Hk. symmetry. by eapply getClient_key.
Qed.

(** What a teardown keeps of a client that is not among its keys. *)
Lemma kept_by_teardown keys s s' ck :
  Inv s → teardown keys s s' → ck ∉ keys →
  getClient ck s' = getClient ck s
  ∧ ∀ r c, r ∈ _torrents s → c ∈ clientsOf r s → c_clientKey c = ck →
           r ∈ _torrents s' ∧ c ∈ clientsOf r s'.
Proof.
  intros (_ & _ & I3 & _) (_ & _ & _ & Hcs & Hts & Hheap & _) Hck. split.
  - unfold getClient. rewrite Hcs. apply find_filter.
    intros x _ Hx. apply bool_decide_eq_true in Hx. by rewrite Hx.
  - intros r c Hr Hc Hk.
    destruct (I3 r Hr) as (h & (t & Ht & _ & Hd)%skeleton_lookup).
    destruct (Hheap r t Hr Ht) as (t' & Ht' & Hcl & _).
    unfold clientsOf in Hc |- *. rewrite Ht in Hc. rewrite Ht', Hcl.
    assert (c ∈ pruned keys (clients t)) as Hp
      by (apply list_elem_of_filter; split; [by rewrite Hk|done]).
    split; [|done]. rewrite Hts. apply list_elem_of_filter. split; [|done].
    unfold survives. rewrite Ht, Hd. simpl. case_bool_decide as He; [|done].
    rewrite He in Hp. by apply elem_of_nil in Hp.
Qed.

Lemma getClient_sameState ck s s' : sameState s s' → getClient ck s' = getClient ck s.
Proof. intros (_ & _ & Hc & _). unfold getClient. by rewrite Hc. Qed.

Lemma kept_by_sweep s1 swept s' ck :
  Inv s1 →
  sameState s1 swept ∨ (∃ keys, teardown keys s1 swept ∧ ck ∉ keys) →
  sameState swept s' →
  getClient ck s' = getClient ck s1
  ∧ ∀ r c, r ∈ _torrents s1 → c ∈ clientsOf r s1 → c_clientKey c = ck →
           r ∈ _torrents s' ∧ c ∈ clientsOf r s'.
Proof.
  intros HI Hsw Hup.
  assert (getClient ck swept = getClient ck s1
          ∧ ∀ r c, r ∈ _torrents s1 → c ∈ clientsOf r s1 → c_clientKey c = ck →
                   r ∈ _torrents swept ∧ c ∈ clientsOf r swept) as [Hg Hk].
  { destruct Hsw as [Hs|(keys & Htd & Hck)]; [|by eapply kept_by_teardown].
    split; [by apply getClient_sameState|].
    destruct Hs as (_ & _ & _ & Ht & Hh & _). unfold clientsOf. rewrite Ht, Hh. done. }
  split; [by rewrite (getClient_sameState _ _ _ Hup)|].
  intros r c Hr Hc Hkey. destruct (Hk r c Hr Hc Hkey) as [Hr' Hc'].
  destruct Hup as (_ & _ & _ & Ht & Hh & _). unfold clientsOf in *. by rewrite Ht, Hh.
Qed.

Section HeartbeatKeeps.
Context {parser : Parser}.

Lemma sweep_keeps_Part000 later T s1 ck e :
  NoDup (clientKeys s1) → getClient ck s1 = Some e → later - heartbeat e ≤ T →
  let swept := Part000.removeDeadClients later T s1 in
  sameState s1 swept ∨ (∃ keys, teardown keys s1 swept ∧ ck ∉ keys).
Proof.
  intros Hnd Hg He. unfold Part000.removeDeadClients.
  set (dead := filter (λ c, ¬ later - heartbeat c ≤ T) (_clients s1)).
  set (s1' := foldl (λ s' c, traceLog (LogClientDied (cl_clientKey c)) s') s1 dead).
  assert (sameState s1 s1') as Hs1 by apply foldl_traceLog.
  assert (sent s1' = sent s1) as Hsent by apply sent_foldl_traceLog.
  simpl. destruct (decide (map cl_clientKey dead = [])) as [->|Hne]; [by left|].
  right. exists (map cl_clientKey dead). split.
  - eapply teardown_sameState; [done|done|]. by apply killClients_teardown.
  - apply (fresh_not_dead _ s1 ck e); [done|done|]. intros Hd. by apply Hd.
Qed.

Lemma sweep_keeps_ServerJs later T s1 ck e :
  NoDup (clientKeys s1) → getClient ck s1 = Some e → later - heartbeat e ≤ T →
  let swept := ServerJs.removeDeadClients later T s1 in
  sameState s1 swept ∨ (∃ keys, teardown keys s1 swept ∧ ck ∉ keys).
Proof.
  intros Hnd Hg He. simpl.
  destruct (decide (filter (λ c, later - heartbeat c > T) (_clients s1) = [])) as [Hd|Hne].
  - rewrite removeDeadClients_none by done. left. apply sameState_refl.
  - right. eexists. split.
    + apply removeDeadClients_teardown. intros Hm. apply Hne. by apply fmap_nil_inv in Hm.
    + apply (fresh_not_dead _ s1 ck e); [done|done|lia].
Qed.

End HeartbeatKeeps.



(** ** The destroy message *)

(** After a teardown the clients it removed are gone from the registry and
    from every registered torrent. *)
Lemma gone_after_teardown keys s s' :
  teardown keys s s' →
  (∀ k, k ∈ keys → k ∉ clientKeys s')
  ∧ ∀ r c, r ∈ _torrents s' → c ∈ clientsOf r s' → c_clientKey c ∉ keys.
Proof.
  intros (_ & _ & _ & Hcs & Hts & Hheap & _). split.
  - intros k Hk (c & -> & Hc)%list_elem_of_fmap. rewrite Hcs in Hc.
    by apply list_elem_of_filter in Hc as [Hc _].
  - intros r c Hr Hc. rewrite Hts in Hr. apply list_elem_of_filter in Hr as [Hsv Hr].
    unfold survives in Hsv. destruct (heap s !! r) as [t|] eqn:Ht; [|done].
    destruct (Hheap r t Hr Ht) as (t' & Ht' & Hcl & _).
    unfold clientsOf in Hc. rewrite Ht', Hcl in Hc.
    by apply list_elem_of_filter in Hc as [Hk _].
Qed.

Lemma timers_framed : framed timers.
Proof. by repeat split. Qed.

Lemma options_framed : framed _options.
Proof. by repeat split. Qed.

Lemma timers_killClients keys s : timers (Part000.killClients keys s) = timers s.
Proof.
  destruct (decide (keys = [])) as [->|Hne]; [done|].
  by destruct (killClients_teardown keys s Hne) as (_ & -> & _).
Qed.

Lemma removeTimer_other ck ck' l : ck ∈ l → ck ≠ ck' → ck ∈ removeTimer ck' l.
Proof.
  intros Hin Hne. induction l as [|x l IH]; [done|]. simpl.
  apply elem_of_cons in Hin as [->|Hin].
  - rewrite bool_decide_eq_false_2 by done. left.
  - case_bool_decide; [done|]. right. by apply IH.
Qed.

Lemma timers_webtorrent s : timers (webtorrent s) = timers s.
Proof. unfold webtorrent. by destruct (_webtorrent s). Qed.

Section Destroy.
Context {parser : Parser}.

Lemma touchClient_options_Part000 now m s :
  _options (Part000.touchClient now m s) = _options s.
Proof.
  unfold Part000.touchClient. destruct (getClient _ s); [done|].
  simpl. apply (frame_traceLog _ options_framed).
Qed.

Lemma touchClient_clients_Part000 now m s :
  filter (λ c, cl_clientKey c ∉ [clientKey m]) (_clients (Part000.touchClient now m s))
  = filter (λ c, cl_clientKey c ∉ [clientKey m]) (_clients s).
Proof.
  unfold Part000.touchClient. destruct (getClient _ s); [done|]. simpl.
  destruct (sameState_traceLog (LogAddingClient (clientKey m)) s) as (_ & _ & -> & _).
  rewrite filter_app, filter_cons_False, filter_nil, app_nil_r; [done|].
  simpl. intros Hn. apply Hn. left.
Qed.

Lemma receive_destroy now m s :
  type m = "destroy" →
  Part000.receive now m s = (Returned, Part000.handleDestroy m (Part000.touchClient now m s)).
Proof. intros Hty. unfold Part000.receive. rewrite Hty. done. Qed.

Lemma timers_receive_Part000 now m s ck :
  ck ∈ timers s → ck ∈ timers (Part000.receive now m s).2.
Proof.
  intros Hin.
  assert (ck ∈ timers (Part000.touchClient now m s)) as H1
    by (by destruct (touchClient_frame_Part000 now m s) as (_ & _ & -> & _)).
  unfold Part000.receive. repeat case_bool_decide; simpl.
  - by destruct (quiet_handleSubscribe_Part000 m _ _ (quiet_refl (Part000.touchClient now m s)))
      as ((_ & _ & ->) & _).
  - by destruct (keepsClients_handleAddTorrent_Part000 m (Part000.touchClient now m s))
      as (_ & _ & ->).
  - by rewrite (frame_handleCreateServer_Part000 _ timers_framed), timers_webtorrent.
  - by destruct (handleHeartbeat_frame now m (Part000.touchClient now m s))
      as (_ & _ & _ & _ & _ & _ & ->).
  - unfold Part000.handleDestroy.
    assert (timers (traceLog (LogDestroyingClient (clientKey m)) (Part000.touchClient now m s))
            = timers (Part000.touchClient now m s)) as Ht
      by apply (frame_traceLog _ timers_framed).
    destruct (options m ≫= opt_delay); [|by rewrite timers_killClients, Ht].
    case_bool_decide; [by rewrite timers_killClients, Ht|].
    simpl. rewrite Ht. apply elem_of_app. by left.
  - done.
Qed.

Lemma timers_stepPart000 e s ck :
  ck ∈ timers s → e ≠ EvTimeout ck → ck ∈ timers (stepPart000 e s).
Proof.
  intros Hin Hne. destruct e; simpl.
  - by apply timers_receive_Part000.
  - unfold Part000.sendUpdates. rewrite (frame_updates _ timers_framed).
    destruct (0 <? _); [|done]. unfold Part000.removeDeadClients.
    rewrite timers_killClients.
    by destruct (foldl_traceLog (λ c, LogClientDied (cl_clientKey c))
                   (filter (λ c, ¬ now - heartbeat c
                                   ≤ match heartbeatTimeout (_options s) with
                                     | Some t => t
                                     | None => 30000
                                     end) (_clients s)) s)
      as (_ & _ & _ & _ & _ & -> & _).
  - by rewrite (frame_onListening_Part000 _ timers_framed).
  - unfold Part000.onTimeout. case_bool_decide; [|done].
    rewrite timers_killClients. simpl. apply removeTimer_other; [done|]. by intros ->.
  - by rewrite (proj1 (frame_onTorrentEvent _ timers_framed _ _ _)).
  - destruct (_webtorrent s); [|done]. by rewrite (frame_onEngineEvent _ timers_framed).
  - done.
Qed.

Lemma timers_run es s ck :
  ck ∈ timers s → EvTimeout ck ∉ es → ck ∈ timers (run stepPart000 es s).
Proof.
  revert s. induction es as [|e es IH]; intros s Hin Hes; [done|].
  simpl. apply IH.
  - apply timers_stepPart000; [done|]. intros ->. apply Hes. left.
  - intros H. apply Hes. by right.
Qed.

End Destroy.


(** X10. A 'destroy' message with a delay ([handleDestroy] of part_000, the
    [setTimeout] branch) changes nothing but the pending timers, and is not
    undone by anything the broker receives later: whatever events follow,
    heartbeats and new subscriptions of the sender among them, when the
    timer fires the sender is torn down: it is gone from the registry, and
    no registered torrent has a subscription of it. *)
Theorem delayed_destroy_is_not_cancelled :
  ∀ (parser : Parser) (now : Z) (m : Message) (s : Server) (es : list Event),
    type m = "destroy" →
    (∃ d, options m ≫= opt_delay = Some d ∧ d ≠ 0) →
    EvTimeout (clientKey m) ∉ es →
    let s1 := (Part000.receive now m s).2 in
    let s2 := stepPart000 (EvTimeout (clientKey m)) (run stepPart000 es s1) in
    (Part000.receive now m s).1 = Returned
    ∧ timers s1 = timers s ++ [clientKey m]
    ∧ _torrents s1 = _torrents s ∧ heap s1 = heap s ∧ _webtorrent s1 = _webtorrent s
    ∧ sent s1 = sent s ∧ calls s1 = calls s
    ∧ (clientKey m ∉ clientKeys s2)
    ∧ ∀ r c, r ∈ _torrents s2 → c ∈ clientsOf r s2 → c_clientKey c ≠ clientKey m.
Proof.
  intros parser now m s es Hty (d & Hdel & Hd) Hes. cbv zeta.
  rewrite receive_destroy by done. simpl.
  unfold Part000.handleDestroy. rewrite Hdel. rewrite bool_decide_eq_false_2 by done.
  set (s0 := traceLog (LogDestroyingClient (clientKey m)) (Part000.touchClient now m s)).
  assert (sameState (Part000.touchClient now m s) s0) as (Ho & Hw & Hc & Ht & Hh & Htm & Hcl)
    by apply sameState_traceLog.
  assert (sent s0 = sent (Part000.touchClient now m s)) as Hs by apply traceLog_sent.
  destruct (touchClient_frame_Part000 now m s) as (Ft & Fh & Ftm & Fw & Fs & Fc).
  simpl. repeat (split; [congruence|]).
  set (s1 := with_timers (timers s0 ++ [clientKey m]) s0).
  assert (clientKey m ∈ timers (run stepPart000 es s1)) as Hin.
  { apply timers_run; [|done]. simpl. apply elem_of_app. right. left. }
  unfold Part000.onTimeout. rewrite bool_decide_eq_true_2 by done.
  assert ([clientKey m] ≠ []) as Hne by done.
  destruct (gone_after_teardown _ _ _
              (killClients_teardown [clientKey m]
                 (with_timers (removeTimer (clientKey m) (timers (run stepPart000 es s1)))
                    (run stepPart000 es s1)) Hne)) as [Hg Hsub].
  split.
  - apply Hg. left.
  - intros r c Hr Hc0 Hk. apply (Hsub r c Hr Hc0). rewrite Hk. left.
Qed.


Lemma delayed_destroy_is_not_cancelled_witness :
  let m := Scenes.destroyLater in
  let es := [EvReceive 3000 (Examples.beat "b"); EvTick 4000] in
  let s1 := (@Part000.receive hashParser 2000 m Examples.afterAB_Part000).2 in
  let s2 := @stepPart000 hashParser (EvTimeout "b") (run (@stepPart000 hashParser) es s1) in
  type m = "destroy"
  ∧ (options m ≫= opt_delay = Some 5000 ∧ 5000 ≠ 0)
  ∧ (EvTimeout "b" ∉ es)
  ∧ timers s1 = timers Examples.afterAB_Part000 ++ ["b"]
  ∧ ("b" ∉ clientKeys s2)
  ∧ ∀ r c, r ∈ _torrents s2 → c ∈ clientsOf r s2 → c_clientKey c ≠ "b".
Proof.
  intros m es s1 s2.
  assert (type m = "destroy") as Hty by reflexivity.
  assert (options m ≫= opt_delay = Some 5000 ∧ 5000 ≠ 0) as Hdel by (split; [reflexivity|lia]).
  assert (EvTimeout "b" ∉ es) as Hes.
  { intros H. apply elem_of_cons in H as [H|H]; [discriminate H|].
    apply list_elem_of_singleton in H. discriminate H. }
  destruct (delayed_destroy_is_not_cancelled hashParser 2000 m Examples.afterAB_Part000 es
              Hty (ex_intro _ 5000 Hdel) Hes) as (_ & Htm & _ & _ & _ & _ & _ & Hg & Hs).
  split; [exact Hty|]. split; [exact Hdel|]. split; [exact Hes|].
  split; [exact Htm|]. split; [exact Hg|]. exact Hs.
Defined.

(** ** When [receive] throws *)

Section Throws.
Context {parser : Parser}.

Lemma handleSubscribe_result m s :
  (Part000.handleSubscribe m s).1
  = match parseTorrent (torrentID m) with
    | None => Thrown "Invalid torrent identifier"
    | Some _ => Returned
    end
  ∧ (ServerJs.handleSubscribe m s).1
    = match parseTorrent (torrentID m) with
      | None => Thrown "Invalid torrent identifier"
      | Some _ => Returned
      end.
Proof.
  unfold Part000.handleSubscribe, ServerJs.handleSubscribe.
  destruct (parseTorrent (torrentID m)) as [h|]; [|done].
  split; [done|]. by destruct (findByInfoHash h s (wtTorrents s)).
Qed.

Lemma handleAddTorrent_result_Part000 m s :
  (Part000.handleAddTorrent m s).1
  = match parseTorrent (torrentID m) with
    | None => Thrown "Invalid torrent identifier"
    | Some _ =>
        match options m with
        | None => Thrown "TypeError: Cannot read property 'server' of undefined"
        | Some _ => Returned
        end
    end.
Proof.
  unfold Part000.handleAddTorrent.
  destruct (parseTorrent (torrentID m)) as [h|]; [|done].
  destruct (findByInfoHash h (webtorrent s) (wtTorrents (webtorrent s))) as [r|];
    simpl; destruct (options m) as [o|]; try done; by destruct (opt_server o).
Qed.

Lemma handleAddTorrent_result_ServerJs m s :
  (ServerJs.handleAddTorrent m s).1
  = match parseTorrent (torrentID m) with
    | None => Thrown "Invalid torrent identifier"
    | Some _ => Returned
    end.
Proof.
  unfold ServerJs.handleAddTorrent.
  destruct (parseTorrent (torrentID m)) as [h|]; [|done].
  destruct (findByInfoHash h (webtorrent s) (wtTorrents (webtorrent s))) as [r|]; [|done].
  by destruct (heap (webtorrent s) !! r).
Qed.

Lemma handleCreateServer_result_ServerJs m s :
  (ServerJs.handleCreateServer m s).1
  = match findByKey (torrentKey m) s (wtTorrents s) with
    | Some _ => Returned
    | None => Thrown ("Missing torrentKey: " +:+ showKey (torrentKey m))
    end.
Proof.
  unfold ServerJs.handleCreateServer.
  pose proof (getTorrentByKey_find_ServerJs (torrentKey m) s) as Hf.
  destruct (ServerJs.getTorrentByKey (torrentKey m) s) as [[e|r] s1] eqn:Hg; simpl in Hf.
  - destruct (findByKey (torrentKey m) s (wtTorrents s)); [done|]. by injection Hf as ->.
  - destruct (findByKey (torrentKey m) s (wtTorrents s)); [|done].
    destruct (heap s1 !! r) as [t|]; [|done].
    destruct (serverURL t); [done|]. by destruct (pendingHttpClients t).
Qed.

End Throws.



(** ** An add-torrent message that fails *)

Lemma webtorrent_frame s :
  _options (webtorrent s) = _options s ∧ _clients (webtorrent s) = _clients s
  ∧ _torrents (webtorrent s) = _torrents s ∧ heap (webtorrent s) = heap s
  ∧ sent (webtorrent s) = sent s ∧ timers (webtorrent s) = timers s
  ∧ is_Some (_webtorrent (webtorrent s))
  ∧ calls (webtorrent s)
    = calls s ++ (if bool_decide (is_Some (_webtorrent s)) then [] else [CallNew]).
Proof.
  unfold webtorrent. destruct (_webtorrent s) eqn:Hw; simpl; rewrite ?Hw;
    repeat split; eauto using app_nil_r.
Qed.

Section FailedAdd.
Context {parser : Parser}.

Lemma receive_add now m s :
  type m = "add-torrent" →
  Part000.receive now m s = Part000.handleAddTorrent m (Part000.touchClient now m s)
  ∧ ServerJs.receive now m s = ServerJs.handleAddTorrent m (ServerJs.touchClient now m s).
Proof. intros Hty. unfold Part000.receive, ServerJs.receive. rewrite Hty. done. Qed.

Lemma sent_add_no_options m s :
  options m = None → sent (Part000.handleAddTorrent m s).2 = sent s.
Proof.
  intros Ho. unfold Part000.handleAddTorrent.
  destruct (webtorrent_frame s) as (_ & _ & _ & _ & Hs & _).
  destruct (parseTorrent (torrentID m)) as [h|]; [|done].
  destruct (findByInfoHash h (webtorrent s) (wtTorrents (webtorrent s))) as [r|];
    simpl; rewrite Ho; simpl; [done|].
  by rewrite traceLog_sent.
Qed.

End FailedAdd.

(** X12. An 'add-torrent' message that fails has changed the server
    already. When parse-torrent rejects the identifier, [handleAddTorrent]
    throws after [server.webtorrent()]: in both sources the engine instance
    exists afterwards, created by this message when there was none, and
    nothing else has changed but the entry of the sender. When the
    identifier parses and the message has no [options], part_000 throws at
    [message.options.server], after the swarm was joined or found and the
    sender subscribed: the subscription stays, and no 'torrent-subscribed'
    answer is sent. *)
Theorem failed_add_torrent_leaves_its_trace :
  ∀ (parser : Parser) (now : Z) (m : Message) (s : Server),
    type m = "add-torrent" →
    (parseTorrent (torrentID m) = None →
     let s1 := (Part000.receive now m s).2 in
     let s2 := (ServerJs.receive now m s).2 in
     (Part000.receive now m s).1 = Thrown "Invalid torrent identifier"
     ∧ (ServerJs.receive now m s).1 = Thrown "Invalid torrent identifier"
     ∧ is_Some (_webtorrent s1) ∧ is_Some (_webtorrent s2)
     ∧ calls s1 = calls s ++ (if bool_decide (is_Some (_webtorrent s)) then [] else [CallNew])
     ∧ calls s2 = calls s ++ (if bool_decide (is_Some (_webtorrent s)) then [] else [CallNew])
     ∧ _torrents s1 = _torrents s ∧ heap s1 = heap s ∧ sent s1 = sent s
     ∧ _torrents s2 = _torrents s ∧ heap s2 = heap s ∧ sent s2 = sent s)
    ∧ (∀ h, parseTorrent (torrentID m) = Some h → options m = None →
       reachable stepPart000 s →
       let s1 := (Part000.receive now m s).2 in
       (Part000.receive now m s).1
       = Thrown "TypeError: Cannot read property 'server' of undefined"
       ∧ sent s1 = sent s
       ∧ joinOrAttach h m s s1).
Proof.
  intros parser now m s Hty.
  destruct (receive_add now m s Hty) as [E1 E2]. split.
  - intros Hp. cbv zeta. rewrite E1, E2.
    unfold Part000.handleAddTorrent, ServerJs.handleAddTorrent. rewrite Hp. simpl.
    destruct (touchClient_frame_Part000 now m s) as (Ft & Fh & _ & Fw & Fs & Fc).
    destruct (touchClient_frame_ServerJs now m s) as (Gt & Gh & _ & Gw & Gs & Gc).
    destruct (webtorrent_frame (Part000.touchClient now m s))
      as (_ & _ & Wt & Wh & Ws & _ & Wi & Wc).
    destruct (webtorrent_frame (ServerJs.touchClient now m s))
      as (_ & _ & Vt & Vh & Vs & _ & Vi & Vc).
    rewrite Wc, Vc, Wt, Wh, Ws, Vt, Vh, Vs, Fw, Gw, Fc, Gc.
    repeat split; done.
  - intros h Hp Ho R. cbv zeta. split; [|split].
    + rewrite E1, handleAddTorrent_result_Part000, Hp, Ho. done.
    + rewrite E1, sent_add_no_options by done.
      by destruct (touchClient_frame_Part000 now m s) as (_ & _ & _ & _ & -> & _).
    + apply receive_add_Part000; [by apply reachable_Inv_Part000|done|done].
Qed.

Lemma failed_add_torrent_leaves_its_trace_witness :
  let s := newServer Examples.defaults in
  (type Scenes.addUnparsed = "add-torrent"
   ∧ hashParser (torrentID Scenes.addUnparsed) = None
   ∧ (@Part000.receive hashParser 0 Scenes.addUnparsed s).1 = Thrown "Invalid torrent identifier"
   ∧ is_Some (_webtorrent (@Part000.receive hashParser 0 Scenes.addUnparsed s).2)
   ∧ is_Some (_webtorrent (@ServerJs.receive hashParser 0 Scenes.addUnparsed s).2))
  ∧ (type Scenes.addNoOptions = "add-torrent"
     ∧ hashParser (torrentID Scenes.addNoOptions) = Some Examples.hashX
     ∧ options Scenes.addNoOptions = None
     ∧ reachable (@stepPart000 hashParser) s
     ∧ (@Part000.receive hashParser 0 Scenes.addNoOptions s).1
       = Thrown "TypeError: Cannot read property 'server' of undefined"
     ∧ sent (@Part000.receive hashParser 0 Scenes.addNoOptions s).2 = sent s
     ∧ joinOrAttach Examples.hashX Scenes.addNoOptions s
         (@Part000.receive hashParser 0 Scenes.addNoOptions s).2).
Proof.
  intros s.
  assert (type Scenes.addUnparsed = "add-torrent") as Hty1 by reflexivity.
  assert (hashParser (torrentID Scenes.addUnparsed) = None) as Hp1 by (vm_compute; reflexivity).
  assert (type Scenes.addNoOptions = "add-torrent") as Hty2 by reflexivity.
  assert (hashParser (torrentID Scenes.addNoOptions) = Some Examples.hashX) as Hp2
    by (vm_compute; reflexivity).
  assert (options Scenes.addNoOptions = None) as Ho by reflexivity.
  assert (reachable (@stepPart000 hashParser) s) as R by apply reachable_new.
  destruct (failed_add_torrent_leaves_its_trace hashParser 0 Scenes.addUnparsed s Hty1)
    as [F1 _].
  destruct (failed_add_torrent_leaves_its_trace hashParser 0 Scenes.addNoOptions s Hty2)
    as [_ F2].
  destruct (F1 Hp1) as (T1 & _ & W1 & W2 & _).
  destruct (F2 Examples.hashX Hp2 Ho R) as (T2 & S2 & J2).
  split.
  - split; [exact Hty1|]. split; [exact Hp1|]. split; [exact T1|]. split; [exact W1|exact W2].
  - split; [exact Hty2|]. split; [exact Hp2|]. split; [exact Ho|]. split; [exact R|].
    split; [exact T2|]. split; [exact S2|exact J2].
Defined.

(** ** Answers to subscribe and add-torrent *)

Lemma find_registered h s r t :
  Inv s → r ∈ _torrents s → heap s !! r = Some t → infoHash t = h →
  findByInfoHash h s (wtTorrents s) = Some r.
Proof.
  intros (I1 & _ & _ & I4) Hr Ht Hi.
  destruct (findByInfoHash_complete h s (wtTorrents s) r t) as (r' & Hf); [by rewrite I1|done|done|].
  rewrite Hf. f_equal.
  apply findByInfoHash_Some in Hf as [Hin (t' & Ht' & Hi')]. rewrite I1 in Hin.
  apply I4; [done|done|]. unfold infoHashOf. rewrite Ht, Ht'. simpl. congruence.
Qed.

Lemma find_unregistered h s :
  Inv s → (∀ r, r ∈ _torrents s → infoHashOf s r ≠ Some h) →
  findByInfoHash h s (wtTorrents s) = None.
Proof.
  intros (I1 & _) Hnone.
  destruct (findByInfoHash h s (wtTorrents s)) as [r|] eqn:Hf; [|done].
  exfalso. apply findByInfoHash_Some in Hf as [Hin (t & Ht & Hi)].
  rewrite I1 in Hin. apply (Hnone r Hin). unfold infoHashOf. rewrite Ht. simpl. by rewrite Hi.
Qed.

Lemma find_touched h s s1 :
  heap s1 = heap s → _webtorrent s1 = _webtorrent s →
  findByInfoHash h (webtorrent s1) (wtTorrents (webtorrent s1))
  = findByInfoHash h s (wtTorrents s)
  ∧ findByInfoHash h s1 (wtTorrents s1) = findByInfoHash h s (wtTorrents s).
Proof.
  intros Hh Hw. rewrite wtTorrents_webtorrent.
  rewrite (findByInfoHash_heap h s1 (webtorrent s1)) by apply heap_webtorrent.
  rewrite (findByInfoHash_heap h s s1) by done.
  unfold wtTorrents. by rewrite Hw.
Qed.

Lemma lookup_push r sub s t :
  heap s !! r = Some t →
  heap (updTorrent r (push_client sub) s) !! r = Some (push_client sub t).
Proof. intros Ht. unfold updTorrent. simpl. by rewrite list_lookup_alter_eq, Ht. Qed.

Section Answers.
Context {parser : Parser}.

Lemma receive_subscribe now m s :
  type m = "subscribe" →
  Part000.receive now m s = Part000.handleSubscribe m (Part000.touchClient now m s)
  ∧ ServerJs.receive now m s = ServerJs.handleSubscribe m (ServerJs.touchClient now m s).
Proof. intros Hty. unfold Part000.receive, ServerJs.receive. rewrite Hty. done. Qed.

Lemma subscribe_joined_Part000 now m s h r t :
  Inv s → type m = "subscribe" → parseTorrent (torrentID m) = Some h →
  r ∈ _torrents s → heap s !! r = Some t → infoHash t = h →
  let res := Part000.receive now m s in
  res.1 = Returned
  ∧ clientsOf r res.2 = clients t ++ [subscriptionOf m]
  ∧ sent res.2
    = sent s ++ [subscribedAnswer m (TorrentInfoProgress (Part000.infoFields t) (progressFields t))]
  ∧ calls res.2 = calls s ∧ _webtorrent res.2 = _webtorrent s ∧ _torrents res.2 = _torrents s.
Proof.
  intros HI Hty Hp Hr Ht Hi. cbv zeta.
  rewrite (proj1 (receive_subscribe now m s Hty)).
  destruct (touchClient_frame_Part000 now m s) as (Ft & Fh & _ & Fw & Fs & Fc).
  unfold Part000.handleSubscribe. rewrite Hp.
  rewrite (proj2 (find_touched h s _ Fh Fw)), (find_registered h s r t HI Hr Ht Hi).
  cbn [fst snd]. unfold Part000.sendSubscribed. cbn [mbind option_bind].
  rewrite (lookup_push r _ _ t) by (by rewrite Fh).
  unfold clientsOf. simpl. rewrite list_lookup_alter_eq, Fh, Ht. simpl.
  rewrite Fs, Fc, Fw, Ft. done.
Qed.

Lemma subscribe_joined_ServerJs now m s h r t :
  Inv s → type m = "subscribe" → parseTorrent (torrentID m) = Some h →
  r ∈ _torrents s → heap s !! r = Some t → infoHash t = h →
  let res := ServerJs.receive now m s in
  res.1 = Returned
  ∧ clientsOf r res.2 = clients t ++ [subscriptionOf m]
  ∧ sent res.2 = sent s ++ [subscribedAnswer m (TorrentInfo (ServerJs.infoFields t))]
  ∧ calls res.2 = calls s ∧ _webtorrent res.2 = _webtorrent s ∧ _torrents res.2 = _torrents s.
Proof.
  intros HI Hty Hp Hr Ht Hi. cbv zeta.
  rewrite (proj2 (receive_subscribe now m s Hty)).
  destruct (touchClient_frame_ServerJs now m s) as (Ft & Fh & _ & Fw & Fs & Fc).
  unfold ServerJs.handleSubscribe. rewrite Hp.
  rewrite (proj2 (find_touched h s _ Fh Fw)), (find_registered h s r t HI Hr Ht Hi).
  rewrite Fh, Ht. cbn [fst snd]. unfold ServerJs.addClient, clientsOf. simpl.
  rewrite list_lookup_alter_eq, Fh, Ht. simpl.
  rewrite Fs, Fc, Fw, Ft. done.
Qed.

End Answers.

(** X13. A 'subscribe' message for a swarm that is joined
    ([handleSubscribe]): when the identifier parses to the fingerprint of a
    registered torrent, the sender gets one more subscription at the end of
    that torrent's list, also when it has the same subscription already
    (nothing is deduplicated), and one 'torrent-subscribed' answer with
    the torrent's fields: its info fields and progress numbers in part_000
    ([sendSubscribed]), its info fields in server.js. The engine is not
    called, and the engine reference and the registry stay as they are. *)
Theorem subscribe_attaches_to_a_joined_swarm :
  ∀ (parser : Parser) (now : Z) (m : Message) (s : Server)
    (h : string) (r : TorrentRef) (t : Torrent),
    type m = "subscribe" → parseTorrent (torrentID m) = Some h →
    r ∈ _torrents s → heap s !! r = Some t → infoHash t = h →
    (reachable stepPart000 s →
     let res := Part000.receive now m s in
     res.1 = Returned
     ∧ clientsOf r res.2 = clients t ++ [subscriptionOf m]
     ∧ sent res.2
       = sent s
         ++ [subscribedAnswer m (TorrentInfoProgress (Part000.infoFields t) (progressFields t))]
     ∧ calls res.2 = calls s ∧ _webtorrent res.2 = _webtorrent s
     ∧ _torrents res.2 = _torrents s)
    ∧ (reachable stepServerJs s →
       let res := ServerJs.receive now m s in
       res.1 = Returned
       ∧ clientsOf r res.2 = clients t ++ [subscriptionOf m]
       ∧ sent res.2 = sent s ++ [subscribedAnswer m (TorrentInfo (ServerJs.infoFields t))]
       ∧ calls res.2 = calls s ∧ _webtorrent res.2 = _webtorrent s
       ∧ _torrents res.2 = _torrents s).
Proof.
  intros parser now m s h r t Hty Hp Hr Ht Hi. split; intros R.
  - apply (subscribe_joined_Part000 now m s h r t); try done. by apply reachable_Inv_Part000.
  - apply (subscribe_joined_ServerJs now m s h r t); try done. by apply reachable_Inv_ServerJs.
Qed.

Lemma subscribe_attaches_to_a_joined_swarm_witness :
  let m := Scenes.subscribeAgain in
  type m = "subscribe" ∧ hashParser (torrentID m) = Some Examples.hashX
  ∧ infoHash Examples.torrentX = Examples.hashX
  ∧ (reachable (@stepPart000 hashParser) Examples.afterAB_Part000
     ∧ 0%nat ∈ _torrents Examples.afterAB_Part000
     ∧ heap Examples.afterAB_Part000 !! 0%nat = Some Examples.torrentX
     ∧ clientsOf 0%nat (@Part000.receive hashParser 2000 m Examples.afterAB_Part000).2
       = clients Examples.torrentX ++ [subscriptionOf m])
  ∧ (reachable (@stepServerJs hashParser) Examples.afterAB_ServerJs
     ∧ 0%nat ∈ _torrents Examples.afterAB_ServerJs
     ∧ heap Examples.afterAB_ServerJs !! 0%nat = Some Examples.torrentX
     ∧ sent (@ServerJs.receive hashParser 2000 m Examples.afterAB_ServerJs).2
       = sent Examples.afterAB_ServerJs
         ++ [subscribedAnswer m (TorrentInfo (ServerJs.infoFields Examples.torrentX))]).
Proof.
  intros m.
  assert (type m = "subscribe") as Hty by reflexivity.
  assert (hashParser (torrentID m) = Some Examples.hashX) as Hp by (vm_compute; reflexivity).
  assert (infoHash Examples.torrentX = Examples.hashX) as Hi by reflexivity.
  assert (reachable (@stepPart000 hashParser) Examples.afterAB_Part000) as R1
    by (do 2 apply reachable_step; apply reachable_new).
  assert (reachable (@stepServerJs hashParser) Examples.afterAB_ServerJs) as R2
    by (do 2 apply reachable_step; apply reachable_new).
  assert (0%nat ∈ _torrents Examples.afterAB_Part000) as Hr1 by (vm_compute; left).
  assert (0%nat ∈ _torrents Examples.afterAB_ServerJs) as Hr2 by (vm_compute; left).
  assert (heap Examples.afterAB_Part000 !! 0%nat = Some Examples.torrentX) as Ht1
    by (vm_compute; reflexivity).
  assert (heap Examples.afterAB_ServerJs !! 0%nat = Some Examples.torrentX) as Ht2
    by (vm_compute; reflexivity).
  destruct (subscribe_attaches_to_a_joined_swarm hashParser 2000 m Examples.afterAB_Part000
              Examples.hashX 0%nat Examples.torrentX Hty Hp Hr1 Ht1 Hi) as [K1 _].
  destruct (subscribe_attaches_to_a_joined_swarm hashParser 2000 m Examples.afterAB_ServerJs
              Examples.hashX 0%nat Examples.torrentX Hty Hp Hr2 Ht2 Hi) as [_ K2].
  destruct (K1 R1) as (_ & C1 & _). destruct (K2 R2) as (_ & _ & S2 & _).
  split; [exact Hty|]. split; [exact Hp|]. split; [exact Hi|]. split.
  - split; [exact R1|]. split; [exact Hr1|]. split; [exact Ht1|exact C1].
  - split; [exact R2|]. split; [exact Hr2|]. split; [exact Ht2|exact S2].
Defined.

Section AddAnswers.
Context {parser : Parser}.

(** [handleAddTorrent] of part_000 up to [var respond]: the torrent it
    found or joined, with the subscription of the sender added. *)
Lemma add_core_Part000 m s h :
  Inv s → parseTorrent (torrentID m) = Some h →
  ∃ r s3 t,
    Part000.handleAddTorrent m s = respondOrServe m r s3
    ∧ sent s3 = sent s ∧ r ∈ _torrents s3
    ∧ heap s3 !! r = Some t ∧ infoHash t = h
    ∧ last (clients t) = Some (subscriptionOf m)
    ∧ ((∀ r', r' ∈ _torrents s → infoHashOf s r' ≠ Some h) →
       r = length (heap s) ∧ serverURL t = None ∧ pendingServerCallbacks t = None
       ∧ calls s3 = calls (webtorrent s) ++ [CallAdd (torrentID m) r]).
Proof.
  intros HI Hp. pose proof HI as (I1 & _).
  destruct (webtorrent_frame s) as (_ & _ & Wt & Wh & Ws & _).
  unfold Part000.handleAddTorrent. rewrite Hp.
  assert (findByInfoHash h (webtorrent s) (wtTorrents (webtorrent s))
          = findByInfoHash h s (wtTorrents s)) as ->.
  { rewrite wtTorrents_webtorrent. by apply findByInfoHash_heap. }
  destruct (findByInfoHash h s (wtTorrents s)) as [r|] eqn:Hf.
  - destruct (findByInfoHash_Some _ _ _ _ Hf) as [Hin (t & Ht & Hi)]. rewrite I1 in Hin.
    exists r, (updTorrent r (push_client (subscriptionOf m)) (webtorrent s)),
      (push_client (subscriptionOf m) t).
    split; [reflexivity|]. split; [done|]. split; [by rewrite <- Wt in Hin|].
    split; [apply lookup_push; by rewrite Wh|]. split; [done|].
    split; [simpl; apply last_snoc|].
    intros Hnone. exfalso. apply (Hnone r Hin). unfold infoHashOf. rewrite Ht. simpl. by rewrite Hi.
  - set (s1 := traceLog (LogJoiningSwarm h) (webtorrent s)).
    assert (heap s1 = heap s) as Hh1 by (subst s1; by rewrite heap_traceLog).
    assert (sent s1 = sent s) as Hs1 by (subst s1; by rewrite traceLog_sent).
    assert (calls s1 = calls (webtorrent s)) as Hc1 by (subst s1; by rewrite traceLog_calls).
    exists (length (heap s)),
      (updTorrent (length (heap s)) (push_client (subscriptionOf m))
         (with_torrents (_torrents (engineAdd (torrentID m) h s1).2 ++ [length (heap s)])
            (updTorrent (length (heap s)) (with_clients [])
               (engineAdd (torrentID m) h s1).2))).
    eexists.
    split; [unfold engineAdd; cbn [fst snd]; by rewrite Hh1|].
    unfold engineAdd. cbn [fst snd]. simpl. rewrite Hh1, Hs1, Hc1.
    split; [done|]. split; [apply elem_of_app; right; left|].
    split.
    { rewrite !list_lookup_alter_eq, lookup_app_r, Nat.sub_diag by done. simpl. reflexivity. }
    by repeat split.
Qed.

End AddAnswers.

(** X14. The answer of part_000 to an 'add-torrent' message that asks for
    no server ([handleAddTorrent], [respond], [sendSubscribed]): whether
    the swarm was joined by this message or before, exactly one message
    is sent, a 'torrent-subscribed' message with the keys of the sender and
    the info fields and progress numbers of the torrent, which is
    registered, has the fingerprint of the identifier, and has the
    subscription of the sender as its last. *)
Theorem add_torrent_is_answered :
  ∀ (parser : Parser) (now : Z) (m : Message) (s : Server) (h : string) (o : MessageOptions),
    type m = "add-torrent" → parseTorrent (torrentID m) = Some h →
    options m = Some o → opt_server o = false →
    reachable stepPart000 s →
    let res := Part000.receive now m s in
    res.1 = Returned
    ∧ ∃ r t, r ∈ _torrents res.2 ∧ heap res.2 !! r = Some t
             ∧ infoHash t = h ∧ last (clients t) = Some (subscriptionOf m)
             ∧ sent res.2
               = sent s ++ [subscribedAnswer m
                              (TorrentInfoProgress (Part000.infoFields t) (progressFields t))].
Proof.
  intros parser now m s h o Hty Hp Ho Hsv R. cbv zeta.
  rewrite (proj1 (receive_add now m s Hty)).
  pose proof (Inv_touchClient_Part000 now m s (reachable_Inv_Part000 s R)) as HI.
  destruct (touchClient_frame_Part000 now m s) as (_ & _ & _ & _ & Fs & _).
  destruct (add_core_Part000 m _ h HI Hp) as (r & s3 & t & -> & Hs & Hr & Ht & Hi & Hl & _).
  unfold respondOrServe. rewrite Ho, Hsv. simpl.
  split; [done|]. exists r, t. unfold Part000.sendSubscribed. simpl. rewrite Ht. simpl.
  rewrite Hs, Fs. done.
Qed.

Lemma add_torrent_is_answered_witness :
  let m := Examples.addX "b" "k2" in
  let res := @Part000.receive hashParser 1000 m Examples.afterA_Part000 in
  type m = "add-torrent" ∧ hashParser (torrentID m) = Some Examples.hashX
  ∧ options m = Examples.noOptions
  ∧ reachable (@stepPart000 hashParser) Examples.afterA_Part000
  ∧ res.1 = Returned
  ∧ ∃ r t, r ∈ _torrents res.2 ∧ heap res.2 !! r = Some t
           ∧ infoHash t = Examples.hashX ∧ last (clients t) = Some (subscriptionOf m)
           ∧ sent res.2
             = sent Examples.afterA_Part000
               ++ [subscribedAnswer m
                     (TorrentInfoProgress (Part000.infoFields t) (progressFields t))].
Proof.
  intros m res.
  assert (type m = "add-torrent") as Hty by reflexivity.
  assert (hashParser (torrentID m) = Some Examples.hashX) as Hp by (vm_compute; reflexivity).
  assert (options m = Examples.noOptions) as Ho by reflexivity.
  assert (reachable (@stepPart000 hashParser) Examples.afterA_Part000) as R
    by apply reachable_step, reachable_new.
  split; [exact Hty|]. split; [exact Hp|]. split; [exact Ho|]. split; [exact R|].
  exact (add_torrent_is_answered hashParser 1000 m Examples.afterA_Part000 Examples.hashX
           _ Hty Hp Ho eq_refl R).
Defined.

(** X15. An 'add-torrent' message that asks for a server and joins a new
    swarm (part_000: [handleAddTorrent], [createServer], the callback of
    [listen], [sendSubscribed]): nothing is sent while the message is
    handled; the engine is asked to join, to create the server and to
    listen, once each; and when the listen completes, the one
    'torrent-subscribed' answer goes out, whose info fields carry the URL
    of the server, 'http://localhost:' and the port. *)
Theorem add_torrent_with_server_is_answered_when_listening :
  ∀ (parser : Parser) (now : Z) (m : Message) (s : Server) (h : string) (o : MessageOptions)
    (port : string),
    type m = "add-torrent" → parseTorrent (torrentID m) = Some h →
    options m = Some o → opt_server o = true →
    reachable stepPart000 s →
    (∀ r', r' ∈ _torrents s → infoHashOf s r' ≠ Some h) →
    let r := length (heap s) in
    let s1 := (Part000.receive now m s).2 in
    let s2 := Part000.onListening r port s1 in
    (Part000.receive now m s).1 = Returned
    ∧ sent s1 = sent s
    ∧ calls s1
      = calls s ++ (if bool_decide (is_Some (_webtorrent s)) then [] else [CallNew])
        ++ [CallAdd (torrentID m) r; CallCreateServer r; CallListen r]
    ∧ ∃ t, heap s2 !! r = Some t ∧ infoHash t = h
           ∧ serverURL t = Some ("http://localhost:" +:+ port)
           ∧ pendingServerCallbacks t = None
           ∧ sent s2
             = sent s ++ [subscribedAnswer m
                            (TorrentInfoProgress (Part000.infoFields t) (progressFields t))].
Proof.
  intros parser now m s h o port Hty Hp Ho Hsv R Hnone. cbv zeta.
  rewrite (proj1 (receive_add now m s Hty)).
  pose proof (Inv_touchClient_Part000 now m s (reachable_Inv_Part000 s R)) as HI.
  destruct (touchClient_frame_Part000 now m s) as (Ft & Fh & _ & Fw & Fs & Fc).
  destruct (add_core_Part000 m _ h HI Hp) as (r & s3 & t & -> & Hs & Hr & Ht & Hi & Hl & Hnew).
  destruct Hnew as (-> & Hu & Hpc & Hcalls).
  { intros r' Hr'. rewrite Ft in Hr'. unfold infoHashOf. rewrite Fh. by apply Hnone. }
  rewrite Fh in *.
  unfold respondOrServe. rewrite Ho, Hsv. cbn [fst snd].
  rewrite (createServer_first _ _ _ t Ht Hu Hpc).
  destruct (webtorrent_frame (Part000.touchClient now m s)) as (_ & _ & _ & _ & _ & _ & _ & Wc).
  split; [done|]. split; [simpl; congruence|]. split.
  { simpl. rewrite Hcalls, Wc, Fw, Fc. by rewrite <- !app_assoc. }
  unfold Part000.onListening. simpl.
  rewrite list_lookup_alter_eq, Ht. simpl.
  rewrite !list_lookup_alter_eq, Ht. simpl.
  eexists. split; [reflexivity|]. simpl.
  rewrite Hs, Fs. by repeat split.
Qed.

Lemma add_torrent_with_server_is_answered_when_listening_witness :
  let m := Scenes.addWithServer in
  let s := newServer Examples.defaults in
  let s1 := (@Part000.receive hashParser 0 m s).2 in
  let s2 := @Part000.onListening 0%nat "8080" s1 in
  type m = "add-torrent" ∧ hashParser (torrentID m) = Some Examples.hashX
  ∧ options m = Examples.wantServer
  ∧ reachable (@stepPart000 hashParser) s
  ∧ (∀ r', r' ∈ _torrents s → infoHashOf s r' ≠ Some Examples.hashX)
  ∧ sent s1 = sent s
  ∧ calls s1 = [CallNew; CallAdd (torrentID m) 0%nat; CallCreateServer 0%nat; CallListen 0%nat]
  ∧ ∃ t, heap s2 !! 0%nat = Some t ∧ infoHash t = Examples.hashX
         ∧ serverURL t = Some "http://localhost:8080"
         ∧ pendingServerCallbacks t = None
         ∧ sent s2
           = sent s ++ [subscribedAnswer m
                          (TorrentInfoProgress (Part000.infoFields t) (progressFields t))].
Proof.
  intros m s s1 s2.
  assert (type m = "add-torrent") as Hty by reflexivity.
  assert (hashParser (torrentID m) = Some Examples.hashX) as Hp by (vm_compute; reflexivity).
  assert (options m = Examples.wantServer) as Ho by reflexivity.
  assert (reachable (@stepPart000 hashParser) s) as R by apply reachable_new.
  assert (∀ r', r' ∈ _torrents s → infoHashOf s r' ≠ Some Examples.hashX) as Hnone
    by (intros r' Hr'; simpl in Hr'; by apply elem_of_nil in Hr').
  destruct (add_torrent_with_server_is_answered_when_listening hashParser 0 m s
              Examples.hashX _ "8080" Hty Hp Ho eq_refl R Hnone) as (_ & Hs & Hc & Ht).
  split; [exact Hty|]. split; [exact Hp|]. split; [exact Ho|]. split; [exact R|].
  split; [exact Hnone|]. split; [exact Hs|]. split; [exact Hc|]. exact Ht.
Defined.

(** X16. What server.js sends for an 'add-torrent' message
    ([handleAddTorrent]): when the swarm is joined already, the sender
    gets three messages at once, addressed with its own keys, in this
    order: 'infohash' and 'metadata' with the info fields of the torrent,
    and a progress message that is 'done' when [downloaded === length]
    and 'update' otherwise; when the message joins a new swarm, nothing is
    sent (the sender hears of it through the events of the torrent). *)
Theorem add_torrent_server_js_messages :
  ∀ (parser : Parser) (now : Z) (m : Message) (s : Server) (h : string),
    type m = "add-torrent" → parseTorrent (torrentID m) = Some h →
    reachable stepServerJs s →
    let res := ServerJs.receive now m s in
    res.1 = Returned
    ∧ (∀ r t, r ∈ _torrents s → heap s !! r = Some t → infoHash t = h →
         let progressType :=
           if bool_decide (ev_downloaded (view t) = ev_length (view t))
           then "done" else "update" in
         sent res.2
         = sent s ++ [assignClient (ServerJs.getInfoMessage t "infohash") (subscriptionOf m);
                      assignClient (ServerJs.getInfoMessage t "metadata") (subscriptionOf m);
                      assignClient (getProgressMessage t progressType) (subscriptionOf m)])
    ∧ ((∀ r, r ∈ _torrents s → infoHashOf s r ≠ Some h) → sent res.2 = sent s).
Proof.
  intros parser now m s h Hty Hp R. cbv zeta.
  rewrite (proj2 (receive_add now m s Hty)).
  pose proof (reachable_Inv_ServerJs s R) as HI.
  destruct (touchClient_frame_ServerJs now m s) as (Ft & Fh & _ & Fw & Fs & Fc).
  destruct (webtorrent_frame (ServerJs.touchClient now m s))
    as (_ & _ & _ & Wh & Ws & _).
  split; [by rewrite handleAddTorrent_result_ServerJs, Hp|].
  unfold ServerJs.handleAddTorrent. rewrite Hp.
  rewrite (proj1 (find_touched h s _ Fh Fw)). split.
  - intros r t Hr Ht Hi. rewrite (find_registered h s r t HI Hr Ht Hi).
    rewrite Wh, Fh, Ht. simpl. rewrite Ws, Fs. by rewrite <- !app_assoc.
  - intros Hnone. rewrite (find_unregistered h s HI Hnone). simpl. by rewrite Ws, Fs.
Qed.

Lemma add_torrent_server_js_messages_witness :
  let m := Examples.addX "b" "k2" in
  let res := @ServerJs.receive hashParser 1000 m Examples.afterA_ServerJs in
  type m = "add-torrent" ∧ hashParser (torrentID m) = Some Examples.hashX
  ∧ reachable (@stepServerJs hashParser) Examples.afterA_ServerJs
  ∧ 0%nat ∈ _torrents Examples.afterA_ServerJs
  ∧ ∃ t, heap Examples.afterA_ServerJs !! 0%nat = Some t ∧ infoHash t = Examples.hashX
         ∧ sent res.2
           = sent Examples.afterA_ServerJs
             ++ [assignClient (ServerJs.getInfoMessage t "infohash") (subscriptionOf m);
                 assignClient (ServerJs.getInfoMessage t "metadata") (subscriptionOf m);
                 assignClient (getProgressMessage t "done") (subscriptionOf m)].
Proof.
  intros m res.
  assert (type m = "add-torrent") as Hty by reflexivity.
  assert (hashParser (torrentID m) = Some Examples.hashX) as Hp by (vm_compute; reflexivity).
  assert (reachable (@stepServerJs hashParser) Examples.afterA_ServerJs) as R
    by apply reachable_step, reachable_new.
  assert (0%nat ∈ _torrents Examples.afterA_ServerJs) as Hr by (vm_compute; left).
  destruct (add_torrent_server_js_messages hashParser 1000 m Examples.afterA_ServerJs
              Examples.hashX Hty Hp R) as (_ & Hfound & _).
  split; [exact Hty|]. split; [exact Hp|]. split; [exact R|]. split; [exact Hr|].
  eexists. split; [reflexivity|]. split; [reflexivity|].
  exact (Hfound 0%nat _ Hr eq_refl eq_refl).
Defined.

Lemma handleHeartbeat_known_state now m s c :
  getClient (clientKey m) s = Some c →
  handleHeartbeat now m s
  = with__clients
      (map (λ c, if bool_decide (cl_clientKey c = clientKey m)
                 then {| cl_clientKey := cl_clientKey c; heartbeat := now |}
                 else c) (_clients s)) s.
Proof. intros Hg. unfold handleHeartbeat. by rewrite Hg. Qed.

Lemma heartbeat_others now m s s1 :
  (∀ c, c ∈ _clients s → c ∈ _clients s1) →
  is_Some (getClient (clientKey m) s1) →
  let s' := handleHeartbeat now m s1 in
  console s' = console s1
  ∧ ∀ c, c ∈ _clients s → cl_clientKey c ≠ clientKey m → c ∈ _clients s'.
Proof.
  intros Hsub [e He]. cbv zeta. rewrite (handleHeartbeat_known_state now m s1 e He). simpl.
  split; [done|]. intros c Hc Hk. apply list_elem_of_fmap. exists c.
  split; [by rewrite bool_decide_eq_false_2|by apply Hsub].
Qed.

(** X17. A 'heartbeat' message touches its sender only ([receive],
    [handleHeartbeat]): in both sources [receive] returns, the entries of
    all other clients are left as they are, and torrents, engine reference,
    timers, sent messages and engine calls are unchanged. Because
    [receive] registers the sender first, the guard of [handleHeartbeat]
    for an unknown client never fires on this path: no 'skipping heartbeat
    for unknown clientKey' line is written. *)
Theorem heartbeat_touches_the_sender_only :
  ∀ (parser : Parser) (now : Z) (m : Message) (s : Server),
    type m = "heartbeat" →
    (let res := Part000.receive now m s in
     res.1 = Returned
     ∧ (∀ c, c ∈ _clients s → cl_clientKey c ≠ clientKey m → c ∈ _clients res.2)
     ∧ (∀ k, ErrUnknownClient k ∈ console res.2 → ErrUnknownClient k ∈ console s)
     ∧ _torrents res.2 = _torrents s ∧ heap res.2 = heap s
     ∧ _webtorrent res.2 = _webtorrent s ∧ timers res.2 = timers s
     ∧ sent res.2 = sent s ∧ calls res.2 = calls s)
    ∧ (let res := ServerJs.receive now m s in
       res.1 = Returned
       ∧ (∀ c, c ∈ _clients s → cl_clientKey c ≠ clientKey m → c ∈ _clients res.2)
       ∧ (∀ k, ErrUnknownClient k ∈ console res.2 → ErrUnknownClient k ∈ console s)
       ∧ _torrents res.2 = _torrents s ∧ heap res.2 = heap s
       ∧ _webtorrent res.2 = _webtorrent s ∧ timers res.2 = timers s
       ∧ sent res.2 = sent s ∧ calls res.2 = calls s).
Proof.
  intros parser now m s Hty. cbv zeta.
  destruct (receive_heartbeat now m s Hty) as [-> ->]. cbn [fst snd].
  split.
  - destruct (handleHeartbeat_frame now m (Part000.touchClient now m s))
      as (_ & -> & -> & -> & -> & -> & ->).
    destruct (touchClient_frame_Part000 now m s) as (-> & -> & -> & -> & -> & ->).
    destruct (heartbeat_others now m s (Part000.touchClient now m s)) as [Hcon Hoth].
    + intros c Hc. unfold Part000.touchClient. destruct (getClient _ s); [done|].
      simpl. apply elem_of_app. left.
      by destruct (sameState_traceLog (LogAddingClient (clientKey m)) s) as (_ & _ & -> & _).
    + destruct (getClient_is_Some (clientKey m) (Part000.touchClient now m s)
                  (touchClient_member_Part000 now m s)) as [e He]. eauto.
    + split; [done|]. split; [done|]. split; [|done].
      intros k. rewrite Hcon. unfold Part000.touchClient.
      destruct (getClient _ s); [done|]. simpl. unfold traceLog.
      destruct (trace (_options s)); [|done]. simpl.
      intros [H|[=]%list_elem_of_singleton]%elem_of_app. done.
  - destruct (handleHeartbeat_frame now m (ServerJs.touchClient now m s))
      as (_ & -> & -> & -> & -> & -> & ->).
    destruct (touchClient_frame_ServerJs now m s) as (-> & -> & -> & -> & -> & ->).
    destruct (heartbeat_others now m s (ServerJs.touchClient now m s)) as [Hcon Hoth].
    + intros c Hc. unfold ServerJs.touchClient. destruct (getClient _ s); [done|].
      simpl. apply elem_of_app. by left.
    + destruct (getClient_is_Some (clientKey m) (ServerJs.touchClient now m s)
                  (touchClient_member_ServerJs now m s)) as [e He]. eauto.
    + split; [done|]. split; [done|]. split; [|done].
      intros k. rewrite Hcon. unfold ServerJs.touchClient. by destruct (getClient _ s).
Qed.

Lemma heartbeat_touches_the_sender_only_witness :
  let m := Examples.beat "a" in
  let b := {| cl_clientKey := "b"; heartbeat := 1000 |} in
  let res := @Part000.receive hashParser 29000 m Examples.afterAB_Part000 in
  type m = "heartbeat"
  ∧ b ∈ _clients Examples.afterAB_Part000 ∧ cl_clientKey b ≠ clientKey m
  ∧ res.1 = Returned ∧ b ∈ _clients res.2
  ∧ sent res.2 = sent Examples.afterAB_Part000.
Proof.
  intros m b res.
  assert (type m = "heartbeat") as Hty by reflexivity.
  assert (b ∈ _clients Examples.afterAB_Part000) as Hb by (vm_compute; right; left).
  assert (cl_clientKey b ≠ clientKey m) as Hk by discriminate.
  destruct (heartbeat_touches_the_sender_only hashParser 29000 m Examples.afterAB_Part000 Hty)
    as [(Hr & Ho & _ & _ & _ & _ & _ & Hs & _) _].
  split; [exact Hty|]. split; [exact Hb|]. split; [exact Hk|]. split; [exact Hr|].
  split; [exact (Ho b Hb Hk)|exact Hs].
Defined.

(** ** A second teardown *)

(** The server has nothing of the clients [keys]: no entry in the
    registry, no subscription on a registered torrent; every registered
    torrent is alive and subscribed; and there is no engine instance
    unless a torrent is registered. *)
Lemma killClients_clean keys s :
  filter (λ c, cl_clientKey c ∉ keys) (_clients s) = _clients s →
  (∀ r, r ∈ _torrents s →
     ∃ t, heap s !! r = Some t ∧ pruned keys (clients t) = clients t
          ∧ clients t ≠ [] ∧ destroyed t = false) →
  (_torrents s = [] → _webtorrent s = None) →
  Part000.killClients keys s = s.
Proof.
  intros Hc Hreg Hw. destruct keys as [|k keys]; [done|].
  unfold Part000.killClients. rewrite foldl_deleteClient, Hc, with__clients_id.
  assert (∀ l, (∀ r, r ∈ l → r ∈ _torrents s) →
               foldl (Part000.killTorrentClients (k :: keys)) s l = s) as Hloop.
  { induction l as [|r l IH]; intros Hl; [done|]. simpl.
    assert (Part000.killTorrentClients (k :: keys) s r = s) as ->; [|apply IH; intros; apply Hl; by right].
    destruct (Hreg r (Hl r (list_elem_of_here _ _))) as (t & Ht & Hp & Hne & _).
    unfold Part000.killTorrentClients.
    assert (updTorrent r
              (λ t, with_clients (filter (λ c, c_clientKey c ∉ k :: keys) (clients t)) t) s
            = s) as ->.
    { unfold updTorrent.
      rewrite (list_alter_ext _ id (heap s) (heap s) r), list_alter_id by
        first [ done | intros x Hx; assert (x = t) as -> by congruence;
                        unfold pruned in Hp; rewrite Hp; by destruct t ].
      by destruct s. }
    rewrite Ht. by rewrite bool_decide_eq_false_2. }
  rewrite Hloop by done.
  assert (filter (λ r, isLive s r) (_torrents s) = _torrents s) as Hlive.
  { symmetry. apply filter_all_elem. intros r Hr.
    destruct (Hreg r Hr) as (t & Ht & _ & _ & Hd). unfold isLive. by rewrite Ht, Hd. }
  simpl. rewrite Hlive.
  assert (with_torrents (_torrents s) s = s) as -> by (by destruct s).
  destruct (_torrents s) eqn:Hts; [|done]. by rewrite Hw.
Qed.

Lemma teardown_clean keys s s' :
  teardown keys s s' →
  filter (λ c, cl_clientKey c ∉ keys) (_clients s') = _clients s'
  ∧ (∀ r, r ∈ _torrents s' →
       ∃ t, heap s' !! r = Some t ∧ pruned keys (clients t) = clients t
            ∧ clients t ≠ [] ∧ destroyed t = false)
  ∧ (_torrents s' = [] → _webtorrent s' = None).
Proof.
  intros (_ & _ & _ & Hcs & Hts & Hheap & Hnil & _). split; [|split; [|done]].
  - rewrite Hcs, list_filter_filter. apply list_filter_iff. tauto.
  - intros r Hr. rewrite Hts in Hr. apply list_elem_of_filter in Hr as [Hsv Hr].
    unfold survives in Hsv. destruct (heap s !! r) as [t|] eqn:Ht; [|done].
    destruct (Hheap r t Hr Ht) as (t' & Ht' & Hcl & _ & Hd).
    apply andb_prop_elim in Hsv as [Hd0 Hp0].
    apply negb_prop_elim, Is_true_false in Hd0. apply negb_prop_elim in Hp0.
    exists t'. split; [done|]. rewrite Hcl, pruned_idemp. split; [done|].
    rewrite Hd, Hd0. split.
    + intros He. apply Hp0. apply bool_decide_pack. done.
    + simpl. apply bool_decide_eq_false_2. intros He. apply Hp0. by apply bool_decide_pack.
Qed.

Lemma no_dead_left (P : Client → Prop) `{∀ c, Decision (P c)} (cs cs' : list Client) :
  cs' = filter (λ c, cl_clientKey c ∉ map cl_clientKey (filter P cs)) cs →
  filter P cs' = [].
Proof.
  intros ->. apply filter_none. intros c [Hk Hc]%list_elem_of_filter Hp.
  apply Hk. apply list_elem_of_fmap. exists c. split; [done|]. by apply list_elem_of_filter.
Qed.

(** X18. A teardown that is repeated changes nothing. [killClients] of
    part_000, called again with the same keys on the server it left (a
    second 'destroy' timer of the same client, say), returns the same
    server: no second [torrent.destroy()], no second [wt.destroy()]; and a
    second sweep at the same time finds no dead client, in both sources. *)
Theorem teardown_twice_is_teardown_once :
  (∀ keys s,
     Part000.killClients keys (Part000.killClients keys s) = Part000.killClients keys s)
  ∧ (∀ now T s,
       Part000.removeDeadClients now T (Part000.removeDeadClients now T s)
       = Part000.removeDeadClients now T s)
  ∧ (∀ now T s,
       ServerJs.removeDeadClients now T (ServerJs.removeDeadClients now T s)
       = ServerJs.removeDeadClients now T s).
Proof.
  split; [|split].
  - intros keys s. destruct (decide (keys = [])) as [->|Hne]; [done|].
    destruct (teardown_clean keys s _ (killClients_teardown keys s Hne)) as (H1 & H2 & H3).
    by apply killClients_clean.
  - intros now T s.
    set (s' := Part000.removeDeadClients now T s).
    assert (filter (λ c, ¬ now - heartbeat c ≤ T) (_clients s') = []) as Hd.
    { apply (no_dead_left _ (_clients s)). subst s'. unfold Part000.removeDeadClients.
      rewrite killClients_clients.
      by destruct (foldl_traceLog (λ c, LogClientDied (cl_clientKey c))
                     (filter (λ c, ¬ now - heartbeat c ≤ T) (_clients s)) s)
        as (_ & _ & -> & _). }
    unfold Part000.removeDeadClients at 1. by rewrite Hd.
  - intros now T s.
    set (s' := ServerJs.removeDeadClients now T s).
    apply removeDeadClients_none.
    destruct (decide (filter (λ c, now - heartbeat c > T) (_clients s) = [])) as [He|Hne].
    + subst s'. by rewrite removeDeadClients_none.
    + apply (no_dead_left _ (_clients s)).
      assert (map cl_clientKey (filter (λ c, now - heartbeat c > T) (_clients s)) ≠ []) as Hk
        by (intros Hm; apply Hne; by apply fmap_nil_inv in Hm).
      subst s'. by destruct (removeDeadClients_teardown now T s Hk) as (_ & _ & _ & -> & _).
Qed.

(** ** After the last subscriber is gone *)

Lemma fingerprint_gone keys s s' h r t :
  Inv s → teardown keys s s' →
  r ∈ _torrents s → heap s !! r = Some t → infoHash t = h →
  (∀ c, c ∈ clients t → c_clientKey c ∈ keys) →
  ∀ r', r' ∈ _torrents s' → infoHashOf s' r' ≠ Some h.
Proof.
  intros (_ & _ & I3 & I4) (_ & _ & _ & _ & Hts & Hheap & _) Hr Ht Hi Hall r' Hr' Hh.
  rewrite Hts in Hr'. apply list_elem_of_filter in Hr' as [Hsv Hr'].
  unfold survives in Hsv. destruct (heap s !! r') as [t0|] eqn:Ht0; [|done].
  destruct (Hheap r' t0 Hr' Ht0) as (t' & Ht' & _ & Hi' & _).
  unfold infoHashOf in Hh. rewrite Ht' in Hh. simpl in Hh. injection Hh as Hh.
  assert (r' = r) as ->.
  { apply I4; [done|done|]. unfold infoHashOf. rewrite Ht0, Ht. simpl. congruence. }
  assert (t0 = t) as -> by congruence.
  assert (pruned keys (clients t) = []) as Hp.
  { apply filter_none. intros c Hc Hn. by apply Hn, Hall. }
  rewrite Hp in Hsv. rewrite bool_decide_eq_true_2 in Hsv by done.
  by destruct (destroyed t).
Qed.

Section Rejoin.
Context {parser : Parser}.

Lemma not_joined_Part000 now m s h :
  Inv s → (∀ r, r ∈ _torrents s → infoHashOf s r ≠ Some h) →
  parseTorrent (torrentID m) = Some h →
  (type m = "subscribe" →
   (Part000.receive now m s).1 = Returned
   ∧ sent (Part000.receive now m s).2 = sent s ++ [subscribedAnswer m TorrentNull]
   ∧ calls (Part000.receive now m s).2 = calls s)
  ∧ (type m = "add-torrent" →
     ∃ r2, _torrents (Part000.receive now m s).2 = _torrents s ++ [r2]
           ∧ joins (Part000.receive now m s).2 = joins s ++ [CallAdd (torrentID m) r2]
           ∧ infoHashOf (Part000.receive now m s).2 r2 = Some h).
Proof.
  intros HI Hnone Hp. split; intros Hty.
  - rewrite (proj1 (receive_subscribe now m s Hty)).
    destruct (touchClient_frame_Part000 now m s) as (Ft & Fh & _ & _ & Fs & Fc).
    destruct (handleSubscribe_not_joined m (Part000.touchClient now m s) h) as (-> & _).
    + by apply Inv_touchClient_Part000.
    + done.
    + intros r Hr. rewrite Ft in Hr. unfold infoHashOf. rewrite Fh. by apply Hnone.
    + simpl. by rewrite Fs, Fc.
  - destruct (receive_add_Part000 now m s h HI Hty Hp) as [_ Hjoin].
    destruct (Hjoin Hnone) as (r2 & _ & Ht & Hj & Hi & _). eauto.
Qed.

Lemma not_joined_ServerJs now m s h :
  Inv s → (∀ r, r ∈ _torrents s → infoHashOf s r ≠ Some h) →
  parseTorrent (torrentID m) = Some h →
  (type m = "subscribe" →
   (ServerJs.receive now m s).1 = Returned
   ∧ sent (ServerJs.receive now m s).2 = sent s ++ [subscribedAnswer m TorrentNull]
   ∧ calls (ServerJs.receive now m s).2 = calls s)
  ∧ (type m = "add-torrent" →
     ∃ r2, _torrents (ServerJs.receive now m s).2 = _torrents s ++ [r2]
           ∧ joins (ServerJs.receive now m s).2 = joins s ++ [CallAdd (torrentID m) r2]
           ∧ infoHashOf (ServerJs.receive now m s).2 r2 = Some h).
Proof.
  intros HI Hnone Hp. split; intros Hty.
  - rewrite (proj2 (receive_subscribe now m s Hty)).
    destruct (touchClient_frame_ServerJs now m s) as (Ft & Fh & _ & _ & Fs & Fc).
    destruct (handleSubscribe_not_joined m (ServerJs.touchClient now m s) h) as (_ & -> & _).
    + by apply Inv_touchClient_ServerJs.
    + done.
    + intros r Hr. rewrite Ft in Hr. unfold infoHashOf. rewrite Fh. by apply Hnone.
    + simpl. by rewrite Fs, Fc.
  - destruct (receive_add_ServerJs now m s h HI Hty Hp) as [_ Hjoin].
    destruct (Hjoin Hnone) as (r2 & _ & Ht & Hj & Hi & _). eauto.
Qed.

End Rejoin.

(** X19. After the last subscriber of a swarm is gone the swarm is gone for
    the broker too. When a teardown ([killClients] in part_000, the sweep
    [removeDeadClients] in server.js) removes every client that is
    subscribed to a registered torrent, no registered torrent has that
    fingerprint afterwards: a later 'subscribe' for it is answered with a
    null torrent and does not call the engine, and a later 'add-torrent'
    for it makes the engine join again, with a new [wt.add]. *)
Theorem swarm_is_joined_again_after_teardown :
  ∀ (parser : Parser) (s : Server) (h : string) (r : TorrentRef) (t : Torrent)
    (now : Z) (m : Message),
    r ∈ _torrents s → heap s !! r = Some t → infoHash t = h →
    parseTorrent (torrentID m) = Some h →
    (∀ keys, reachable stepPart000 s → keys ≠ [] →
       (∀ c, c ∈ clients t → c_clientKey c ∈ keys) →
       let s' := Part000.killClients keys s in
       (∀ r', r' ∈ _torrents s' → infoHashOf s' r' ≠ Some h)
       ∧ (type m = "subscribe" →
          (Part000.receive now m s').1 = Returned
          ∧ sent (Part000.receive now m s').2 = sent s' ++ [subscribedAnswer m TorrentNull]
          ∧ calls (Part000.receive now m s').2 = calls s')
       ∧ (type m = "add-torrent" →
          ∃ r2, _torrents (Part000.receive now m s').2 = _torrents s' ++ [r2]
                ∧ joins (Part000.receive now m s').2 = joins s' ++ [CallAdd (torrentID m) r2]
                ∧ infoHashOf (Part000.receive now m s').2 r2 = Some h))
    ∧ (∀ swept T, reachable stepServerJs s →
         (∀ c, c ∈ clients t →
               ∃ cl, cl ∈ _clients s ∧ cl_clientKey cl = c_clientKey c
                     ∧ swept - heartbeat cl > T) →
         let s' := ServerJs.removeDeadClients swept T s in
         (∀ r', r' ∈ _torrents s' → infoHashOf s' r' ≠ Some h)
         ∧ (type m = "subscribe" →
            (ServerJs.receive now m s').1 = Returned
            ∧ sent (ServerJs.receive now m s').2 = sent s' ++ [subscribedAnswer m TorrentNull]
            ∧ calls (ServerJs.receive now m s').2 = calls s')
         ∧ (type m = "add-torrent" →
            ∃ r2, _torrents (ServerJs.receive now m s').2 = _torrents s' ++ [r2]
                  ∧ joins (ServerJs.receive now m s').2 = joins s' ++ [CallAdd (torrentID m) r2]
                  ∧ infoHashOf (ServerJs.receive now m s').2 r2 = Some h)).
Proof.
  intros parser s h r t now m Hr Ht Hi Hp. split.
  - intros keys R Hne Hall. cbv zeta.
    pose proof (reachable_Inv_Part000 s R) as HI.
    pose proof (fingerprint_gone keys s _ h r t HI (killClients_teardown keys s Hne)
                  Hr Ht Hi Hall) as Hgone.
    split; [exact Hgone|].
    apply not_joined_Part000; [by apply Inv_killClients|done|done].
  - intros swept T R Hall. cbv zeta.
    pose proof (reachable_Inv_ServerJs s R) as HI.
    pose proof (reachable_Subscribed_ServerJs s R) as (_ & _ & S2 & _).
    assert (clients t ≠ []) as Hsub.
    { pose proof (S2 r Hr) as Hc. unfold clientsOf in Hc. by rewrite Ht in Hc. }
    set (dead := filter (λ c, swept - heartbeat c > T) (_clients s)).
    assert (∀ c, c ∈ clients t → c_clientKey c ∈ map cl_clientKey dead) as Hkeys.
    { intros c Hc. destruct (Hall c Hc) as (cl & Hcl & Hk & Hd).
      apply list_elem_of_fmap. exists cl. split; [done|]. by apply list_elem_of_filter. }
    assert (map cl_clientKey dead ≠ []) as Hne.
    { destruct (clients t) as [|c cs]; [done|].
      intros He. pose proof (Hkeys c (list_elem_of_here _ _)) as Hin.
      rewrite He in Hin. by apply elem_of_nil in Hin. }
    pose proof (fingerprint_gone _ s _ h r t HI (removeDeadClients_teardown swept T s Hne)
                  Hr Ht Hi Hkeys) as Hgone.
    split; [exact Hgone|].
    apply not_joined_ServerJs; [by apply Inv_removeDeadClients_ServerJs|done|done].
Qed.

Lemma swarm_is_joined_again_after_teardown_witness :
  let m := Examples.addX "b" "k2" in
  let s := Examples.afterA_Part000 in
  let s' := Part000.killClients ["a"] s in
  0%nat ∈ _torrents s ∧ heap s !! 0%nat = Some Scenes.torrentXofA
  ∧ hashParser (torrentID m) = Some Examples.hashX
  ∧ reachable (@stepPart000 hashParser) s ∧ ["a"] ≠ []
  ∧ (∀ c, c ∈ clients Scenes.torrentXofA → c_clientKey c ∈ ["a"])
  ∧ type m = "add-torrent"
  ∧ (∀ r', r' ∈ _torrents s' → infoHashOf s' r' ≠ Some Examples.hashX)
  ∧ ∃ r2, _torrents (@Part000.receive hashParser 50000 m s').2 = _torrents s' ++ [r2]
          ∧ joins (@Part000.receive hashParser 50000 m s').2
            = joins s' ++ [CallAdd (torrentID m) r2]
          ∧ infoHashOf (@Part000.receive hashParser 50000 m s').2 r2 = Some Examples.hashX.
Proof.
  intros m s s'.
  assert (0%nat ∈ _torrents s) as Hr by (vm_compute; left).
  assert (heap s !! 0%nat = Some Scenes.torrentXofA) as Ht by (vm_compute; reflexivity).
  assert (hashParser (torrentID m) = Some Examples.hashX) as Hp by (vm_compute; reflexivity).
  assert (reachable (@stepPart000 hashParser) s) as R by apply reachable_step, reachable_new.
  assert (["a"] ≠ @nil string) as Hne by discriminate.
  assert (∀ c, c ∈ clients Scenes.torrentXofA → c_clientKey c ∈ ["a"]) as Hall
    by (intros c ->%list_elem_of_singleton; left).
  assert (type m = "add-torrent") as Hty by reflexivity.
  destruct (swarm_is_joined_again_after_teardown hashParser s Examples.hashX 0%nat
              Scenes.torrentXofA 50000 m Hr Ht eq_refl Hp) as [K _].
  destruct (K ["a"] R Hne Hall) as (Hgone & _ & Hadd).
  split; [exact Hr|]. split; [exact Ht|]. split; [exact Hp|]. split; [exact R|].
  split; [exact Hne|]. split; [exact Hall|]. split; [exact Hty|]. split; [exact Hgone|].
  exact (Hadd Hty).
Defined.

(** ** Lazy creation of the engine instance *)

Lemma instance_of_engineLife s s' :
  engineLife s' = engineLife s → (is_Some (_webtorrent s') ↔ is_Some (_webtorrent s)).
Proof.
  unfold engineLife. intros [= H _ _].
  rewrite <- (bool_decide_eq_true (is_Some (_webtorrent s'))).
  rewrite <- (bool_decide_eq_true (is_Some (_webtorrent s))).
  by rewrite H.
Qed.

Lemma no_instance_killClients keys s :
  _webtorrent s = None → _webtorrent (Part000.killClients keys s) = None.
Proof.
  intros Hw. destruct (decide (keys = [])) as [->|Hne]; [done|].
  destruct (killClients_teardown keys s Hne) as (_ & _ & _ & _ & _ & _ & Hnil & Hcons & _).
  destruct (decide (_torrents (Part000.killClients keys s) = [])) as [He|Hn].
  - by apply Hnil.
  - rewrite (Hcons Hn), Hw. done.
Qed.

(** X20. The engine instance is created lazily ([webtorrent ()]): on a
    server that holds no instance, a message leaves an instance behind
    exactly when it is an 'add-torrent' or a 'create-server' message, also
    when handling it fails; 'subscribe', 'heartbeat', 'destroy' and
    messages of unknown type never create one. In both sources ('destroy'
    is of unknown type in server.js). *)
Theorem engine_is_created_lazily :
  ∀ (parser : Parser) (now : Z) (m : Message) (s : Server),
    _webtorrent s = None →
    (is_Some (_webtorrent (Part000.receive now m s).2)
     ↔ type m = "add-torrent" ∨ type m = "create-server")
    ∧ (is_Some (_webtorrent (ServerJs.receive now m s).2)
       ↔ type m = "add-torrent" ∨ type m = "create-server").
Proof.
  intros parser now m s Hw.
  assert (¬ is_Some (_webtorrent s)) as Hn by (rewrite Hw; by intros [? ?]).
  assert (∀ s1, is_Some (_webtorrent (webtorrent s1))) as Hyes
    by (intros s1; by destruct (webtorrent_frame s1) as (_ & _ & _ & _ & _ & _ & ? & _)).
  split.
  - pose proof (instance_of_engineLife _ _ (engineLife_touchClient_Part000 now m s)) as H1.
    unfold Part000.receive. repeat case_bool_decide; simpl.
    + rewrite (instance_of_engineLife _ _ (engineLife_handleSubscribe_Part000 _ _)).
      naive_solver congruence.
    + rewrite (instance_of_engineLife _ _ (engineLife_handleAddTorrent_Part000 _ _)).
      naive_solver.
    + rewrite (instance_of_engineLife _ _
                 (frame_handleCreateServer_Part000 _ engineLife_framed _ _)).
      naive_solver.
    + rewrite (instance_of_engineLife _ _ (engineLife_handleHeartbeat _ _ _)).
      naive_solver congruence.
    + assert (_webtorrent (Part000.handleDestroy m (Part000.touchClient now m s)) = None) as ->.
      { unfold Part000.handleDestroy.
        assert (_webtorrent (traceLog (LogDestroyingClient (clientKey m))
                               (Part000.touchClient now m s)) = None) as Hw1.
        { rewrite traceLog_webtorrent_field.
          by destruct (touchClient_frame_Part000 now m s) as (_ & _ & _ & -> & _). }
        destruct (options m ≫= opt_delay); [|by apply no_instance_killClients].
        case_bool_decide; [by apply no_instance_killClients|done]. }
      split; [by intros [? ?]|naive_solver congruence].
    + naive_solver congruence.
  - pose proof (instance_of_engineLife _ _ (engineLife_touchClient_ServerJs now m s)) as H1.
    unfold ServerJs.receive. repeat case_bool_decide; simpl.
    + rewrite (instance_of_engineLife _ _ (engineLife_handleSubscribe_ServerJs _ _)).
      naive_solver congruence.
    + rewrite (instance_of_engineLife _ _ (engineLife_handleAddTorrent_ServerJs _ _)).
      naive_solver.
    + rewrite (instance_of_engineLife _ _
                 (frame_handleCreateServer_ServerJs _ engineLife_framed _ _)).
      naive_solver.
    + rewrite (instance_of_engineLife _ _ (engineLife_handleHeartbeat _ _ _)).
      naive_solver congruence.
    + naive_solver congruence.
Qed.

Lemma engine_is_created_lazily_witness :
  let s := newServer Examples.defaults in
  _webtorrent s = None
  ∧ (is_Some (_webtorrent (@Part000.receive hashParser 0 Scenes.subscribeAgain s).2)
     ↔ type Scenes.subscribeAgain = "add-torrent" ∨ type Scenes.subscribeAgain = "create-server")
  ∧ (is_Some (_webtorrent (@ServerJs.receive hashParser 0 Scenes.addUnparsed s).2)
     ↔ type Scenes.addUnparsed = "add-torrent" ∨ type Scenes.addUnparsed = "create-server").
Proof.
  intros s.
  assert (_webtorrent s = None) as Hw by reflexivity.
  split; [exact Hw|]. split.
  - exact (proj1 (engine_is_created_lazily hashParser 0 Scenes.subscribeAgain s Hw)).
  - exact (proj2 (engine_is_created_lazily hashParser 0 Scenes.addUnparsed s Hw)).
Defined.

(** ** The waiters of a pending listen *)

Section CascadeCarried.
Variable keys : list string.
Variable step : Server → TorrentRef → Server.
Variable lg : Server → Server.
Hypothesis Hstep : turnSpec keys step.
Hypothesis Hlg : ∀ s, sameState s (lg s) ∧ sent (lg s) = sent s.

Lemma cascade_carried s1 r :
  carried <$> heap (cascade step lg s1) !! r = carried <$> heap s1 !! r.
Proof.
  assert (carried <$> heap (foldl step s1 (_torrents s1)) !! r = carried <$> heap s1 !! r) as H2.
  { rewrite (turns_lookup keys step Hstep). case_bool_decide; [|done].
    by destruct (heap s1 !! r). }
  unfold cascade. cbv zeta. simpl.
  destruct (filter _ _); [|done].
  destruct (_webtorrent (foldl step s1 (_torrents s1))) as [w|] eqn:Hw; [|done].
  destruct (Hlg (with_webtorrent None
                   (engineDestroy (with_torrents [] (foldl step s1 (_torrents s1))))))
    as [(_ & _ & _ & _ & -> & _) _].
  unfold engineDestroy. simpl. rewrite Hw. simpl.
  rewrite destroyAll_lookup, <- H2.
  destruct (heap (foldl step s1 (_torrents s1)) !! r) as [t|]; [|done].
  simpl. by case_bool_decide.
Qed.

End CascadeCarried.

Lemma killClients_carried keys s r :
  carried <$> heap (Part000.killClients keys s) !! r = carried <$> heap s !! r.
Proof.
  destruct keys as [|k keys]; [done|].
  rewrite killClients_cascade.
  rewrite (cascade_carried (k :: keys)).
  - by rewrite foldl_deleteClient.
  - apply turn_Part000.
  - intros s'. split; [apply sameState_traceLog | apply traceLog_sent].
Qed.

Lemma removeDeadClients_carried now T s r :
  carried <$> heap (ServerJs.removeDeadClients now T s) !! r = carried <$> heap s !! r.
Proof.
  unfold ServerJs.removeDeadClients.
  destruct (foldl_logDelete (filter (λ c, now - heartbeat c > T) (_clients s)) s)
    as (_ & _ & _ & _ & Hh & _).
  cbv zeta in Hh.
  destruct (map cl_clientKey (filter (λ c, now - heartbeat c > T) (_clients s)))
    as [|k keys'] eqn:Hk; [by rewrite Hh|].
  rewrite <- Hh.
  apply (cascade_carried (k :: keys') (ServerJs.killTorrentClients (k :: keys'))
           (log LogInstanceDestroyed));
    first [apply turn_ServerJs | by intros s'; split; [apply sameState_log|]].
Qed.

Lemma sent_killClients keys s : sent (Part000.killClients keys s) = sent s.
Proof.
  destruct (decide (keys = [])) as [->|Hne]; [done|].
  by destruct (killClients_teardown keys s Hne) as (_ & _ & -> & _).
Qed.

Lemma sent_removeDeadClients_ServerJs now T s :
  sent (ServerJs.removeDeadClients now T s) = sent s.
Proof.
  destruct (decide (filter (λ c, now - heartbeat c > T) (_clients s) = [])) as [He|Hne].
  - by rewrite removeDeadClients_none.
  - assert (map cl_clientKey (filter (λ c, now - heartbeat c > T) (_clients s)) ≠ []) as Hk
      by (intros Hm; apply Hne; by apply fmap_nil_inv in Hm).
    by destruct (removeDeadClients_teardown now T s Hk) as (_ & _ & -> & _).
Qed.

(** X21. A teardown does not touch the waiters of a pending listen. The
    callbacks queued in [pendingServerCallbacks] (part_000) and the key
    pairs queued in [pendingHttpClients] (server.js) are not pruned by
    [killClients] and [removeDeadClients]: when the listen completes after
    a teardown, a 'server-ready' message still goes to every requester, in
    the order of the requests, also to the clients that were removed in
    between. *)
Theorem teardown_keeps_the_waiters :
  ∀ (parser : Parser) (s : Server) (r : TorrentRef) (t : Torrent) (port : string),
    heap s !! r = Some t →
    let url := "http://localhost:" +:+ port in
    (∀ keys reqs,
       pendingServerCallbacks t = Some (waitingCallbacks r reqs) →
       let s' := Part000.killClients keys s in
       (∃ t', heap s' !! r = Some t'
              ∧ pendingServerCallbacks t' = Some (waitingCallbacks r reqs))
       ∧ sent (Part000.onListening r port s') = sent s ++ notifications url reqs)
    ∧ (∀ now T ws,
         pendingHttpClients t = Some ws →
         let s' := ServerJs.removeDeadClients now T s in
         (∃ t', heap s' !! r = Some t' ∧ pendingHttpClients t' = Some ws)
         ∧ sent (ServerJs.onListening r port s') = sent s ++ readyFor url ws).
Proof.
  intros parser s r t port Ht. cbv zeta. split.
  - intros keys reqs Hp.
    pose proof (killClients_carried keys s r) as Hc. rewrite Ht in Hc.
    destruct (heap (Part000.killClients keys s) !! r) as [t'|] eqn:Ht'; [|done].
    injection Hc as _ _ Hu' Hp' _.
    split; [exists t'; split; [done|congruence]|].
    unfold Part000.onListening. rewrite Ht'. simpl. rewrite Hp', Hp.
    simpl. rewrite (notify_all_Part000 r ("http://localhost:" +:+ port)).
    + simpl. by rewrite sent_killClients.
    + simpl. by rewrite list_lookup_alter_eq, Ht'.
  - intros now T ws Hp.
    pose proof (removeDeadClients_carried now T s r) as Hc. rewrite Ht in Hc.
    destruct (heap (ServerJs.removeDeadClients now T s) !! r) as [t'|] eqn:Ht'; [|done].
    injection Hc as _ _ Hu' _ Hp'.
    split; [exists t'; split; [done|congruence]|].
    unfold ServerJs.onListening. rewrite Ht'. simpl. rewrite Hp', Hp.
    simpl. rewrite foldl_send. simpl. by rewrite sent_removeDeadClients_ServerJs.
Qed.

Lemma teardown_keeps_the_waiters_witness :
  let reqs := [(2001, Examples.createServerMsg "b" "k2")] in
  let s' := Part000.killClients ["b"] Scenes.pendingB in
  heap Scenes.pendingB !! 0%nat = Some Scenes.torrentXpending
  ∧ pendingServerCallbacks Scenes.torrentXpending = Some (waitingCallbacks 0%nat reqs)
  ∧ clientKeys s' = ["a"]
  ∧ sent (@Part000.onListening 0%nat "8080" s')
    = sent Scenes.pendingB ++ notifications "http://localhost:8080" reqs.
Proof.
  intros reqs s'.
  assert (heap Scenes.pendingB !! 0%nat = Some Scenes.torrentXpending) as Ht
    by (vm_compute; reflexivity).
  assert (pendingServerCallbacks Scenes.torrentXpending = Some (waitingCallbacks 0%nat reqs))
    as Hp by reflexivity.
  split; [exact Ht|]. split; [exact Hp|]. split; [vm_compute; reflexivity|].
  destruct (teardown_keeps_the_waiters hashParser Scenes.pendingB 0%nat
              Scenes.torrentXpending "8080" Ht) as [K _].
  exact (proj2 (K ["b"] reqs Hp)).
Defined.

Section AddJoined.
Context {parser : Parser}.

Lemma add_found_Part000 now m s h r t :
  Inv s → type m = "add-torrent" → parseTorrent (torrentID m) = Some h →
  r ∈ _torrents s → heap s !! r = Some t → infoHash t = h →
  let s1 := Part000.touchClient now m s in
  Part000.receive now m s
  = respondOrServe m r (updTorrent r (push_client (subscriptionOf m)) s1)
  ∧ heap s1 = heap s ∧ sent s1 = sent s ∧ calls s1 = calls s.
Proof.
  intros HI Hty Hp Hr Ht Hi. cbv zeta.
  destruct (touchClient_frame_Part000 now m s) as (Ft & Fh & _ & Fw & Fs & Fc).
  split; [|done].
  rewrite (proj1 (receive_add now m s Hty)).
  pose proof HI as (I1 & _).
  assert (webtorrent (Part000.touchClient now m s) = Part000.touchClient now m s) as Hwt.
  { apply (webtorrent_listed _ r). unfold wtTorrents. rewrite Fw. fold (wtTorrents s).
    by rewrite I1. }
  unfold Part000.handleAddTorrent. rewrite Hp, Hwt.
  rewrite (proj2 (find_touched h s _ Fh Fw)), (find_registered h s r t HI Hr Ht Hi).
  reflexivity.
Qed.

End AddJoined.

(** X22. An 'add-torrent' message that asks for a server, for a swarm that
    is joined already (part_000: [handleAddTorrent], [createServer]): the
    sender is subscribed, and the engine is not called again. When the
    torrent has its server URL, the 'torrent-subscribed' answer goes out at
    once, with that URL in its info fields; while a listen is pending, no
    second listen is started and nothing is sent: the answer is queued
    behind the callbacks that wait already. *)
Theorem add_torrent_with_server_shares_the_listen :
  ∀ (parser : Parser) (now : Z) (m : Message) (s : Server) (h : string) (o : MessageOptions)
    (r : TorrentRef) (t : Torrent),
    type m = "add-torrent" → parseTorrent (torrentID m) = Some h →
    options m = Some o → opt_server o = true →
    reachable stepPart000 s →
    r ∈ _torrents s → heap s !! r = Some t → infoHash t = h →
    let res := Part000.receive now m s in
    let t1 := push_client (subscriptionOf m) t in
    res.1 = Returned
    ∧ calls res.2 = calls s ++ (if bool_decide (serverURL t = None
                                                ∧ pendingServerCallbacks t = None)
                                then [CallCreateServer r; CallListen r] else [])
    ∧ (∀ url, serverURL t = Some url →
         heap res.2 !! r = Some t1
         ∧ sent res.2
           = sent s ++ [subscribedAnswer m
                          (TorrentInfoProgress (Part000.infoFields t) (progressFields t))])
    ∧ (∀ cbs, serverURL t = None → pendingServerCallbacks t = Some cbs →
         sent res.2 = sent s
         ∧ heap res.2 !! r
           = Some (with_pendingServerCallbacks
                     (Some (cbs ++ [Respond r (clientKey m) (torrentKey m)])) t1)).
Proof.
  intros parser now m s h o r t Hty Hp Ho Hsv R Hr Ht Hi. cbv zeta.
  destruct (add_found_Part000 now m s h r t (reachable_Inv_Part000 s R) Hty Hp Hr Ht Hi)
    as (-> & Fh & Fs & Fc).
  set (s3 := updTorrent r (push_client (subscriptionOf m)) (Part000.touchClient now m s)).
  assert (heap s3 !! r = Some (push_client (subscriptionOf m) t)) as Ht3
    by (apply lookup_push; by rewrite Fh).
  unfold respondOrServe. rewrite Ho, Hsv. cbn [fst snd].
  unfold Part000.createServer. rewrite Ht3. simpl.
  destruct (serverURL t) as [url|] eqn:Hu.
  - rewrite bool_decide_eq_false_2 by (by intros [? _]).
    unfold Part000.sendSubscribed. simpl. rewrite list_lookup_alter_eq, Fh, Ht. simpl.
    rewrite app_nil_r, Fs, Fc.
    split; [done|]. split; [done|]. split; [|by intros cbs ?].
    intros url' [= <-]. split; [done|]. unfold Part000.infoFields. simpl. by rewrite Hu.
  - destruct (pendingServerCallbacks t) as [cbs|] eqn:Hpc.
    + rewrite bool_decide_eq_false_2 by (by intros [_ ?]). simpl.
      rewrite app_nil_r, Fs, Fc, list_lookup_alter_eq.
      rewrite list_lookup_alter_eq, Fh, Ht. simpl.
      split; [done|]. split; [done|]. split; [by intros url ?|].
      intros cbs' _ [= <-]. done.
    + rewrite bool_decide_eq_true_2 by done. simpl. rewrite Fc, <- app_assoc. simpl.
      split; [done|]. split; [done|]. split; [by intros url ?|]. by intros cbs ?.
Qed.

Lemma add_torrent_with_server_shares_the_listen_witness :
  let m := Scenes.addWithServer in
  let res := @Part000.receive hashParser 2500 m Scenes.pendingB in
  type m = "add-torrent" ∧ hashParser (torrentID m) = Some Examples.hashX
  ∧ options m = Examples.wantServer
  ∧ reachable (@stepPart000 hashParser) Scenes.pendingB
  ∧ 0%nat ∈ _torrents Scenes.pendingB
  ∧ heap Scenes.pendingB !! 0%nat = Some Scenes.torrentXpending
  ∧ serverURL Scenes.torrentXpending = None
  ∧ pendingServerCallbacks Scenes.torrentXpending = Some [ServerReady 0%nat "b" (Some "k2")]
  ∧ calls res.2 = calls Scenes.pendingB ++ []
  ∧ sent res.2 = sent Scenes.pendingB
  ∧ heap res.2 !! 0%nat
    = Some (with_pendingServerCallbacks
              (Some ([ServerReady 0%nat "b" (Some "k2")]
                     ++ [Respond 0%nat (clientKey m) (torrentKey m)]))
              (push_client (subscriptionOf m) Scenes.torrentXpending)).
Proof.
  intros m res.
  assert (type m = "add-torrent") as Hty by reflexivity.
  assert (hashParser (torrentID m) = Some Examples.hashX) as Hp by (vm_compute; reflexivity).
  assert (options m = Examples.wantServer) as Ho by reflexivity.
  assert (reachable (@stepPart000 hashParser) Scenes.pendingB) as R
    by (do 3 apply reachable_step; apply reachable_new).
  assert (0%nat ∈ _torrents Scenes.pendingB) as Hr by (vm_compute; left).
  assert (heap Scenes.pendingB !! 0%nat = Some Scenes.torrentXpending) as Ht
    by (vm_compute; reflexivity).
  assert (serverURL Scenes.torrentXpending = None) as Hu by reflexivity.
  assert (pendingServerCallbacks Scenes.torrentXpending
          = Some [ServerReady 0%nat "b" (Some "k2")]) as Hpc by reflexivity.
  destruct (add_torrent_with_server_shares_the_listen hashParser 2500 m Scenes.pendingB
              Examples.hashX _ 0%nat Scenes.torrentXpending Hty Hp Ho eq_refl R Hr Ht eq_refl)
    as (_ & Hc & _ & Hq).
  destruct (Hq _ Hu Hpc) as [Hs Hh].
  split; [exact Hty|]. split; [exact Hp|]. split; [exact Ho|]. split; [exact R|].
  split; [exact Hr|]. split; [exact Ht|]. split; [exact Hu|]. split; [exact Hpc|].
  split; [exact Hc|]. split; [exact Hs|exact Hh].
Defined.

(** ** Every message is addressed *)

Lemma Addressed_sent s s' : sent s' = sent s → Addressed s → Addressed s'.
Proof. unfold Addressed. by intros ->. Qed.

Lemma Addressed_send m s : is_Some (o_clientKey m) → Addressed s → Addressed (_send m s).
Proof.
  unfold Addressed. simpl. intros Hm Hs. apply Forall_app. split; [done|].
  by apply Forall_singleton.
Qed.

Lemma Addressed_sendAll ms s :
  Forall (λ m, is_Some (o_clientKey m)) ms → Addressed s → Addressed (sendAll ms s).
Proof. unfold Addressed. simpl. intros Hm Hs. by apply Forall_app. Qed.

Lemma Addressed_foldl {A} (f : Server → A → Server) (l : list A) s :
  (∀ x s', Addressed s' → Addressed (f s' x)) → Addressed s → Addressed (foldl f s l).
Proof.
  intros Hf. revert s. induction l as [|x l IH]; intros s Hs; simpl; [done|].
  apply IH, Hf, Hs.
Qed.

Lemma Addressed_sendToTorrentClients r m s :
  Addressed s → Addressed (sendToTorrentClients r m s).
Proof.
  rewrite sendToTorrentClients_sendAll. apply Addressed_sendAll.
  apply Forall_forall. intros x (c & -> & _)%list_elem_of_fmap. simpl. eauto.
Qed.

Lemma Addressed_sendToAllClients m s : Addressed s → Addressed (sendToAllClients m s).
Proof.
  rewrite sendToAllClients_sendAll. apply Addressed_sendAll.
  apply Forall_forall. intros x (c & -> & _)%list_elem_of_fmap. simpl. eauto.
Qed.

Lemma Addressed_sendError r e ty s : Addressed s → Addressed (sendError r e ty s).
Proof.
  unfold sendError. destruct r; [apply Addressed_sendToTorrentClients|apply Addressed_sendToAllClients].
Qed.

Lemma Addressed_sendProgress r ty s : Addressed s → Addressed (sendProgress r ty s).
Proof.
  unfold sendProgress. destruct (heap s !! r); [apply Addressed_sendToTorrentClients|done].
Qed.

Lemma Addressed_updates s :
  Addressed s →
  Addressed (foldl (λ s' torrent, sendProgress torrent "update" s') s (_torrents s)).
Proof. apply Addressed_foldl. intros. by apply Addressed_sendProgress. Qed.

Lemma Addressed_onTorrentEvent r ev s :
  Addressed s →
  Addressed (Part000.onTorrentEvent r ev s) ∧ Addressed (ServerJs.onTorrentEvent r ev s).
Proof.
  intros Hs. destruct (heap s !! r) as [t|] eqn:Ht.
  - destruct (onTorrentEvent_relays_Part000 r ev s t Ht) as (m1 & _ & ->).
    destruct (onTorrentEvent_relays_ServerJs r ev s t Ht) as (m2 & _ & ->).
    split; (apply Addressed_sendAll; [|done]); apply Forall_forall;
      intros x (c & -> & _)%list_elem_of_fmap; simpl; eauto.
  - by destruct (onTorrentEvent_dangling r ev s Ht) as [-> ->].
Qed.

Lemma Addressed_killClients keys s : Addressed s → Addressed (Part000.killClients keys s).
Proof. apply Addressed_sent, sent_killClients. Qed.

Section AddressedPart000.
Context {parser : Parser}.

Lemma Addressed_sendSubscribed r ck tk s :
  Addressed s → Addressed (Part000.sendSubscribed r ck tk s).
Proof. apply Addressed_send. simpl. eauto. Qed.

Lemma Addressed_callCallback cb s : Addressed s → Addressed (Part000.callCallback cb s).
Proof. destruct cb; [apply Addressed_sendSubscribed | apply Addressed_send; simpl; eauto]. Qed.

Lemma Addressed_createServer r cb s : Addressed s → Addressed (Part000.createServer r cb s).
Proof.
  intros Hs. unfold Part000.createServer. destruct (heap s !! r) as [t|]; [|done].
  destruct (serverURL t); [by apply Addressed_callCallback|].
  by destruct (pendingServerCallbacks t).
Qed.

Lemma Addressed_onListening_Part000 r port s :
  Addressed s → Addressed (Part000.onListening r port s).
Proof.
  intros Hs. unfold Part000.onListening.
  destruct (heap s !! r ≫= pendingServerCallbacks); [|done].
  apply (Addressed_sent (foldl (λ s' cb, Part000.callCallback cb s')
                           (updTorrent r (with_serverURL (Some ("http://localhost:" +:+ port))) s)
                           l)); [done|].
  apply Addressed_foldl; [intros; by apply Addressed_callCallback|done].
Qed.

Lemma Addressed_receive_Part000 now m s :
  Addressed s → Addressed (Part000.receive now m s).2.
Proof.
  intros Hs.
  assert (Addressed (Part000.touchClient now m s)) as Ha1.
  { eapply Addressed_sent; [|done].
    by destruct (touchClient_frame_Part000 now m s) as (_ & _ & _ & _ & -> & _). }
  unfold Part000.receive. repeat case_bool_decide; simpl.
  - unfold Part000.handleSubscribe. destruct (parseTorrent _); simpl; [|done].
    apply Addressed_sendSubscribed. by destruct (findByInfoHash _ _ _).
  - unfold Part000.handleAddTorrent.
    assert (Addressed (webtorrent (Part000.touchClient now m s))) as Ha2.
    { eapply Addressed_sent; [|done].
      by destruct (webtorrent_frame (Part000.touchClient now m s)) as (_ & _ & _ & _ & -> & _). }
    destruct (parseTorrent _) as [h|]; simpl; [|done].
    destruct (findByInfoHash h _ _) as [r|]; simpl.
    + destruct (options m) as [o|]; [|done].
      destruct (opt_server o); simpl;
        [apply Addressed_createServer | apply Addressed_sendSubscribed]; done.
    + assert (Addressed (traceLog (LogJoiningSwarm h) (webtorrent (Part000.touchClient now m s))))
        as Ha3 by (eapply Addressed_sent; [apply traceLog_sent|done]).
      destruct (options m) as [o|]; [|done].
      destruct (opt_server o); simpl;
        [apply Addressed_createServer | apply Addressed_sendSubscribed]; done.
  - unfold Part000.handleCreateServer, Part000.getTorrentByKey.
    assert (Addressed (webtorrent (Part000.touchClient now m s))) as Ha2.
    { eapply Addressed_sent; [|done].
      by destruct (webtorrent_frame (Part000.touchClient now m s)) as (_ & _ & _ & _ & -> & _). }
    destruct (findByKey _ _ _); [by apply Addressed_createServer | by apply Addressed_sendError].
  - apply (Addressed_sent (Part000.touchClient now m s)); [|done].
    by destruct (handleHeartbeat_frame now m (Part000.touchClient now m s))
      as (_ & _ & _ & _ & -> & _).
  - unfold Part000.handleDestroy.
    assert (Addressed (traceLog (LogDestroyingClient (clientKey m)) (Part000.touchClient now m s)))
      as Ha3 by (eapply Addressed_sent; [apply traceLog_sent|done]).
    destruct (options m ≫= opt_delay); [|by apply Addressed_killClients].
    case_bool_decide; [by apply Addressed_killClients|done].
  - done.
Qed.

Lemma Addressed_stepPart000 e s : Addressed s → Addressed (stepPart000 e s).
Proof.
  intros Hs. destruct e; simpl.
  - by apply Addressed_receive_Part000.
  - unfold Part000.sendUpdates. apply Addressed_updates.
    destruct (0 <? _); [|done]. unfold Part000.removeDeadClients.
    apply Addressed_killClients. eapply Addressed_sent; [apply sent_foldl_traceLog|done].
  - by apply Addressed_onListening_Part000.
  - unfold Part000.onTimeout. case_bool_decide; [|done]. by apply Addressed_killClients.
  - by apply Addressed_onTorrentEvent.
  - destruct (_webtorrent s); [|done]. destruct ev; by apply Addressed_sendError.
  - done.
Qed.

End AddressedPart000.

Section AddressedServerJs.
Context {parser : Parser}.

Lemma Addressed_addClient r ck tk s : Addressed s → Addressed (ServerJs.addClient r ck tk s).
Proof. by apply Addressed_sent. Qed.

Lemma Addressed_receive_ServerJs now m s :
  Addressed s → Addressed (ServerJs.receive now m s).2.
Proof.
  intros Hs.
  assert (Addressed (ServerJs.touchClient now m s)) as Ha1.
  { eapply Addressed_sent; [|done].
    by destruct (touchClient_frame_ServerJs now m s) as (_ & _ & _ & _ & -> & _). }
  assert (Addressed (webtorrent (ServerJs.touchClient now m s))) as Ha2.
  { eapply Addressed_sent; [|done].
    by destruct (webtorrent_frame (ServerJs.touchClient now m s)) as (_ & _ & _ & _ & -> & _). }
  unfold ServerJs.receive. repeat case_bool_decide; simpl.
  - unfold ServerJs.handleSubscribe. destruct (parseTorrent _); simpl; [|done].
    destruct (findByInfoHash _ _ _); simpl.
    + apply Addressed_send; [simpl; eauto|]. by apply Addressed_addClient.
    + apply Addressed_send; [simpl; eauto|done].
  - unfold ServerJs.handleAddTorrent.
    destruct (parseTorrent _) as [h|]; simpl; [|done].
    destruct (findByInfoHash h _ _) as [r|]; simpl.
    + destruct (heap _ !! r); simpl; apply Addressed_addClient; [|done].
      repeat (apply Addressed_send; [simpl; eauto|]). done.
    + by apply Addressed_addClient, (Addressed_sent (webtorrent (ServerJs.touchClient now m s))).
  - unfold ServerJs.handleCreateServer, ServerJs.getTorrentByKey.
    destruct (findByKey _ _ _) as [r|]; simpl; [|done].
    destruct (heap _ !! r) as [t|]; [|done].
    destruct (serverURL t); simpl; [apply Addressed_send; [simpl; eauto|done]|].
    by destruct (pendingHttpClients t).
  - apply (Addressed_sent (ServerJs.touchClient now m s)); [|done].
    by destruct (handleHeartbeat_frame now m (ServerJs.touchClient now m s))
      as (_ & _ & _ & _ & -> & _).
  - done.
Qed.

Lemma Addressed_stepServerJs e s : Addressed s → Addressed (stepServerJs e s).
Proof.
  intros Hs. destruct e; simpl.
  - by apply Addressed_receive_ServerJs.
  - unfold ServerJs.sendUpdates. apply Addressed_updates.
    destruct (heartbeatTimeout (_options s)); [|done]. case_bool_decide; [|done].
    eapply Addressed_sent; [apply sent_removeDeadClients_ServerJs|done].
  - unfold ServerJs.onListening.
    destruct (heap s !! torrent ≫= pendingHttpClients) as [ws|]; [|done].
    simpl. rewrite foldl_send. apply (Addressed_sendAll _ s); [|done].
    apply Forall_forall. intros x (c & -> & _)%list_elem_of_fmap. simpl. eauto.
  - done.
  - by apply Addressed_onTorrentEvent.
  - destruct (_webtorrent s); [|done]. destruct ev; by apply Addressed_sendError.
  - done.
Qed.

End AddressedServerJs.

(** X23. Every message that the broker hands to [send] names the client it
    is for: on every server that a run of either source can reach, each
    message sent so far has a [clientKey]. The fan-out to the subscribers
    of a torrent and to all clients, the answers to 'subscribe' and
    'add-torrent', and the 'server-ready' messages all set it. *)
Theorem every_message_is_addressed :
  ∀ (parser : Parser) (s : Server),
    reachable stepPart000 s ∨ reachable stepServerJs s →
    ∀ m, m ∈ sent s → ∃ ck, o_clientKey m = Some ck.
Proof.
  intros parser s R.
  assert (Addressed s) as Ha.
  { destruct R as [R|R]; induction R as [opts|e s _ IH];
      first [ apply Forall_nil_2 | by apply Addressed_stepPart000
            | by apply Addressed_stepServerJs ]. }
  intros m Hm. unfold Addressed in Ha. rewrite Forall_forall in Ha. by apply Ha.
Qed.

Lemma every_message_is_addressed_witness :
  (reachable (@stepPart000 hashParser) Examples.afterAB_Part000
   ∨ reachable (@stepServerJs hashParser) Examples.afterAB_Part000)
  ∧ ∀ m, m ∈ sent Examples.afterAB_Part000 → ∃ ck, o_clientKey m = Some ck.
Proof.
  assert (reachable (@stepPart000 hashParser) Examples.afterAB_Part000
          ∨ reachable (@stepServerJs hashParser) Examples.afterAB_Part000) as R
    by (left; do 2 apply reachable_step; apply reachable_new).
  split; [exact R|].
  exact (every_message_is_addressed hashParser Examples.afterAB_Part000 R).
Defined.

